(** * multipart.py: the multipart/form-data decoder, embedded in Rocq

    Source: [src/deep-modeling/api/multipart.py].

    Conventions of the embedding.
    - A Python 2 byte string ([str]) and a decoded header line ([unicode],
      restricted to the code points 0..255 that the default charset latin1
      produces) are both lists of 8-bit characters; a decoding that leaves
      this range, or goes through another codec, is marked as not embedded
      (see [decode]).
    - Sizes, limits and slice indices are [Z], as Python integers are.
    - A call that can raise returns a [result]; a method that mutates its
      object before raising returns the mutated object with the exception.
    - A generator is the list of the events it performs when it is run to
      exhaustion, in order; a consumer that stops early leaves a suffix of
      that list unexecuted. *)

From Stdlib Require Import ZArith Lia Ascii String.
From stdpp Require Import base option list gmap strings.

Local Open Scope Z_scope.

(** ** Exceptions *)

Inductive mp_msg :=
| BoundaryDoesNotFit     (* 'Boundary does not fit into buffer_size.' *)
| StreamDoesNotStart     (* "Stream does not start with boundary" *)
| MemoryLimitReached     (* "Memory limit reached." *)
| DiskLimitReached       (* "Disk limit reached." *)
| UnexpectedEndOfStream  (* "Unexpected end of multipart stream." *)
| UnexpectedEndOfLine    (* 'Unexpected end of line in header.' *)
| NoColon                (* "Syntax error in header: No colon." *)
| BodyExceedsLength      (* 'Size of body exceeds Content-Length header.' *)
| DispositionMissing.    (* 'Content-Disposition header is missing.' *)

Inductive exn :=
| MultipartError (m : mp_msg)
| IndexError
| AttributeError
| ValueError
| IOError
| UnicodeDecodeError
| CodecNotEmbedded.   (* a decoding that this development does not embed *)

Inductive result (A : Type) :=
| Ok (a : A)
| Raise (e : exn).
Arguments Ok {A} a.
Arguments Raise {A} e.

Definition rbind {A B} (r : result A) (f : A -> result B) : result B :=
  match r with Ok a => f a | Raise e => Raise e end.

(** ** Byte strings and text *)

Abbreviation bytes := (list ascii) (only parsing).
Abbreviation text := (list ascii) (only parsing).

(** A literal. *)
Definition T (s : string) : list ascii := list_ascii_of_string s.

Definition DQUOTE : ascii := "034"%char.
Definition BSLASH : ascii := "092"%char.
Definition CR : ascii := "013"%char.
Definition LF : ascii := "010"%char.
Definition TAB : ascii := "009"%char.
Definition SPACE : ascii := "032"%char.

Definition ch_eqb (a b : ascii) : bool := Ascii.eqb a b.

Fixpoint text_eqb (a b : list ascii) : bool :=
  match a, b with
  | [], [] => true
  | x :: a', y :: b' => ch_eqb x y && text_eqb a' b'
  | _, _ => false
  end.

Definition zlen {A} (s : list A) : Z := Z.of_nat (length s).

(** [s[i]], negative indices counting from the end. *)
Definition index {A} (s : list A) (i : Z) : result A :=
  let n := zlen s in
  let k := if i <? 0 then i + n else i in
  if (k <? 0) || (n <=? k) then Raise IndexError
  else match s !! Z.to_nat k with Some a => Ok a | None => Raise IndexError end.

Definition clamp_index (n i : Z) : Z :=
  if i <? 0 then Z.max (i + n) 0 else Z.min i n.

Definition bound (d : Z) (o : option Z) : Z :=
  match o with Some i => i | None => d end.

(** [s[i:j]]; an omitted bound is [None]. *)
Definition slice {A} (s : list A) (i j : option Z) : list A :=
  let n := zlen s in
  let lo := clamp_index n (bound 0 i) in
  let hi := clamp_index n (bound n j) in
  take (Z.to_nat (hi - lo)) (drop (Z.to_nat lo) s).

Fixpoint startswith (s p : list ascii) : bool :=
  match p, s with
  | [], _ => true
  | x :: p', y :: s' => ch_eqb x y && startswith s' p'
  | _ :: _, [] => false
  end.

Definition endswith (s p : list ascii) : bool :=
  startswith (rev s) (rev p).

Definition contains_ch (c : ascii) (s : list ascii) : bool :=
  existsb (ch_eqb c) s.

(** [s.split(c)] for a one-character separator: the pieces between the
    occurrences of [c]; never empty. *)
Fixpoint split_ch (c : ascii) (s : text) : list text :=
  match s with
  | [] => [[]]
  | x :: s' =>
      if ch_eqb x c then [] :: split_ch c s'
      else match split_ch c s' with
           | [] => [[x]]
           | p :: ps => (x :: p) :: ps
           end
  end.

(** [s.split(c, 1)]: at the first occurrence of [c] only. *)
Fixpoint split1 (c : ascii) (s : text) : text * option text :=
  match s with
  | [] => ([], None)
  | x :: s' =>
      if ch_eqb x c then ([], Some s')
      else let '(a, b) := split1 c s' in (x :: a, b)
  end.

(** [s.replace(old, new)] for a non-empty [old]: occurrences are replaced
    from the left and do not overlap.  [skip] counts the characters of the
    occurrence being replaced that are still to be passed over. *)
Fixpoint replace_from (old new : text) (skip : nat) (s : text) : text :=
  match s with
  | [] => []
  | x :: s' =>
      match skip with
      | S k => replace_from old new k s'
      | O =>
          if startswith s old
          then new ++ replace_from old new (length old - 1)%nat s'
          else x :: replace_from old new 0%nat s'
      end
  end.

Definition replace (old new s : text) : text := replace_from old new 0%nat s.

(** ** Header parser *)

(** [header_unquote(val, filename=False)] *)
Definition header_unquote (val : text) (filename : bool) : result text :=
  rbind (index val 0) (fun first =>
  rbind (index val (-1)) (fun final =>
    if ch_eqb first final && ch_eqb final DQUOTE then
      let val := slice val (Some 1) (Some (-1)) in
      rbind
        (if text_eqb (slice val (Some 1) (Some 3)) [":"%char; BSLASH]
            || text_eqb (slice val None (Some 2)) [BSLASH; BSLASH]
         then index (split_ch BSLASH val) (-1)
         else Ok val)
        (fun val =>
           Ok (replace [BSLASH; DQUOTE] [DQUOTE]
                 (replace [BSLASH; BSLASH] [BSLASH] val)))
    else Ok val)).

(** *** The regular expressions of the module

    [re] is a backtracking matcher: alternatives are tried left to right,
    repetition is greedy, the first success wins.  [rmatch r st k] matches
    [r] at [st] and hands the state after it to the continuation [k]; a
    failure of [k] makes [r] try its next way of matching. *)

Inductive regex :=
| Bol                          (* ^ *)
| Chr (p : ascii -> bool)      (* a literal, a class, [.] *)
| Cat (r1 r2 : regex)
| Alt (r1 r2 : regex)          (* r1|r2 *)
| Star (r : regex)             (* r* *)
| Grp (n : nat) (r : regex).   (* the n-th capturing group *)

Definition Plus (r : regex) : regex := Cat r (Star r).   (* r+ *)

Record mstate := MState {
  m_pos : nat;                 (* characters before the current position *)
  m_rest : text;               (* the subject from the current position on *)
  m_caps : list (nat * text)   (* groups closed so far, latest first *)
}.

(** [match.group(n)]; [None] when the group took no part in the match. *)
Fixpoint group (n : nat) (caps : list (nat * text)) : option text :=
  match caps with
  | [] => None
  | (i, t) :: caps' => if Nat.eqb i n then Some t else group n caps'
  end.

(** The greedy loop of [r*]: one more round of [m] if it makes progress and
    the rest then succeeds, otherwise on with the continuation. *)
Fixpoint star_iter (m : mstate -> (mstate -> option mstate) -> option mstate)
    (k : mstate -> option mstate) (n : nat) (st : mstate) : option mstate :=
  match n with
  | O => k st
  | S n' =>
      match m st (fun st1 =>
              if (length (m_rest st1) <? length (m_rest st))%nat
              then star_iter m k n' st1 else None) with
      | Some res => Some res
      | None => k st
      end
  end.

Definition close_group (n : nat) (st st1 : mstate) : mstate :=
  MState (m_pos st1) (m_rest st1)
    ((n, take (m_pos st1 - m_pos st) (m_rest st)) :: m_caps st1).

Fixpoint rmatch (r : regex) (st : mstate) (k : mstate -> option mstate)
  : option mstate :=
  match r with
  | Bol => if Nat.eqb (m_pos st) 0 then k st else None
  | Chr p =>
      match m_rest st with
      | c :: s' =>
          if p c then k (MState (S (m_pos st)) s' (m_caps st)) else None
      | [] => None
      end
  | Cat r1 r2 => rmatch r1 st (fun st1 => rmatch r2 st1 k)
  | Alt r1 r2 =>
      match rmatch r1 st k with
      | Some res => Some res
      | None => rmatch r2 st k
      end
  | Star r1 => star_iter (rmatch r1) k (length (m_rest st)) st
  | Grp n r1 => rmatch r1 st (fun st1 => k (close_group n st st1))
  end.

(** [r.finditer(s)]: the matches of [r] in [s], leftmost first, each search
    starting where the previous match ended.  [skip] counts the positions
    still covered by the previous match. *)
Fixpoint finditer_from (r : regex) (pos skip : nat) (s : text)
  : list (list (nat * text)) :=
  let found :=
    match skip with
    | O => rmatch r (MState pos s []) Some
    | S _ => None
    end in
  match found with
  | Some st =>
      m_caps st ::
        match s with
        | [] => []
        | _ :: s' => finditer_from r (S pos) (m_pos st - pos - 1) s'
        end
  | None =>
      match s with
      | [] => []
      | _ :: s' => finditer_from r (S pos) (pred skip) s'
      end
  end.

Definition finditer (r : regex) (s : text) : list (list (nat * text)) :=
  finditer_from r 0 0 s.

(** [_special]: the characters ( ) < > @ , ; : backslash, double quote,
    / [ ] ? = { } space and tab; [re.escape] makes each stand for itself. *)
Definition _special : text :=
  T "()<>@,;:" ++ [BSLASH; DQUOTE] ++ T "/[]?={} " ++ [TAB].

Definition is_special (c : ascii) : bool := contains_ch c _special.
Definition not_special (c : ascii) : bool := negb (is_special c).

(** [\s] of a pattern compiled without flags *)
Definition is_space (c : ascii) : bool :=
  contains_ch c [SPACE; TAB; LF; CR; "012"%char; "011"%char].

(** [_qstr], a quoted string: a double quote, then any number of either
    a backslash followed by [.] or a character other than a double quote,
    then a double quote. *)
Definition _qstr : regex :=
  Cat (Chr (ch_eqb DQUOTE))
   (Cat (Star (Alt (Cat (Chr (ch_eqb BSLASH)) (Chr (fun c => negb (ch_eqb c LF))))
                   (Chr (fun c => negb (ch_eqb c DQUOTE)))))
        (Chr (ch_eqb DQUOTE))).

(** [_value = '(?:[^%s]+|%s)' % (_special, _qstr)]: a run of characters
    outside [_special], or a quoted string. *)
Definition _value : regex := Alt (Plus (Chr not_special)) _qstr.

(** [_option = '(?:;|^)\s*([^%s]+)\s*=\s*(%s)' % (_special, _value)] *)
Definition _option : regex :=
  Cat (Alt (Chr (ch_eqb ";"%char)) Bol)
   (Cat (Star (Chr is_space))
     (Cat (Grp 1 (Plus (Chr not_special)))
       (Cat (Star (Chr is_space))
         (Cat (Chr (ch_eqb "="%char))
           (Cat (Star (Chr is_space))
             (Grp 2 _value)))))).

Definition _re_option : regex := _option.

(** [unicode.lower()] on the code points 0..255 *)
Definition lower_ch (c : ascii) : ascii :=
  let n := N_of_ascii c in
  if ((65 <=? n) && (n <=? 90) || (192 <=? n) && (n <=? 214)
      || (216 <=? n) && (n <=? 222))%N
  then ascii_of_N (n + 32) else c.

Definition lower (s : text) : text := map lower_ch s.

(** [unicode.isspace()] on the code points 0..255 *)
Definition is_uspace (c : ascii) : bool :=
  let n := N_of_ascii c in
  ((9 <=? n) && (n <=? 13) || (28 <=? n) && (n <=? 32)
   || (n =? 133) || (n =? 160))%N.

Fixpoint lstrip (s : text) : text :=
  match s with
  | c :: s' => if is_uspace c then lstrip s' else s
  | [] => []
  end.

Definition strip (s : text) : text := rev (lstrip (rev (lstrip s))).

Abbreviation dict := (gmap (list ascii) (list ascii)) (only parsing).

(** The body of the loop over the matches: [options[key] = value]. *)
Definition record_option (options : dict) (m : list (nat * text))
  : result dict :=
  match group 1 m, group 2 m with
  | Some g1, Some g2 =>
      let key := lower g1 in
      rbind (header_unquote g2 (text_eqb key (T "filename")))
        (fun value => Ok (<[key := value]> options))
  | _, _ => Raise AttributeError   (* a method of [None] *)
  end.

Definition record_options (options : dict) (ms : list (list (nat * text)))
  : result dict :=
  foldl (fun acc m => rbind acc (fun options => record_option options m))
    (Ok options) ms.

(** [parse_options_header(header, options=None)] *)
Definition parse_options_header (header : text) (options : option dict)
  : result (text * dict) :=
  if negb (contains_ch ";"%char header) then Ok (strip (lower header), ∅)
  else
    match split1 ";"%char header with
    | (_, None) => Raise ValueError   (* one value to unpack into two *)
    | (ctype, Some tail) =>
        let options : dict := default ∅ options in
        rbind (record_options options (finditer _re_option tail))
          (fun options => Ok (ctype, options))
    end.

(** What it means for [r] to match from one state to another, without the
    search order: the relation the matcher is sound for. *)
Inductive matches : regex -> mstate -> mstate -> Prop :=
| M_Bol st :
    m_pos st = 0%nat -> matches Bol st st
| M_Chr p c s' st :
    m_rest st = c :: s' -> p c = true ->
    matches (Chr p) st (MState (S (m_pos st)) s' (m_caps st))
| M_Cat r1 r2 st st1 st2 :
    matches r1 st st1 -> matches r2 st1 st2 -> matches (Cat r1 r2) st st2
| M_AltL r1 r2 st st1 :
    matches r1 st st1 -> matches (Alt r1 r2) st st1
| M_AltR r1 r2 st st1 :
    matches r2 st st1 -> matches (Alt r1 r2) st st1
| M_StarNil r st :
    matches (Star r) st st
| M_StarCons r st st1 st2 :
    matches r st st1 -> matches (Star r) st1 st2 -> matches (Star r) st st2
| M_Grp n r st st1 :
    matches r st st1 -> matches (Grp n r) st (close_group n st st1).

(** A piece [key ws = ws value] of an option tail, as [_option] reads it:
    [key] a non-empty run of characters outside [_special], [value] such a
    run or a quoted string, white space allowed around the equals sign. *)
Definition is_value (v : text) : Prop :=
  (v <> [] /\ Forall (fun c => not_special c = true) v)
  \/ (exists q, v = DQUOTE :: (q ++ [DQUOTE])).

Definition option_fragment (tail key value : text) : Prop :=
  exists lead ws0 ws1 ws2 post,
    tail = lead ++ ws0 ++ key ++ ws1 ++ "="%char :: (ws2 ++ value ++ post)
    /\ (lead = [] \/ exists l, lead = l ++ [";"%char])
    /\ Forall (fun c => is_space c = true) ws0
    /\ key <> [] /\ Forall (fun c => not_special c = true) key
    /\ Forall (fun c => is_space c = true) ws1
    /\ Forall (fun c => is_space c = true) ws2
    /\ is_value value.



(** Patterns without capturing groups. *)
Fixpoint no_group (r : regex) : bool :=
  match r with
  | Bol | Chr _ => true
  | Cat r1 r2 | Alt r1 r2 => no_group r1 && no_group r2
  | Star r1 => no_group r1
  | Grp _ _ => false
  end.

(** ** The option tail, fragment by fragment

    The tail of a header as the specification reads it: fragments with a
    semicolon between them, each a pair [key=value] or something else. *)



















(** ** Files

    A [BytesIO] or a temporary file: its content and its position. *)

Record fileobj := File { f_data : bytes; f_pos : nat }.

Definition new_file : fileobj := File [] 0.

Definition file_seek (f : fileobj) (pos : nat) : fileobj :=
  File (f_data f) pos.

(** [f.write(b)]: at the position, over what is there, after a gap of
    zero bytes when the position is past the end. *)
Definition file_write (f : fileobj) (b : bytes) : fileobj :=
  File (take (f_pos f) (f_data f)
          ++ replicate (f_pos f - length (f_data f)) "000"%char
          ++ b ++ drop (f_pos f + length b) (f_data f))
       (f_pos f + length b).

(** [f.read(n)]: up to [n] bytes from the position, all of them when [n] is
    negative. *)
Definition file_read (f : fileobj) (n : Z) : bytes * fileobj :=
  let avail := drop (f_pos f) (f_data f) in
  let got := if n <? 0 then avail else take (Z.to_nat n) avail in
  (got, File (f_data f) (f_pos f + length got)).

(** [copy_file(stream, target, maxread, buffer_size)].  Every round but the
    last reads at least one byte of [stream], so [fuel] above the number of
    bytes left in it is never used up. *)
Fixpoint copy_file_loop (fuel : nat) (stream target : fileobj)
    (maxread buffer_size size : Z) : fileobj * fileobj * Z :=
  match fuel with
  | O => (stream, target, size)
  | S fuel' =>
      let to_read :=
        if maxread <? 0 then buffer_size
        else Z.min buffer_size (maxread - size) in
      let '(part, stream) := file_read stream to_read in
      match part with
      | [] => (stream, target, size)
      | _ :: _ =>
          copy_file_loop fuel' stream (file_write target part)
            maxread buffer_size (size + zlen part)
      end
  end.

Definition copy_file (stream target : fileobj) (maxread buffer_size : Z)
  : fileobj * fileobj * Z :=
  copy_file_loop (S (length (f_data stream) - f_pos stream))
    stream target maxread buffer_size 0.

(** ** Text helpers of the part *)

Definition is_empty {A} (s : list A) : bool :=
  match s with [] => true | _ :: _ => false end.

Definition is_ascii (c : ascii) : bool := (N_of_ascii c <? 128)%N.

(** [line.decode(charset or 'latin1')].  Under latin1 every byte is the
    code point of the same value, and a line decodes to itself.  Under
    ascii and utf8 so does a line of bytes below 128; under ascii any other
    line raises [UnicodeDecodeError].  The rest is not embedded, and is
    marked so: utf8 on a line with a byte from 128 on (it raises, or gives
    code points that may lie above 255, which the texts here do not hold),
    and every other codec or spelling of a codec name. *)
Definition decode (charset : text) (line : bytes) : result text :=
  let charset := if is_empty charset then T "latin1" else charset in
  if text_eqb charset (T "latin1") then Ok line
  else if text_eqb charset (T "ascii") then
    if forallb is_ascii line then Ok line else Raise UnicodeDecodeError
  else if text_eqb charset (T "utf8") then
    if forallb is_ascii line then Ok line else Raise CodecNotEmbedded
  else Raise CodecNotEmbedded.

Definition is_digit (c : ascii) : bool :=
  let n := N_of_ascii c in ((48 <=? n) && (n <=? 57))%N.

Definition digits_value (ds : text) : Z :=
  foldl (fun acc c => 10 * acc + (Z.of_N (N_of_ascii c) - 48)) 0 ds.

(** [int(s)]: white space around, an optional sign, decimal digits. *)
Definition py_int (s : text) : result Z :=
  let s := strip s in
  let '(neg, ds) :=
    match s with
    | c :: s' =>
        if ch_eqb c "-"%char then (true, s')
        else if ch_eqb c "+"%char then (false, s')
        else (false, s)
    | [] => (false, [])
    end in
  if is_empty ds || negb (forallb is_digit ds) then Raise ValueError
  else Ok (if neg then - digits_value ds else digits_value ds).

(** [Headers(headerlist).get(name, default)]: the value of the first header
    of that name, whatever the case of its letters. *)
Fixpoint headers_get (headers : list (text * text)) (name default : text)
  : text :=
  match headers with
  | [] => default
  | (k, v) :: rest =>
      if text_eqb (lower k) (lower name) then v
      else headers_get rest name default
  end.

(** ** MultipartPart *)

Module MultipartPart.

(** The body sink [self.file]: [False] before the headers are finished,
    then a [BytesIO], then possibly a [TemporaryFile]. *)
Inductive sink :=
| NoFile
| BytesIO (f : fileobj)
| TemporaryFile (f : fileobj).

Record t := Make {
  headerlist : list (text * text);
  headers : option (list (text * text));
  file : sink;
  size : Z;
  _buf : bytes;
  disposition : option text;
  name : option text;
  filename : option text;
  content_type : option text;
  charset : text;
  options : option dict;
  content_length : option Z;    (* set by [finish_header] only *)
  memfile_limit : Z;
  buffer_size : Z
}.

(** [MultipartPart(buffer_size, memfile_limit, charset)] *)
Definition __init__ (buffer_size memfile_limit : Z) (charset : text) : t :=
  {| headerlist := []; headers := None; file := NoFile; size := 0;
     _buf := []; disposition := None; name := None; filename := None;
     content_type := None; charset := charset; options := None;
     content_length := None;
     memfile_limit := memfile_limit; buffer_size := buffer_size |}.

Definition set_headerlist (p : t) (h : list (text * text)) : t :=
  Make h (headers p) (file p) (size p) (_buf p) (disposition p) (name p)
    (filename p) (content_type p) (charset p) (options p)
    (content_length p) (memfile_limit p) (buffer_size p).

Definition set_file (p : t) (f : sink) : t :=
  Make (headerlist p) (headers p) f (size p) (_buf p) (disposition p)
    (name p) (filename p) (content_type p) (charset p) (options p)
    (content_length p) (memfile_limit p) (buffer_size p).

Definition set_body (p : t) (f : sink) (sz : Z) (buf : bytes) : t :=
  Make (headerlist p) (headers p) f sz buf (disposition p)
    (name p) (filename p) (content_type p) (charset p) (options p)
    (content_length p) (memfile_limit p) (buffer_size p).

(** The file behind the sink, if any. *)
Definition sink_file (s : sink) : option fileobj :=
  match s with
  | NoFile => None
  | BytesIO f | TemporaryFile f => Some f
  end.

Definition sink_map (g : fileobj -> fileobj) (s : sink) : sink :=
  match s with
  | NoFile => NoFile
  | BytesIO f => BytesIO (g f)
  | TemporaryFile f => TemporaryFile (g f)
  end.

(** [is_buffered()]: [isinstance(self.file, BytesIO)] *)
Definition is_buffered (p : t) : bool :=
  match file p with BytesIO _ => true | _ => false end.

(** [finish_header()] *)
Definition finish_header (p : t) : t * option exn :=
  let p := set_file p (BytesIO new_file) in
  let hs := headerlist p in
  let p := Make (headerlist p) (Some hs) (file p) (size p) (_buf p)
             (disposition p) (name p) (filename p) (content_type p)
             (charset p) (options p) (content_length p)
             (memfile_limit p) (buffer_size p) in
  let cdis := headers_get hs (T "Content-Disposition") [] in
  let ctype := headers_get hs (T "Content-Type") [] in
  if is_empty cdis
  then (p, Some (MultipartError DispositionMissing))
  else
    match parse_options_header cdis None with
    | Raise e => (p, Some e)
    | Ok (disp, opts) =>
        let p := Make (headerlist p) (headers p) (file p) (size p) (_buf p)
                   (Some disp) (opts !! T "name") (opts !! T "filename")
                   (content_type p) (charset p) (Some opts)
                   (content_length p) (memfile_limit p) (buffer_size p) in
        match parse_options_header ctype None with
        | Raise e => (p, Some e)
        | Ok (ct, opts2) =>
            let cs :=
              match opts2 !! T "charset" with
              | Some (c :: cs') => c :: cs'
              | _ => charset p      (* absent or empty *)
              end in
            let p := Make (headerlist p) (headers p) (file p) (size p)
                       (_buf p) (disposition p) (name p) (filename p)
                       (Some ct) cs (options p) (content_length p)
                       (memfile_limit p) (buffer_size p) in
            match py_int (headers_get hs (T "Content-Length") (T "-1")) with
            | Raise e => (p, Some e)
            | Ok n =>
                (Make (headerlist p) (headers p) (file p) (size p) (_buf p)
                   (disposition p) (name p) (filename p) (content_type p)
                   (charset p) (options p) (Some n)
                   (memfile_limit p) (buffer_size p), None)
            end
        end
    end.

(** [write_header(line, nl)] *)
Definition write_header (p : t) (line nl : bytes) : t * option exn :=
  match decode (charset p) line with
  | Raise e => (p, Some e)
  | Ok line =>
  if is_empty nl then (p, Some (MultipartError UnexpectedEndOfLine))
  else if is_empty (strip line) then finish_header p
  else
    match line with
    | [] => (p, Some IndexError)
    | c :: _ =>
        if contains_ch c [SPACE; TAB] && negb (is_empty (headerlist p))
        then
          match last (headerlist p) with
          | Some (name, value) =>
              (set_headerlist p
                 (removelast (headerlist p)
                    ++ [(name, value ++ strip line)]),
               None)
          | None => (p, Some IndexError)
          end
        else if negb (contains_ch ":"%char line)
        then (p, Some (MultipartError NoColon))
        else
          match split1 ":"%char line with
          | (name, Some value) =>
              (set_headerlist p
                 (headerlist p ++ [(strip name, strip value)]),
               None)
          | (_, None) => (p, Some ValueError)
          end
    end
  end.

(** [write_body(line, nl)] *)
Definition write_body (p : t) (line nl : bytes) : t * option exn :=
  if is_empty line && is_empty nl then (p, None)
  else
    let sz := size p + (zlen line + zlen (_buf p)) in
    match file p with
    | NoFile => (set_body p NoFile sz (_buf p), Some AttributeError)
    | (BytesIO f | TemporaryFile f) as old =>
        let written := sink_map (fun f => file_write f (_buf p ++ line)) old in
        let p := set_body p written sz nl in
        match content_length p with
        | None => (p, Some AttributeError)
        | Some clen =>
            if (clen >? 0) && (size p >? clen)
            then (p, Some (MultipartError BodyExceedsLength))
            else if (size p >? memfile_limit p) && is_buffered p
            then
              match file p with
              | BytesIO old =>
                  let old := file_seek old 0 in
                  let '(_, new, _) :=
                    copy_file old new_file (size p) (buffer_size p) in
                  (set_file p (TemporaryFile new), None)
              | _ => (p, None)
              end
            else (p, None)
        end
    end.

(** [feed(line, nl)] *)
Definition feed (p : t) (line nl : bytes) : t * option exn :=
  match file p with
  | NoFile => write_header p line nl
  | _ => write_body p line nl
  end.

(** What a [read()] of the whole file does: it returns the bytes from the
    position on, or fails and leaves the position anywhere. *)
Inductive io := ReadOk | ReadFails (pos_after : nat).

Definition read_all (o : io) (f : fileobj) : result bytes * fileobj :=
  match o with
  | ReadOk => let '(b, f) := file_read f (-1) in (Ok b, f)
  | ReadFails pos => (Raise IOError, file_seek f pos)
  end.

(** The property [raw]: position kept, file read from the start, position
    put back in the [finally] clause. *)
Definition raw_file (o : io) (f : fileobj) : result bytes * fileobj :=
  let pos := f_pos f in
  let f := file_seek f 0 in
  let '(val, f) := read_all o f in
  (val, file_seek f pos).

Definition raw (o : io) (p : t) : result bytes * t :=
  match file p with
  | NoFile => (Raise AttributeError, p)
  | BytesIO f =>
      let '(val, f) := raw_file o f in (val, set_file p (BytesIO f))
  | TemporaryFile f =>
      let '(val, f) := raw_file o f in (val, set_file p (TemporaryFile f))
  end.

(** [part.file.seek(0)], as the parser seals a part. *)
Definition seal (p : t) : result t :=
  match file p with
  | NoFile => Raise AttributeError
  | s => Ok (set_file p (sink_map (fun f => file_seek f 0) s))
  end.

End MultipartPart.

(** ** MultipartParser *)

(** [stream.read(n)] of the byte source: up to [n] of the bytes left, all
    of them when [n] is negative. *)
Definition stream_read (n : Z) (s : bytes) : bytes * bytes :=
  if n <? 0 then (s, []) else (take (Z.to_nat n) s, drop (Z.to_nat n) s).

(** [s.splitlines(True)] on bytes: lines end after a line feed, a carriage
    return, or the two in this order, and keep their ending. *)
Fixpoint splitlines (s : bytes) : list bytes :=
  match s with
  | [] => []
  | c :: s' =>
      if ch_eqb c LF then [c] :: splitlines s'
      else if ch_eqb c CR then
        match s' with
        | d :: s'' =>
            if ch_eqb d LF then [c; d] :: splitlines s''
            else [c] :: splitlines s'
        | [] => [[c]]
        end
      else
        match splitlines s' with
        | [] => [[c]]
        | l :: ls => (c :: l) :: ls
        end
  end.

Definition _bcrnl : bytes := [CR; LF].
Definition _bcr : bytes := slice _bcrnl None (Some 1).
Definition _bnl : bytes := slice _bcrnl (Some 1) None.
Definition _bempty : bytes := slice _bcrnl None (Some 0).

(** The events of a generator run. *)
Inductive line_event :=
| LRead (data : bytes)          (* the result of a [read] of the stream *)
| LLine (line nl : bytes)       (* [yield line, nl] *)
| LRaise (e : exn).

Module MultipartParser.

Inductive event :=
| Read (data : bytes)
| Yield (part : MultipartPart.t)
| Raised (e : exn).

Record t := Make {
  stream : bytes;                 (* what is left of the byte source *)
  boundary : bytes;
  content_length : Z;
  disk_limit : Z;
  memfile_limit : Z;
  mem_limit : Z;
  buffer_size : Z;
  charset : text;
  _done : list MultipartPart.t;
  _part_iter : option (list event)   (* the generator, once created *)
}.

(** [MultipartParser(stream, boundary, content_length, disk_limit,
    mem_limit, memfile_limit, buffer_size, charset)] *)
Definition __init__ (stream boundary : bytes)
    (content_length disk_limit mem_limit memfile_limit buffer_size : Z)
    (charset : text) : result t :=
  let mem_limit := Z.min mem_limit disk_limit in
  let buffer_size := Z.min buffer_size mem_limit in
  if buffer_size - 6 <? zlen boundary
  then Raise (MultipartError BoundaryDoesNotFit)
  else Ok (Make stream boundary content_length disk_limit memfile_limit
             mem_limit buffer_size charset [] None).

(** The constructor with its default arguments. *)
Definition init_default (stream boundary : bytes) : result t :=
  __init__ stream boundary (-1) (2 ^ 30) (2 ^ 20) (2 ^ 18) (2 ^ 16)
  (T "latin1").

(** *** [_lineiter] *)

(** The first line of a chunk is cut when it is longer than the buffer. *)
Definition split_first (buffer_size : Z) (lines : list bytes)
  : result (list bytes) :=
  rbind (index lines 0) (fun first =>
    let len_first_line := zlen first in
    if len_first_line >? buffer_size then
      let splitpos :=
        if (len_first_line =? buffer_size + 1) && endswith first _bcrnl
        then buffer_size - 1
        else buffer_size in
      Ok (slice first None (Some splitpos)
            :: slice first (Some splitpos) None
            :: slice lines (Some 1) None)
    else Ok lines).

(** The [yield] of one line: its content and its ending. *)
Definition emit (line : bytes) : bytes * bytes :=
  if endswith line _bcrnl then (slice line None (Some (-2)), _bcrnl)
  else if endswith line _bnl then (slice line None (Some (-1)), _bnl)
  else if endswith line _bcr then (slice line None (Some (-1)), _bcr)
  else (line, _bempty).

(** One round of the [while] loop after the [read]: the lines to yield
    and the new buffer. *)
Definition chunk (buffer_size : Z) (buffer data : bytes)
  : result (list (bytes * bytes) * bytes) :=
  rbind (split_first buffer_size (splitlines (buffer ++ data)))
    (fun lines =>
       if negb (is_empty data) then
         rbind (index lines (-1)) (fun final =>
           Ok (map emit (slice lines None (Some (-1))), final))
       else Ok (map emit lines, buffer)).

(** The loop of [_lineiter].  A round that does not end the loop takes at
    least one byte of the stream, so [fuel] above the length of the
    stream is never used up. *)
Fixpoint lineiter_loop (fuel : nat) (buffer_size : Z) (stream : bytes)
    (maxread : Z) (buffer : bytes) : list line_event :=
  match fuel with
  | O => []
  | S fuel' =>
      let '(data, stream) :=
        stream_read
          (if maxread <? 0 then buffer_size else Z.min buffer_size maxread)
          stream in
      let maxread := maxread - zlen data in
      LRead data ::
        match chunk buffer_size buffer data with
        | Raise e => [LRaise e]
        | Ok (lines, buffer) =>
            map (fun l => LLine (fst l) (snd l)) lines
              ++ (if is_empty data then []
                  else lineiter_loop fuel' buffer_size stream maxread buffer)
        end
  end.

Definition _lineiter (self : t) : list line_event :=
  lineiter_loop (S (length (stream self))) (buffer_size self)
    (stream self) (content_length self) _bempty.

(** *** [_iterparse] *)

Definition separator (self : t) : bytes := T "--" ++ boundary self.
Definition terminator (self : t) : bytes :=
  T "--" ++ boundary self ++ T "--".

Definition new_part (self : t) : MultipartPart.t :=
  MultipartPart.__init__ (buffer_size self) (memfile_limit self) (charset self).

(** The local variables of the main loop. *)
Record locals := Locals {
  mem_used : Z;
  disk_used : Z;
  is_tail : bool;
  part : MultipartPart.t;
  line : bytes
}.

(** The main loop, [for line, nl in lines], and the check after it. *)
Fixpoint iterparse_loop (self : t) (v : locals) (lines : list line_event)
  : list event :=
  match lines with
  | [] =>
      if negb (text_eqb (line v) (terminator self))
      then [Raised (MultipartError UnexpectedEndOfStream)]
      else []
  | LRead data :: lines => Read data :: iterparse_loop self v lines
  | LRaise e :: _ => [Raised e]
  | LLine line nl :: lines =>
      if text_eqb line (terminator self) && negb (is_tail v) then
        match MultipartPart.seal (part v) with
        | Raise e => [Raised e]
        | Ok p => [Yield p]      (* [break]; the last line is the terminator *)
        end
      else if text_eqb line (separator self) && negb (is_tail v) then
        let '(mem, disk) :=
          if MultipartPart.is_buffered (part v)
          then (mem_used v + MultipartPart.size (part v), disk_used v)
          else (mem_used v, disk_used v + MultipartPart.size (part v)) in
        match MultipartPart.seal (part v) with
        | Raise e => [Raised e]
        | Ok p =>
            Yield p ::
              iterparse_loop self
                (Locals mem disk (is_tail v) (new_part self) line) lines
        end
      else
        let tail := is_empty nl in
        match MultipartPart.feed (part v) line nl with
        | (_, Some e) => [Raised e]
        | (p, None) =>
            if MultipartPart.is_buffered p then
              if MultipartPart.size p + mem_used v >? mem_limit self
              then [Raised (MultipartError MemoryLimitReached)]
              else iterparse_loop self
                     (Locals (mem_used v) (disk_used v) tail p line) lines
            else
              if MultipartPart.size p + disk_used v >? disk_limit self
              then [Raised (MultipartError DiskLimitReached)]
              else iterparse_loop self
                     (Locals (mem_used v) (disk_used v) tail p line) lines
        end
  end.

(** The first loop, which passes over the blank lines, and the test of
    the first boundary. *)
Fixpoint iterparse_start (self : t) (line : bytes)
    (lines : list line_event) : list event :=
  let first_boundary (line : bytes) (lines : list line_event) :=
    if negb (text_eqb line (separator self))
    then [Raised (MultipartError StreamDoesNotStart)]
    else iterparse_loop self
           (Locals 0 0 false (new_part self) line) lines in
  match lines with
  | [] => first_boundary line []
  | LRead data :: lines => Read data :: iterparse_start self line lines
  | LRaise e :: _ => [Raised e]
  | LLine line nl :: lines =>
      if negb (is_empty line) then first_boundary line lines
      else iterparse_start self line lines
  end.

Definition _iterparse (self : t) : list event :=
  iterparse_start self [] (_lineiter self).

(** *** [__iter__], run by a consumer that takes everything *)

Definition set_iter (self : t) (stream : bytes)
    (done : list MultipartPart.t) (it : option (list event)) : t :=
  Make stream (boundary self) (content_length self) (disk_limit self)
    (memfile_limit self) (mem_limit self) (buffer_size self)
    (charset self) done it.

(** What a consumer that takes everything sees of one iteration: the
    parts yielded, the results of the [read] calls made on the stream,
    the exception that cut the iteration short if any, and the parser
    afterwards. *)
Record run := Run {
  yielded : list MultipartPart.t;
  reads : list bytes;
  raised : option exn;
  after : t
}.

(** The second loop of [__iter__]: every part the generator yields is
    appended to [_done] and yielded.  A generator that has raised is
    finished. *)
Fixpoint drain (self : t) (events : list event) : run :=
  match events with
  | [] => Run [] [] None (set_iter self (stream self) (_done self) (Some []))
  | Read data :: events =>
      let r :=
        drain (set_iter self (drop (length data) (stream self))
                 (_done self) (Some events)) events in
      Run (yielded r) (data :: reads r) (raised r) (after r)
  | Yield p :: events =>
      let r :=
        drain (set_iter self (stream self) (_done self ++ [p])
                 (Some events)) events in
      Run (p :: yielded r) (reads r) (raised r) (after r)
  | Raised e :: _ =>
      Run [] [] (Some e)
        (set_iter self (stream self) (_done self) (Some []))
  end.

(** [for part in self: ...] to the end. *)
Definition iterate (self : t) : run :=
  let it :=
    match _part_iter self with
    | Some it => it
    | None => _iterparse self
    end in
  let replayed := _done self in
  let r := drain self it in
  Run (replayed ++ yielded r) (reads r) (raised r) (after r).

(** [parts()] *)
Definition parts (self : t) : result (list MultipartPart.t) :=
  let r := iterate self in
  match raised r with
  | None => Ok (yielded r)
  | Some e => Raise e
  end.

End MultipartParser.

(** ** The streams of the scenarios *)

Definition CRLF : bytes := [CR; LF].

(** The stream of the one-part scenario, boundary [B]. *)
Definition scenario_stream : bytes :=
  T "--B" ++ CRLF
  ++ T "Content-Disposition: form-data; name=" ++ [DQUOTE] ++ T "a"
  ++ [DQUOTE] ++ CRLF
  ++ CRLF
  ++ T "hello" ++ CRLF
  ++ T "--B--" ++ CRLF.

(** A stream cut short: one part whose body is a line of 24 bytes followed,
    without a line ending, by the five bytes of the terminator token, and
    then the end of the data. *)
Definition cut_stream : bytes :=
  T "--B" ++ CRLF
  ++ T "Content-Disposition: x" ++ CRLF
  ++ CRLF
  ++ replicate 24 "x"%char ++ T "--B--".

(** ** Notions used to state the properties of a part *)

(** Feeding the lines [ls] to a part one after the other, as the main loop
    of the parser does, up to the first exception. *)
Fixpoint feed_all (p : MultipartPart.t) (ls : list (bytes * bytes))
  : MultipartPart.t * option exn :=
  match ls with
  | [] => (p, None)
  | (line, nl) :: ls' =>
      match MultipartPart.feed p line nl with
      | (p', None) => feed_all p' ls'
      | (p', Some e) => (p', Some e)
      end
  end.

(** The bytes of the body sink. *)
Definition body_data (p : MultipartPart.t) : bytes :=
  match MultipartPart.sink_file (MultipartPart.file p) with
  | Some f => f_data f
  | None => []
  end.

Definition on_disk (p : MultipartPart.t) : Prop :=
  exists f, MultipartPart.file p = MultipartPart.TemporaryFile f.

Definition in_memory (p : MultipartPart.t) : Prop :=
  exists f, MultipartPart.file p = MultipartPart.BytesIO f.

(** A part in its body phase: it has a sink, positioned at its end, and
    [size] counts the bytes of the sink; [Content-Length] has been read. *)
Definition in_body (p : MultipartPart.t) : Prop :=
  exists f, MultipartPart.sink_file (MultipartPart.file p) = Some f
            /\ f_pos f = length (f_data f)
            /\ MultipartPart.size p = zlen (f_data f)
            /\ MultipartPart.content_length p <> None.

(** What the calls [write_body(line, nl)] for the lines [ls] hand to the
    sink, [buf] being the line ending held back by the call before. *)
Fixpoint body_written (buf : bytes) (ls : list (bytes * bytes)) : bytes :=
  match ls with
  | [] => []
  | (line, nl) :: ls' =>
      if is_empty line && is_empty nl then body_written buf ls'
      else buf ++ line ++ body_written nl ls'
  end.

(** A part after the headers [Content-Disposition: form-data] and
    [Content-Length: 12], with a buffer of 16 bytes and a threshold of 8
    bytes for the body in memory. *)
Definition demo_part : MultipartPart.t :=
  fst (MultipartPart.finish_header
         (MultipartPart.set_headerlist
            (MultipartPart.__init__ 16 8 (T "latin1"))
            [(T "Content-Disposition", T "form-data");
             (T "Content-Length", T "12")])).

(** A parser, as the constructor leaves it for the limits
    [disk_limit = 100], [mem_limit = 10], [memfile_limit = 8] and a buffer
    of 16 bytes (which the constructor lowers to [mem_limit]), and the
    locals of its main loop when 8 bytes of earlier parts are in memory
    and the current part is [demo_part]. *)
Definition demo_parser : MultipartParser.t :=
  MultipartParser.Make [] (T "B") (-1) 100 8 10 10 (T "latin1") [] None.

Definition demo_locals : MultipartParser.locals :=
  MultipartParser.Locals 8 0 false demo_part (T "--B").

(** The stream cut short, read with a buffer of 24 bytes. *)
Definition cut_parser : result MultipartParser.t :=
  MultipartParser.__init__ cut_stream (T "B") (-1) (2 ^ 30) (2 ^ 20) (2 ^ 18) 24
    (T "latin1").

(** A stream whose single part has body lines of ten bytes each, read by a
    parser with [mem_limit = 30] (and so a buffer of 30 bytes). *)
Definition limit_stream : bytes :=
  T "--B" ++ CRLF
  ++ T "Content-Disposition: x" ++ CRLF
  ++ CRLF
  ++ T "aaaaaaaaaa" ++ CRLF
  ++ T "bbbbbbbbbb" ++ CRLF
  ++ T "cccccccccc" ++ CRLF
  ++ T "dddddddddd" ++ CRLF
  ++ T "eeeeeeeeee" ++ CRLF
  ++ T "ffffffffff" ++ CRLF
  ++ T "--B--" ++ CRLF.

Definition limit_parser : result MultipartParser.t :=
  MultipartParser.__init__ limit_stream (T "B") (-1) (2 ^ 30) 30 (2 ^ 18)
    (2 ^ 16) (T "latin1").

(** A part in its body phase, spelt out: [mem] tells whether the sink is
    the buffer in memory, [d] is what the sink holds. *)
Definition body_part (mem : bool) (d : bytes) (p : MultipartPart.t)
  : MultipartPart.t :=
  MultipartPart.set_body p
    (if mem then MultipartPart.BytesIO (File d (length d))
     else MultipartPart.TemporaryFile (File d (length d)))
    (zlen d) (MultipartPart._buf p).

(** ** Notions used to state the properties of the line reader *)

(** The bytes the reads of a run returned, in order. *)
Fixpoint read_bytes (events : list line_event) : bytes :=
  match events with
  | [] => []
  | LRead data :: events => data ++ read_bytes events
  | _ :: events => read_bytes events
  end.

(** The lines a run yielded, each with its ending, put end to end. *)
Fixpoint line_bytes (events : list line_event) : bytes :=
  match events with
  | [] => []
  | LLine line nl :: events => line ++ nl ++ line_bytes events
  | _ :: events => line_bytes events
  end.

Definition raises (events : list line_event) : Prop :=
  exists e, LRaise e ∈ events.

(** A line ending, or none. *)
Definition is_eol (term : bytes) : Prop :=
  term = [] \/ term = [LF] \/ term = [CR] \/ term = [CR; LF].

(** A physical line: a body free of line-ending bytes, then at most one
    line ending. *)
Definition line_shaped (l : bytes) : Prop :=
  exists body term,
    l = body ++ term /\ (CR ∉ body) /\ (LF ∉ body) /\ is_eol term.

(** A parser over three lines, the last one longer than its buffer of
    eight bytes, which may read sixteen of their seventeen bytes. *)
Definition lines_parser : MultipartParser.t :=
  MultipartParser.Make (T "ab" ++ CRLF ++ [LF] ++ T "cdefghijklmn") (T "B")
    16 100 8 10 8 (T "latin1") [] None.

(** ** Notions used to state the properties of the parser *)

(** The parts a run of the generator yields, up to its first exception. *)
Fixpoint yields (events : list MultipartParser.event)
  : list MultipartPart.t :=
  match events with
  | [] => []
  | MultipartParser.Read _ :: events => yields events
  | MultipartParser.Yield p :: events => p :: yields events
  | MultipartParser.Raised _ :: _ => []
  end.

(** The sizes of the parts held in memory, added up, and the sizes of the
    others. *)
Definition mem_total (ps : list MultipartPart.t) : Z :=
  foldr (fun p acc =>
           (if MultipartPart.is_buffered p then MultipartPart.size p else 0)
           + acc) 0 ps.

Definition disk_total (ps : list MultipartPart.t) : Z :=
  foldr (fun p acc =>
           (if MultipartPart.is_buffered p then 0 else MultipartPart.size p)
           + acc) 0 ps.

(** A part as the parser hands it out: its headers are finished, its sink
    stands at its start and holds as many bytes as [size] counts, and it
    is in memory exactly when it is no larger than [memfile_limit] (for a
    limit that is not negative). *)
Definition sealed (p : MultipartPart.t) : Prop :=
  exists f,
    MultipartPart.sink_file (MultipartPart.file p) = Some f
    /\ f_pos f = 0%nat
    /\ MultipartPart.size p = zlen (f_data f)
    /\ MultipartPart.disposition p <> None
    /\ MultipartPart.content_length p <> None
    /\ (0 <= MultipartPart.memfile_limit p ->
        (MultipartPart.is_buffered p = true
         <-> MultipartPart.size p <= MultipartPart.memfile_limit p)).

(** A part the main loop is filling: in its headers, with no sink and no
    byte counted, or in its body. *)
Definition filling (buffer_size memfile_limit : Z) (p : MultipartPart.t)
  : Prop :=
  MultipartPart.buffer_size p = buffer_size
  /\ MultipartPart.memfile_limit p = memfile_limit
  /\ ((MultipartPart.file p = MultipartPart.NoFile
       /\ MultipartPart.size p = 0)
      \/ (in_body p
          /\ MultipartPart.disposition p <> None
          /\ (0 <= memfile_limit ->
              (MultipartPart.is_buffered p = true
               <-> MultipartPart.size p <= memfile_limit)))).

(** The parser of the one-part scenario, as the constructor makes it with
    its default arguments. *)
Definition scenario_parser : MultipartParser.t :=
  MultipartParser.Make scenario_stream (T "B") (-1) (2 ^ 30) (2 ^ 18)
    (2 ^ 20) (2 ^ 16) (T "latin1") [] None.

(** A parser of the one-part scenario whose buffer of 42 bytes is the
    length of the longest line of the stream, its ending included: it
    reads the 63 bytes of the stream in two pieces, the first of which
    ends inside the second line. *)
Definition fitting_parser : MultipartParser.t :=
  MultipartParser.Make scenario_stream (T "B") (-1) (2 ^ 30) (2 ^ 18)
    (2 ^ 20) 42 (T "latin1") [] None.

(** The parser of [limit_stream], as the constructor makes it. *)
Definition limit_self : MultipartParser.t :=
  MultipartParser.Make limit_stream (T "B") (-1) (2 ^ 30) (2 ^ 18) 30 30
    (T "latin1") [] None.

(** A stream of two whole parts, with bodies of 10 and of 25 bytes, and
    the headers of a third, after which the data end; and its parser as
    the constructor makes it for [mem_limit = 60] and
    [memfile_limit = 20], so that the second body goes to disk. *)
Definition spill_stream : bytes :=
  T "--B" ++ CRLF
  ++ T "Content-Disposition: x" ++ CRLF
  ++ CRLF
  ++ T "aaaaaaaaaa" ++ CRLF
  ++ T "--B" ++ CRLF
  ++ T "Content-Disposition: x" ++ CRLF
  ++ CRLF
  ++ T "bbbbbbbbbbbbbbbbbbbbbbbbb" ++ CRLF
  ++ T "--B" ++ CRLF
  ++ T "Content-Disposition: x" ++ CRLF
  ++ CRLF.

Definition spill_self : MultipartParser.t :=
  MultipartParser.Make spill_stream (T "B") (-1) (2 ^ 30) 20 60 60
    (T "latin1") [] None.

(** The results of the [read] calls of a run of the generator, up to its
    first exception. *)
Fixpoint reads_of (events : list MultipartParser.event) : list bytes :=
  match events with
  | [] => []
  | MultipartParser.Read data :: events => data :: reads_of events
  | MultipartParser.Yield _ :: events => reads_of events
  | MultipartParser.Raised _ :: _ => []
  end.

(** ** [MultipartParser.get] and [MultipartParser.get_all] *)

Module MultipartParserLookup.

(** [name == part.name]; the name of a part is [None] or a string. *)
Definition name_eqb (name : option text) (p : MultipartPart.t) : bool :=
  match name, MultipartPart.name p with
  | Some x, Some y => text_eqb x y
  | None, None => true
  | _, _ => false
  end.

(** The loop of [get] over the generator: every part that comes is
    appended to [_done]; the loop returns at the first part of that name
    and leaves the generator where it stands. *)
Fixpoint find_part (name : option text) (self : MultipartParser.t)
    (events : list MultipartParser.event)
  : result (option MultipartPart.t) * MultipartParser.t :=
  match events with
  | [] =>
      (Ok None,
       MultipartParser.set_iter self (MultipartParser.stream self)
         (MultipartParser._done self) (Some []))
  | MultipartParser.Read data :: events =>
      find_part name
        (MultipartParser.set_iter self
           (drop (length data) (MultipartParser.stream self))
           (MultipartParser._done self) (Some events)) events
  | MultipartParser.Yield p :: events =>
      let self :=
        MultipartParser.set_iter self (MultipartParser.stream self)
          (MultipartParser._done self ++ [p]) (Some events) in
      if name_eqb name p then (Ok (Some p), self)
      else find_part name self events
  | MultipartParser.Raised e :: _ =>
      (Raise e,
       MultipartParser.set_iter self (MultipartParser.stream self)
         (MultipartParser._done self) (Some []))
  end.

(** [get(name, default)]: the part found, or [None] where the default is
    returned.  The parts of [_done] come first. *)
Definition get (self : MultipartParser.t) (name : option text)
  : result (option MultipartPart.t) * MultipartParser.t :=
  let it :=
    match MultipartParser._part_iter self with
    | Some it => it
    | None => MultipartParser._iterparse self
    end in
  let self :=
    MultipartParser.set_iter self (MultipartParser.stream self)
      (MultipartParser._done self) (Some it) in
  match List.find (name_eqb name) (MultipartParser._done self) with
  | Some p => (Ok (Some p), self)
  | None => find_part name self it
  end.

(** [get_all(name)] *)
Definition get_all (self : MultipartParser.t) (name : option text)
  : result (list MultipartPart.t) * MultipartParser.t :=
  let r := MultipartParser.iterate self in
  (match MultipartParser.raised r with
   | None => Ok (List.filter (name_eqb name) (MultipartParser.yielded r))
   | Some e => Raise e
   end,
   MultipartParser.after r).

End MultipartParserLookup.

(** ** [MultipartPart.save_as] *)

Module MultipartPartSave.

(** [save_as(path)]: the result, the file left at [path], and the part.
    The file is opened, and so made empty, before the sink is looked at;
    [copy_file] runs with its default arguments, no limit and a buffer of
    [2*16] bytes. *)
Definition save_as (p : MultipartPart.t)
  : result Z * fileobj * MultipartPart.t :=
  let fp := new_file in
  match MultipartPart.file p with
  | MultipartPart.NoFile => (Raise AttributeError, fp, p)
  | (MultipartPart.BytesIO f | MultipartPart.TemporaryFile f) as s =>
      let pos := f_pos f in
      let '(f', fp, size) := copy_file (file_seek f 0) fp (-1) (2 * 16) in
      (Ok size, fp,
       MultipartPart.set_file p
         (MultipartPart.sink_map (fun _ => file_seek f' pos) s))
  end.

End MultipartPartSave.

(** ** [header_quote] *)

(** [_re_special = re.compile('[%s]' % _special)] *)
Definition _re_special : regex := Chr is_special.

(** [r.search(s)]: the groups of the leftmost match, if there is one. *)
Definition search (r : regex) (s : text) : option (list (nat * text)) :=
  head (finditer r s).

(** [header_quote(val)] *)
Definition header_quote (val : text) : text :=
  match search _re_special val with
  | None => val
  | Some _ =>
      [DQUOTE]
        ++ replace [DQUOTE] [BSLASH; DQUOTE]
             (replace [BSLASH] [BSLASH; BSLASH] val)
        ++ [DQUOTE]
  end.

(** What the two replacements of [header_quote] make of one character. *)
Definition escaped (c : ascii) : text :=
  if ch_eqb c BSLASH then [BSLASH; BSLASH]
  else if ch_eqb c DQUOTE then [BSLASH; DQUOTE]
  else [c].

(** ** MultiDict

    A dict from keys to the lists of their values.  Keys are of any
    hashable type, values of any type. *)

Module MultiDict.

(** What a method raises: [KeyError], or an exception of the list. *)
Inductive error :=
| KeyError
| Exn (e : exn).

Inductive outcome (A : Type) :=
| Returns (a : A)
| Raises (e : error).
Arguments Returns {A} a.
Arguments Raises {A} e.

(** [self.dict] *)
Abbreviation t K V := (gmap K (list V)) (only parsing).

Section Methods.

Context {K : Type} `{Countable K} {V : Type}.

(** The argument [default] of [get]: the class [KeyError] itself, or a
    value to return. *)
Inductive default_arg :=
| RaiseKeyError
| Default (v : V).

(** [append(key, value)]: [self.dict.setdefault(key, []).append(value)] *)
Definition append (d : t K V) (key : K) (value : V) : t K V :=
  <[key := match d !! key with Some l => l | None => [] end ++ [value]]> d.

(** [MultiDict(init)] for a dict [init]; [MultiDict()] is [__init__ ∅]. *)
Definition __init__ (init : gmap K V) : t K V :=
  map_fold (fun k v (d : t K V) => append d k v) (∅ : t K V) init.

Definition __len__ (d : t K V) : nat := size d.

Definition __contains__ (d : t K V) (key : K) : bool :=
  bool_decide (is_Some (d !! key)).

(** [del self.dict[key]] *)
Definition __delitem__ (d : t K V) (key : K) : outcome (t K V) :=
  if __contains__ d key then Returns (delete key d) else Raises KeyError.

Definition __setitem__ (d : t K V) (key : K) (value : V) : t K V :=
  append d key value.

(** [replace(key, value)] *)
Definition replace (d : t K V) (key : K) (value : V) : t K V :=
  <[key := [value]]> d.

(** [getall(key)]: [self.dict.get(key) or []] *)
Definition getall (d : t K V) (key : K) : list V :=
  match d !! key with
  | Some (v :: l) => v :: l
  | _ => []
  end.

Definition lift (r : result V) : outcome V :=
  match r with
  | Ok v => Returns v
  | Raise e => Raises (Exn e)
  end.

(** [get(key, default, index)] *)
Definition get (d : t K V) (key : K) (dflt : default_arg) (i : Z)
  : outcome V :=
  match dflt with
  | Default v =>
      if negb (__contains__ d key) then lift (index [v] i)
      else match d !! key with
           | Some l => lift (index l i)
           | None => Raises KeyError
           end
  | RaiseKeyError =>
      match d !! key with
      | Some l => lift (index l i)
      | None => Raises KeyError
      end
  end.

(** [self[key]]: [self.get(key, KeyError, -1)] *)
Definition __getitem__ (d : t K V) (key : K) : outcome V :=
  get d key RaiseKeyError (-1).

(** The dicts the methods can make. *)
Inductive built : t K V -> Prop :=
| built_init init : built (__init__ init)
| built_append d key value : built d -> built (append d key value)
| built_replace d key value : built d -> built (replace d key value)
| built_delete d key : built d -> built (delete key d).

End Methods.

End MultiDict.

(** The lines a run of the line reader yields, in order. *)
Fixpoint lines_of (events : list line_event) : list (bytes * bytes) :=
  match events with
  | [] => []
  | LLine line nl :: events => (line, nl) :: lines_of events
  | _ :: events => lines_of events
  end.

(** ** Notions used to state the round trip through the encoder *)

(** The characters that are neither a backslash nor a double quote: the
    encoder writes a name between double quotes as it is. *)
Definition plain (c : ascii) : bool :=
  negb (ch_eqb c BSLASH) && negb (ch_eqb c DQUOTE).

(** One option of a header as the encoder writes it: a space, the key,
    an equals sign and the value between double quotes. *)
Definition quoted_option (key value : text) : text :=
  SPACE :: key ++ "="%char :: DQUOTE :: value ++ [DQUOTE].

(** ** The encoder: [Part] and [Multipart]

    Names, file names, bodies and header values are byte strings.  The
    headers of a part are a dict; [items()] gives its entries in the order
    of the dict, which is the order of [map_to_list] here. *)

Module Part.

Definition BOUNDARY : text := T "----------AaB03x".
Definition CRLF : text := [CR; LF].
Definition CONTENT_TYPE : text := T "Content-Type".
Definition CONTENT_DISPOSITION : text := T "Content-Disposition".
Definition DEFAULT_CONTENT_TYPE : text := T "application/octet-stream".

Record t := Make {
  _headers : gmap (list ascii) (list ascii);
  _name : text;
  _filename : option text;
  _body : text
}.

(** [Part(name, filename, body, headers)] *)
Definition __init__ (name : text) (filename : option text) (body : text)
    (headers : gmap (list ascii) (list ascii)) : t :=
  let disposition :=
    match filename with
    | None => T "form-data; name=" ++ [DQUOTE] ++ name ++ [DQUOTE]
    | Some filename =>
        T "form-data; name=" ++ [DQUOTE] ++ name ++ [DQUOTE]
          ++ T "; filename=" ++ [DQUOTE] ++ filename ++ [DQUOTE]
    end in
  Make (<[CONTENT_DISPOSITION := disposition]> headers) name filename body.

(** [get()]: the lines of the part. *)
Definition get (self : t) : list text :=
  [T "--" ++ BOUNDARY]
    ++ map (fun kv => fst kv ++ T ": " ++ snd kv) (map_to_list (_headers self))
    ++ [[]]
    ++ [_body self].

End Part.

Module Multipart.

Record t := Make { parts : list Part.t }.

Definition __init__ : t := Make [].

(** [field(name, value, headers)] *)
Definition field (self : t) (name value : text)
    (headers : gmap (list ascii) (list ascii)) : t :=
  Make (parts self ++ [Part.__init__ name None value headers]).

(** [file(name, filename, value, headers)] *)
Definition file (self : t) (name filename value : text)
    (headers : gmap (list ascii) (list ascii)) : t :=
  Make (parts self ++ [Part.__init__ name (Some filename) value headers]).

(** [sep.join(lines)] *)
Fixpoint join (sep : text) (lines : list text) : text :=
  match lines with
  | [] => []
  | [l] => l
  | l :: lines => l ++ sep ++ join sep lines
  end.

(** [get()]: the content type and the body. *)
Definition get (self : t) : text * text :=
  let all :=
    concat (map Part.get (parts self))
      ++ [T "--" ++ Part.BOUNDARY ++ T "--"; []] in
  (T "multipart/form-data; boundary=" ++ Part.BOUNDARY,
   join Part.CRLF all).

End Multipart.

(** A form to encode: for each part its name, its file name if it is a
    file, and its value.  [add_all] makes the calls of [field] and [file]
    with no further headers. *)
Definition add_part (m : Multipart.t) (f : text * option text * text)
  : Multipart.t :=
  match f with
  | (name, None, value) => Multipart.field m name value ∅
  | (name, Some filename, value) => Multipart.file m name filename value ∅
  end.

Definition add_all (fs : list (text * option text * text)) : Multipart.t :=
  foldl add_part Multipart.__init__ fs.

(** A string the encoder can write between double quotes and on one line:
    no backslash, no double quote, no line break. *)
Definition quotable (s : text) : Prop :=
  Forall (fun c => plain c = true) s /\ (CR ∉ s) /\ (LF ∉ s).

(** The value of the [Content-Disposition] header of a part, the line of
    that header, and the options it declares. *)
Definition disposition_value (name : text) (filename : option text) : text :=
  match filename with
  | None => T "form-data; name=" ++ [DQUOTE] ++ name ++ [DQUOTE]
  | Some filename =>
      T "form-data; name=" ++ [DQUOTE] ++ name ++ [DQUOTE]
        ++ T "; filename=" ++ [DQUOTE] ++ filename ++ [DQUOTE]
  end.

Definition disposition_line (name : text) (filename : option text) : text :=
  Part.CONTENT_DISPOSITION ++ T ": " ++ disposition_value name filename.

Definition disposition_options (name : text) (filename : option text)
  : gmap (list ascii) (list ascii) :=
  match filename with
  | None => {[ T "name" := name ]}
  | Some filename => <[T "filename" := filename]> {[ T "name" := name ]}
  end.

(** What a decoded part says of itself: its name, its file name, the
    bytes of its body. *)
Definition part_summary (p : MultipartPart.t)
  : option text * option text * bytes :=
  (MultipartPart.name p, MultipartPart.filename p, body_data p).

(** The exception that ends a run of the generator, if one does. *)
Fixpoint raise_of (events : list MultipartParser.event) : option exn :=
  match events with
  | [] => None
  | MultipartParser.Raised e :: _ => Some e
  | _ :: events => raise_of events
  end.

(** A form: for each part its name, its file name if it is a file, and
    its value. *)
Abbreviation form := (list (list ascii * option (list ascii) * list ascii))
  (only parsing).

(** The lines of one encoded part after its boundary line, and the lines
    that follow a part: the boundary line and the next part, or the last
    boundary line. *)
Definition part_lines (f : list ascii * option (list ascii) * list ascii)
  : list (bytes * bytes) :=
  [(disposition_line (fst (fst f)) (snd (fst f)), CRLF);
   ([], CRLF);
   (snd f, CRLF)].

Fixpoint tail_lines (separator terminator : bytes) (fs : form)
  : list (bytes * bytes) :=
  match fs with
  | [] => [(terminator, CRLF)]
  | f :: fs =>
      (separator, CRLF) :: part_lines f ++ tail_lines separator terminator fs
  end.

Definition as_events (lines : list (bytes * bytes)) : list line_event :=
  map (fun l => LLine (fst l) (snd l)) lines.

Definition total_size (fs : form) : Z :=
  foldr (fun f acc => zlen (snd f) + acc) 0 fs.

Definition field_summary (f : list ascii * option (list ascii) * list ascii)
  : option text * option text * bytes :=
  (Some (fst (fst f)), snd (fst f), snd f).

(** A part the encoder can write and the decoder read back: its name and
    file name go between double quotes, its value is one line and is not
    a boundary line, and its lines fit the buffer of the decoder. *)
Definition encodable (separator terminator : bytes) (L : Z)
    (f : list ascii * option (list ascii) * list ascii) : Prop :=
  quotable (fst (fst f))
  /\ (forall filename, snd (fst f) = Some filename -> quotable filename)
  /\ (CR ∉ snd f) /\ (LF ∉ snd f)
  /\ snd f <> separator /\ snd f <> terminator
  /\ zlen (disposition_line (fst (fst f)) (snd (fst f))) + 2 <= L
  /\ zlen (snd f) + 2 <= L.

(** The lines of the body of an encoded form. *)
Fixpoint form_lines (separator terminator : bytes) (fs : form)
  : list bytes :=
  match fs with
  | [] => [terminator]
  | f :: fs =>
      separator :: disposition_line (fst (fst f)) (snd (fst f)) :: []
        :: snd f :: form_lines separator terminator fs
  end.

(** The boundary lines of the encoder. *)
Definition encoder_separator : bytes := T "--" ++ Part.BOUNDARY.
Definition encoder_terminator : bytes := T "--" ++ Part.BOUNDARY ++ T "--".

(** A form of two parts, a field and a file. *)
Definition demo_form : form :=
  [(T "a", None, T "hello"); (T "upload", Some (T "x.txt"), T "some data")].

(** The same, as tests. *)
Definition quotable_b (s : text) : bool :=
  forallb plain s && negb (contains_ch CR s) && negb (contains_ch LF s).

Definition encodable_b (separator terminator : bytes) (L : Z)
    (f : list ascii * option (list ascii) * list ascii) : bool :=
  quotable_b (fst (fst f))
  && match snd (fst f) with
     | Some filename => quotable_b filename
     | None => true
     end
  && negb (contains_ch CR (snd f)) && negb (contains_ch LF (snd f))
  && negb (text_eqb (snd f) separator) && negb (text_eqb (snd f) terminator)
  && (zlen (disposition_line (fst (fst f)) (snd (fst f))) + 2 <=? L)
  && (zlen (snd f) + 2 <=? L).

(** The first line of some content among the lines the reader yields. *)
Definition first_content (lines : list (bytes * bytes))
  : option (bytes * bytes) :=
  List.find (fun l => negb (is_empty (fst l))) lines.

(** An option of a header: a space, the key, an equals sign and the value
    as it is written. *)
Definition option_text (key written : text) : text :=
  SPACE :: key ++ "="%char :: written.

(** * Properties *)

(** ** Characters, indices and slices *)

Lemma ch_eqb_eq (a b : ascii) : ch_eqb a b = true <-> a = b.
Proof. apply Ascii.eqb_eq. Qed.

Lemma ch_eqb_refl (a : ascii) : ch_eqb a a = true.
Proof. apply Ascii.eqb_refl. Qed.

Lemma ch_eqb_neq (a b : ascii) : ch_eqb a b = false <-> a <> b.
Proof. apply Ascii.eqb_neq. Qed.

Lemma text_eqb_eq (a b : list ascii) : text_eqb a b = true <-> a = b.
Proof.
  revert b; induction a as [|x a IH]; intros [|y b]; simpl; try easy.
  rewrite andb_true_iff, ch_eqb_eq, IH. split.
  - intros [-> ->]; reflexivity.
  - intros [= -> ->]; auto.
Qed.

Lemma text_eqb_refl (a : list ascii) : text_eqb a a = true.
Proof. apply text_eqb_eq; reflexivity. Qed.

Lemma contains_ch_elem (c : ascii) (s : list ascii) :
  contains_ch c s = true <-> c ∈ s.
Proof.
  unfold contains_ch. rewrite existsb_exists. split.
  - intros (x & Hin & Heq). apply ch_eqb_eq in Heq; subst.
    apply list_elem_of_In; assumption.
  - intros Hin. exists c. split; [apply list_elem_of_In; assumption|].
    apply ch_eqb_refl.
Qed.

Lemma zlen_app {A} (a b : list A) : zlen (a ++ b) = zlen a + zlen b.
Proof. unfold zlen. rewrite length_app. lia. Qed.

Lemma zlen_cons {A} (x : A) (a : list A) : zlen (x :: a) = 1 + zlen a.
Proof. unfold zlen. simpl length. lia. Qed.

Lemma zlen_nonneg {A} (a : list A) : 0 <= zlen a.
Proof. unfold zlen. lia. Qed.

(** Decides the integer comparisons of the goal. *)
Ltac zbool :=
  repeat match goal with
  | |- context [?a <? ?b] =>
      let E := fresh "E" in
      destruct (Z.ltb_spec a b) as [E|E]; try lia
  | |- context [?a <=? ?b] =>
      let E := fresh "E" in
      destruct (Z.leb_spec a b) as [E|E]; try lia
  end.

Lemma index_head {A} (x : A) (s : list A) : index (x :: s) 0 = Ok x.
Proof.
  unfold index, zlen. simpl length. zbool. reflexivity.
Qed.

Lemma index_last {A} (s : list A) (x : A) : index (s ++ [x]) (-1) = Ok x.
Proof.
  unfold index, zlen. rewrite length_app. simpl length. zbool.
  cbn [orb].
  replace (Z.to_nat (-1 + Z.of_nat (length s + 1)))
    with (length s + 0)%nat by lia.
  rewrite lookup_app_r by lia.
  replace (length s + 0 - length s)%nat with 0%nat by lia. reflexivity.
Qed.

Lemma index_m1_last {A} (l : list A) (x : A) :
  last l = Some x -> index l (-1) = Ok x.
Proof.
  intros H. destruct (last_Some l x) as [Hl _].
  destruct (Hl H) as [l' ->]. apply index_last.
Qed.

Lemma slice_strip_ends {A} (x y : A) (s : list A) :
  slice (x :: s ++ [y]) (Some 1) (Some (-1)) = s.
Proof.
  unfold slice, clamp_index, zlen. cbn [bound].
  simpl length. rewrite length_app. simpl length. zbool.
  rewrite Z.min_l by lia. rewrite Z.max_l by lia.
  replace (Z.to_nat 1) with 1%nat by reflexivity. cbn [drop].
  replace (Z.to_nat _) with (length s) by lia.
  rewrite drop_0, take_app_length. reflexivity.
Qed.

Lemma slice_0_2_inv {A} (s : list A) (x y : A) :
  slice s None (Some 2) = [x; y] -> exists rest, s = x :: y :: rest.
Proof.
  destruct s as [|a [|b s]]; try (vm_compute; discriminate).
  unfold slice, clamp_index, zlen. cbn [bound]. simpl length. zbool.
  rewrite Z.min_l, Z.min_l by lia. simpl. intros [= -> ->]. eauto.
Qed.

Lemma slice_1_3_inv {A} (s : list A) (x y : A) :
  slice s (Some 1) (Some 3) = [x; y] -> exists a rest, s = a :: x :: y :: rest.
Proof.
  destruct s as [|a [|b [|d s]]]; try (vm_compute; discriminate).
  unfold slice, clamp_index, zlen. cbn [bound]. simpl length. zbool.
  rewrite Z.min_l, Z.min_l by lia. simpl. intros [= -> ->]. eauto.
Qed.

(** ** [split] and [replace] *)

Lemma split_ch_nonempty (c : ascii) (s : text) : split_ch c s <> [].
Proof.
  destruct s as [|x s]; simpl; [easy|].
  destruct (ch_eqb x c); [easy|]. destruct (split_ch c s); easy.
Qed.

(** Splitting after the last separator: the last piece is what follows. *)
Lemma split_ch_app (c : ascii) (pre r : text) :
  c ∉ r -> split_ch c (pre ++ c :: r) = split_ch c pre ++ [r].
Proof.
  intros Hr.
  assert (Hone : forall t, c ∉ t -> split_ch c t = [t]).
  { induction t as [|y t IHt]; intros Ht; [reflexivity|].
    apply not_elem_of_cons in Ht as [Hy Ht]. simpl.
    destruct (ch_eqb y c) eqn:Ey; [apply ch_eqb_eq in Ey; congruence|].
    rewrite (IHt Ht). reflexivity. }
  induction pre as [|x pre IH]; simpl.
  - rewrite ch_eqb_refl, (Hone r Hr). reflexivity.
  - rewrite IH. destruct (ch_eqb x c); [reflexivity|].
    pose proof (split_ch_nonempty c pre) as Hne.
    destruct (split_ch c pre) as [|p ps]; [easy|]. reflexivity.
Qed.

Lemma startswith_head (s old : text) (o : ascii) :
  startswith s (o :: old) = true -> exists s', s = o :: s'.
Proof.
  destruct s as [|y s]; simpl; [discriminate|].
  intros H. apply andb_true_iff in H as [H _].
  apply ch_eqb_eq in H; subst. eauto.
Qed.

(** Replacing a pattern whose first character does not occur changes
    nothing. *)
Lemma replace_absent (o : ascii) (old new s : text) :
  o ∉ s -> replace (o :: old) new s = s.
Proof.
  unfold replace. induction s as [|x s IH]; intros Hs; [reflexivity|].
  apply not_elem_of_cons in Hs as [Hx Hs]. cbn [replace_from].
  destruct (startswith (x :: s) (o :: old)) eqn:E.
  - apply startswith_head in E as [s' [= -> _]]. congruence.
  - rewrite (IH Hs). reflexivity.
Qed.

(** ** C10: [header_unquote] *)

(** C10.  [header_unquote] never looks at its [filename] argument: its
    result is the same for both values of the flag, whatever the value.
    In particular, for a value in double quotes whose content [c] looks
    like a Windows path ([c[1:3]] is a colon and a backslash, or [c[:2]] is
    two backslashes) the result is the component of [c] after its last
    backslash, whether the option key was [filename] or not. *)
Theorem header_unquote_windows_path (c : text) :
  (forall (val : text) (filename filename' : bool),
     header_unquote val filename = header_unquote val filename')
  /\ (slice c (Some 1) (Some 3) = [":"%char; BSLASH]
      \/ slice c None (Some 2) = [BSLASH; BSLASH] ->
      exists dir name,
        c = dir ++ BSLASH :: name /\ (BSLASH ∉ name) /\
        forall filename : bool,
          header_unquote (DQUOTE :: (c ++ [DQUOTE])) filename = Ok name).
Proof.
  split; [reflexivity|].
  intros Hpat.
  assert (Hin : BSLASH ∈ c).
  { destruct Hpat as [H|H].
    - apply slice_1_3_inv in H as (a & rest & ->). set_solver.
    - apply slice_0_2_inv in H as (rest & ->). set_solver. }
  destruct (list_elem_of_split_r c BSLASH Hin) as (dir & r & -> & Hr).
  assert (Hl : last (split_ch BSLASH (dir ++ BSLASH :: r)) = Some r).
  { rewrite (split_ch_app _ _ _ Hr). apply last_snoc. }
  exists dir, r. split; [reflexivity|]. split; [assumption|].
  intros filename. unfold header_unquote.
  rewrite index_head. cbn [rbind].
  rewrite app_comm_cons, index_last. cbn [rbind].
  rewrite ch_eqb_refl. cbn [andb]. rewrite <- app_comm_cons.
  rewrite slice_strip_ends.
  assert (Hp : text_eqb (slice (dir ++ BSLASH :: r) (Some 1) (Some 3))
                 [":"%char; BSLASH]
               || text_eqb (slice (dir ++ BSLASH :: r) None (Some 2))
                    [BSLASH; BSLASH] = true).
  { apply orb_true_iff. destruct Hpat as [H|H]; [left|right];
      rewrite H; apply text_eqb_refl. }
  rewrite Hp. rewrite (index_m1_last _ _ Hl). cbn [rbind].
  rewrite (replace_absent BSLASH [BSLASH] [BSLASH] r Hr).
  rewrite (replace_absent BSLASH [DQUOTE] [DQUOTE] r Hr). reflexivity.
Qed.

Lemma header_unquote_windows_path_witness :
  exists dir name,
    T "C:\dir\report.txt" = dir ++ BSLASH :: name /\ (BSLASH ∉ name) /\
    forall filename : bool,
      header_unquote (DQUOTE :: (T "C:\dir\report.txt" ++ [DQUOTE])) filename
      = Ok name.
Proof.
  apply (header_unquote_windows_path (T "C:\dir\report.txt")).
  left. reflexivity.
Defined.

(** ** The matcher *)

Section MatcherSound.

Lemma star_iter_sound (r : regex) (n : nat) :
  (forall st k res, rmatch r st k = Some res ->
     exists st', matches r st st' /\ k st' = Some res) ->
  forall st k res, star_iter (rmatch r) k n st = Some res ->
    exists st', matches (Star r) st st' /\ k st' = Some res.
Proof.
  intros IHr. induction n as [|n IHn]; intros st k res H; simpl in H.
  - exists st. split; [constructor|assumption].
  - destruct (rmatch r st _) as [res'|] eqn:E.
    + injection H as ->. apply IHr in E as (st1 & Hm & Hk).
      destruct (_ <? _)%nat; [|discriminate].
      apply IHn in Hk as (st2 & Hm2 & Hk2).
      exists st2. split; [econstructor; eassumption|assumption].
    + exists st. split; [constructor|assumption].
Qed.

(** Whatever the matcher finds is a match. *)
Lemma rmatch_sound (r : regex) :
  forall st k res, rmatch r st k = Some res ->
    exists st', matches r st st' /\ k st' = Some res.
Proof.
  induction r as [|p|r1 IH1 r2 IH2|r1 IH1 r2 IH2|r IH|n r IH];
    intros st k res H; simpl in H.
  - destruct (Nat.eqb_spec (m_pos st) 0); [|discriminate].
    exists st. split; [constructor; assumption|assumption].
  - destruct (m_rest st) as [|c s'] eqn:Es; [discriminate|].
    destruct (p c) eqn:Ep; [|discriminate].
    eexists. split; [econstructor; eassumption|assumption].
  - apply IH1 in H as (st1 & Hm1 & H). apply IH2 in H as (st2 & Hm2 & H).
    exists st2. split; [econstructor; eassumption|assumption].
  - destruct (rmatch r1 st k) as [res'|] eqn:E.
    + injection H as ->. apply IH1 in E as (st1 & Hm1 & H).
      exists st1. split; [apply M_AltL; assumption|assumption].
    + apply IH2 in H as (st1 & Hm1 & H).
      exists st1. split; [apply M_AltR; assumption|assumption].
  - eapply star_iter_sound; eassumption.
  - apply IH in H as (st1 & Hm1 & H).
    eexists. split; [econstructor; eassumption|assumption].
Qed.

End MatcherSound.

(** A match consumes a prefix of the subject. *)
Lemma matches_consumes (r : regex) (st st' : mstate) :
  matches r st st' ->
  exists w, m_rest st = w ++ m_rest st'
            /\ m_pos st' = (m_pos st + length w)%nat.
Proof.
  induction 1 as [st Hp|p c s' st Hr Hc|r1 r2 st st1 st2 _ IH1 _ IH2
                  |r1 r2 st st1 _ IH|r1 r2 st st1 _ IH|r st
                  |r st st1 st2 _ IH1 _ IH2|n r st st1 _ IH].
  - exists []. simpl. split; [reflexivity|lia].
  - exists [c]. simpl. split; [assumption|lia].
  - destruct IH1 as (w1 & E1 & P1), IH2 as (w2 & E2 & P2).
    exists (w1 ++ w2). rewrite E1, E2, <- app_assoc, length_app.
    split; [reflexivity|lia].
  - assumption.
  - assumption.
  - exists []. simpl. split; [reflexivity|lia].
  - destruct IH1 as (w1 & E1 & P1), IH2 as (w2 & E2 & P2).
    exists (w1 ++ w2). rewrite E1, E2, <- app_assoc, length_app.
    split; [reflexivity|lia].
  - exact IH.
Qed.

(** A match of a pattern without groups leaves the captures alone. *)
Lemma matches_no_group (r : regex) (st st' : mstate) :
  matches r st st' -> no_group r = true -> m_caps st' = m_caps st.
Proof.
  induction 1; simpl; intros Hn;
    try apply andb_true_iff in Hn as [Hn1 Hn2];
    try reflexivity; try discriminate; auto.
  - rewrite IHmatches2, IHmatches1 by assumption. reflexivity.
  - rewrite IHmatches2, IHmatches1 by assumption. reflexivity.
Qed.

(** A run [p*] consumes characters satisfying [p]. *)
Lemma matches_star_chr (p : ascii -> bool) (st st' : mstate) :
  matches (Star (Chr p)) st st' ->
  exists w, m_rest st = w ++ m_rest st'
            /\ m_pos st' = (m_pos st + length w)%nat
            /\ Forall (fun c => p c = true) w
            /\ m_caps st' = m_caps st.
Proof.
  remember (Star (Chr p)) as r eqn:Er. intros H.
  induction H as [| | | | |r st|r st st1 st2 H1 _ H2 IH2|]; try discriminate.
  - exists []. simpl. repeat split; [lia|constructor].
  - injection Er as ->. destruct (IH2 eq_refl) as (w & E & P & F & C).
    inversion H1 as [|? c s' ? Hr Hc| | | | | |]; subst. simpl in *.
    exists (c :: w). rewrite Hr, E. simpl.
    repeat split; [lia|constructor; assumption|assumption].
Qed.

Lemma matches_plus_chr (p : ascii -> bool) (st st' : mstate) :
  matches (Plus (Chr p)) st st' ->
  exists w, m_rest st = w ++ m_rest st'
            /\ m_pos st' = (m_pos st + length w)%nat
            /\ w <> [] /\ Forall (fun c => p c = true) w
            /\ m_caps st' = m_caps st.
Proof.
  unfold Plus. intros H.
  inversion H as [| |? ? ? st1 ? H1 H2| | | | |]; subst.
  inversion H1 as [|? c s' ? Hr Hc| | | | | |]; subst.
  apply matches_star_chr in H2 as (w & E & P & F & C). simpl in *.
  exists (c :: w). rewrite Hr, E. simpl.
  repeat split; [lia|discriminate|constructor; assumption|assumption].
Qed.

Lemma matches_chr_inv (p : ascii -> bool) (st st' : mstate) :
  matches (Chr p) st st' ->
  exists c, m_rest st = c :: m_rest st' /\ p c = true
            /\ m_pos st' = S (m_pos st) /\ m_caps st' = m_caps st.
Proof.
  inversion 1 as [|? c s' ? Hr Hc| | | | | |]; subst. exists c. auto.
Qed.

Lemma matches_cat_inv (r1 r2 : regex) (st st' : mstate) :
  matches (Cat r1 r2) st st' ->
  exists st1, matches r1 st st1 /\ matches r2 st1 st'.
Proof. inversion 1; subst; eauto. Qed.

Lemma matches_alt_inv (r1 r2 : regex) (st st' : mstate) :
  matches (Alt r1 r2) st st' -> matches r1 st st' \/ matches r2 st st'.
Proof. inversion 1; subst; auto. Qed.

Lemma matches_grp_inv (n : nat) (r : regex) (st st' : mstate) :
  matches (Grp n r) st st' ->
  exists st1, matches r st st1 /\ st' = close_group n st st1.
Proof. inversion 1; subst; eauto. Qed.

(** The text a group captures is what its pattern consumed. *)
Lemma close_group_text (st st1 : mstate) (w : text) :
  m_rest st = w ++ m_rest st1 -> m_pos st1 = (m_pos st + length w)%nat ->
  take (m_pos st1 - m_pos st) (m_rest st) = w.
Proof.
  intros -> ->. replace (_ + _ - _)%nat with (length w) by lia.
  apply take_app_length.
Qed.

Lemma matches_qstr (st st' : mstate) :
  matches _qstr st st' ->
  exists q, m_rest st = DQUOTE :: (q ++ DQUOTE :: m_rest st')
            /\ m_pos st' = (m_pos st + length (DQUOTE :: (q ++ [DQUOTE])))%nat
            /\ m_caps st' = m_caps st.
Proof.
  unfold _qstr. intros H.
  apply matches_cat_inv in H as (s1 & H1 & H).
  apply matches_cat_inv in H as (s2 & H2 & H3).
  apply matches_chr_inv in H1 as (c1 & R1 & C1 & P1 & K1).
  apply matches_chr_inv in H3 as (c3 & R3 & C3 & P3 & K3).
  apply ch_eqb_eq in C1, C3. subst c1 c3.
  pose proof (matches_no_group _ _ _ H2 eq_refl) as K2.
  apply matches_consumes in H2 as (q & R2 & P2).
  exists q. rewrite R1, R2, R3. split; [reflexivity|].
  split; [|congruence].
  simpl. rewrite length_app. simpl. lia.
Qed.

Lemma matches_value (st st' : mstate) :
  matches _value st st' ->
  exists v, m_rest st = v ++ m_rest st'
            /\ m_pos st' = (m_pos st + length v)%nat
            /\ is_value v /\ m_caps st' = m_caps st.
Proof.
  unfold _value. intros H. apply matches_alt_inv in H as [H|H].
  - apply matches_plus_chr in H as (w & R & P & N & F & K).
    exists w. repeat split; try assumption. left. auto.
  - apply matches_qstr in H as (q & R & P & K).
    exists (DQUOTE :: (q ++ [DQUOTE])). rewrite R. simpl.
    rewrite <- app_assoc. repeat split; try assumption.
    right. eauto.
Qed.

(** The shape of a match of [_option]: the two groups are set, and the
    text matched is a separator, white space, key, white space, equals
    sign, white space and value. *)
Lemma option_match_shape (pos : nat) (s : text) (st : mstate) :
  rmatch _re_option (MState pos s []) Some = Some st ->
  exists sep ws0 g1 ws1 ws2 g2,
    m_caps st = [(2%nat, g2); (1%nat, g1)]
    /\ s = sep ++ ws0 ++ g1 ++ ws1 ++ "="%char :: (ws2 ++ g2 ++ m_rest st)
    /\ m_pos st =
       (pos + length (sep ++ ws0 ++ g1 ++ ws1 ++ "="%char :: (ws2 ++ g2)))%nat
    /\ (sep = [";"%char] \/ sep = [] /\ pos = 0%nat)
    /\ Forall (fun c => is_space c = true) ws0
    /\ g1 <> [] /\ Forall (fun c => not_special c = true) g1
    /\ Forall (fun c => is_space c = true) ws1
    /\ Forall (fun c => is_space c = true) ws2
    /\ is_value g2.
Proof.
  intros H. apply rmatch_sound in H as (st' & H & [= ->]).
  unfold _re_option, _option in H.
  apply matches_cat_inv in H as (s1 & Hsep & H).
  apply matches_cat_inv in H as (s2 & Hws0 & H).
  apply matches_cat_inv in H as (s3 & Hg1 & H).
  apply matches_cat_inv in H as (s4 & Hws1 & H).
  apply matches_cat_inv in H as (s5 & Heq & H).
  apply matches_cat_inv in H as (s6 & Hws2 & Hg2).
  assert (Hsep' : exists sep, s = sep ++ m_rest s1
                   /\ m_pos s1 = (pos + length sep)%nat /\ m_caps s1 = []
                   /\ (sep = [";"%char] \/ sep = [] /\ pos = 0%nat)).
  { apply matches_alt_inv in Hsep as [Hsep|Hsep].
    - apply matches_chr_inv in Hsep as (c & R & C & P & K).
      apply ch_eqb_eq in C. subst c. simpl in *.
      exists [";"%char]. rewrite R, P. simpl.
      repeat split; auto; lia.
    - inversion Hsep; subst. simpl in *. exists [].
      repeat split; auto; simpl; lia. }
  destruct Hsep' as (sep & Rsep & Psep & Ksep & Hsepc).
  apply matches_star_chr in Hws0 as (ws0 & R0 & P0 & F0 & K0).
  apply matches_grp_inv in Hg1 as (s3' & Hg1 & ->).
  apply matches_plus_chr in Hg1 as (g1 & Rg1 & Pg1 & Ng1 & Fg1 & Kg1).
  apply matches_star_chr in Hws1 as (ws1 & R1 & P1 & F1 & K1).
  apply matches_chr_inv in Heq as (c & Re & Ce & Pe & Ke).
  apply ch_eqb_eq in Ce. subst c.
  apply matches_star_chr in Hws2 as (ws2 & R2 & P2 & F2 & K2).
  apply matches_grp_inv in Hg2 as (s7 & Hg2 & ->).
  apply matches_value in Hg2 as (g2 & Rg2 & Pg2 & Vg2 & Kg2).
  exists sep, ws0, g1, ws1, ws2, g2. simpl in *.
  rewrite (close_group_text _ _ _ Rg2 Pg2).
  rewrite Kg2, K2, Ke, K1. simpl.
  rewrite (close_group_text _ _ _ Rg1 Pg1).
  rewrite Kg1, K0, Ksep.
  split; [reflexivity|].
  split; [rewrite Rsep, R0, Rg1, R1, Re, R2, Rg2; reflexivity|].
  split.
  { rewrite Pg2, P2, Pe, P1, Pg1, P0, Psep. rewrite !length_app. simpl.
    rewrite !length_app. lia. }
  repeat split; assumption.
Qed.

(** Every match listed by [finditer] was found at some position. *)
Lemma finditer_from_found (r : regex) (s : text) :
  forall pos skip m, m ∈ finditer_from r pos skip s ->
    exists pre rest st,
      s = pre ++ rest
      /\ rmatch r (MState (pos + length pre) rest []) Some = Some st
      /\ m = m_caps st.
Proof.
  induction s as [|x s IH]; intros pos skip m Hm; simpl in Hm.
  - destruct skip; [|set_solver].
    destruct (rmatch r _ Some) as [st|] eqn:E; [|set_solver].
    apply list_elem_of_singleton in Hm. subst m.
    exists [], [], st. simpl. rewrite Nat.add_0_r. auto.
  - assert (Hrec : forall skip', m ∈ finditer_from r (S pos) skip' s ->
              exists pre rest st, x :: s = pre ++ rest
                /\ rmatch r (MState (pos + length pre) rest []) Some = Some st
                /\ m = m_caps st).
    { intros skip' H. apply IH in H as (pre & rest & st & -> & Hst & ->).
      exists (x :: pre), rest, st. simpl.
      replace (pos + S (length pre))%nat with (S pos + length pre)%nat by lia.
      auto. }
    destruct skip as [|skip].
    + destruct (rmatch r _ Some) as [st|] eqn:E.
      * apply elem_of_cons in Hm as [->|Hm]; [|eauto].
        exists [], (x :: s), st. simpl. rewrite Nat.add_0_r. auto.
      * eauto.
    + eauto.
Qed.

(** Every match of [_re_option] in a tail has its two groups, and they are
    the key and the value of an option fragment of the tail. *)
Lemma finditer_option_fragment (tail : text) (m : list (nat * text)) :
  m ∈ finditer _re_option tail ->
  exists g1 g2, m = [(2%nat, g2); (1%nat, g1)] /\ option_fragment tail g1 g2.
Proof.
  intros Hm. apply finditer_from_found in Hm as (pre & rest & st & -> & H & ->).
  apply option_match_shape in H
    as (sep & ws0 & g1 & ws1 & ws2 & g2 & K & R & _ & Hsep & F0 & N1 & F1
        & Fw1 & Fw2 & V).
  exists g1, g2. split; [assumption|].
  exists (pre ++ sep), ws0, ws1, ws2, (m_rest st).
  split; [rewrite R, <- app_assoc; reflexivity|].
  split.
  { destruct Hsep as [->|[-> Hpos]].
    - right. eauto.
    - left. simpl in Hpos. destruct pre; [reflexivity|simpl in Hpos; lia]. }
  repeat split; assumption.
Qed.

Lemma index_nonempty {A} (s : list A) (i : Z) :
  s <> [] -> (i = 0 \/ i = -1) -> exists a, index s i = Ok a.
Proof.
  intros Hs Hi. destruct Hi as [->| ->].
  - destruct s as [|x s]; [easy|]. exists x. apply index_head.
  - destruct (last s) as [x|] eqn:E.
    + exists x. apply index_m1_last. assumption.
    + apply last_None in E. contradiction.
Qed.

(** [header_unquote] raises on the empty string only. *)
Lemma header_unquote_ok (v : text) (filename : bool) :
  v <> [] -> exists r, header_unquote v filename = Ok r.
Proof.
  intros Hv. unfold header_unquote.
  destruct (index_nonempty v 0 Hv (or_introl eq_refl)) as [a ->].
  destruct (index_nonempty v (-1) Hv (or_intror eq_refl)) as [b ->].
  cbn [rbind]. destruct (_ && _); [|eauto].
  destruct (_ || _); cbn [rbind]; [|eauto].
  destruct (index_nonempty _ (-1) (split_ch_nonempty BSLASH
              (slice v (Some 1) (Some (-1)))) (or_intror eq_refl)) as [c ->].
  cbn [rbind]. eauto.
Qed.

Lemma is_value_nonempty (v : text) : is_value v -> v <> [].
Proof. intros [[H _]|[q ->]]; [assumption|discriminate]. Qed.



(** The loop over the matches: it cannot raise when every match has both
    groups and a non-empty value; every binding of the result is an old one
    or comes from a match; every match leaves its key bound. *)
Lemma record_options_spec (ms : list (list (nat * text))) :
  (forall m, m ∈ ms ->
     exists g1 g2, m = [(2%nat, g2); (1%nat, g1)] /\ g2 <> []) ->
  forall options0 : dict,
  exists options : dict,
    record_options options0 ms = Ok options
    /\ (forall key value, options !! key = Some value ->
          options0 !! key = Some value
          \/ exists g1 g2, [(2%nat, g2); (1%nat, g1)] ∈ ms /\ key = lower g1
               /\ forall b, header_unquote g2 b = Ok value)
    /\ (forall key, is_Some (options0 !! key) -> is_Some (options !! key))
    /\ (forall g1 g2, [(2%nat, g2); (1%nat, g1)] ∈ ms ->
          is_Some (options !! lower g1)).
Proof.
  unfold record_options.
  induction ms as [|m ms IH]; intros Hms options0.
  - exists options0. simpl. repeat split; auto. intros g1 g2 H. set_solver.
  - destruct (Hms m) as (g1 & g2 & -> & Hg2); [set_solver|].
    destruct (header_unquote_ok g2 (text_eqb (lower g1) (T "filename")) Hg2)
      as [v Hv].
    assert (Hb : forall b, header_unquote g2 b = Ok v)
      by (intros b; rewrite <- Hv; reflexivity).
    destruct (IH (fun m' H => Hms m' (list_elem_of_further _ _ _ H))
                (<[lower g1 := v]> options0))
      as (options & Hfold & Hfrom & Hkeep & Hall).
    exists options. cbn [foldl rbind]. unfold record_option at 2.
    cbn [group Nat.eqb]. rewrite Hv. cbn [rbind]. split; [exact Hfold|].
    split; [|split].
    + intros key value H. apply Hfrom in H as [H|(h1 & h2 & Hin & -> & Hu)].
      * destruct (decide (lower g1 = key)) as [<-|Hne].
        -- rewrite lookup_insert_eq in H. injection H as <-.
           right. exists g1, g2. split; [set_solver|]. auto.
        -- rewrite lookup_insert_ne in H by assumption. auto.
      * right. exists h1, h2. split; [set_solver|]. auto.
    + intros key H. apply Hkeep.
      destruct (decide (lower g1 = key)) as [<-|Hne].
      * rewrite lookup_insert_eq. eauto.
      * rewrite lookup_insert_ne by assumption. assumption.
    + intros h1 h2 H. apply elem_of_cons in H as [[= -> ->]|H].
      * apply Hkeep. rewrite lookup_insert_eq. eauto.
      * eauto.
Qed.

Lemma split1_spec (c : ascii) (s : text) :
  match split1 c s with
  | (a, Some b) => s = a ++ c :: b /\ c ∉ a
  | (a, None) => s = a /\ c ∉ s
  end.
Proof.
  induction s as [|x s IH]; simpl.
  - split; [reflexivity|apply not_elem_of_nil].
  - destruct (ch_eqb x c) eqn:E.
    + apply ch_eqb_eq in E. subst. split; [reflexivity|apply not_elem_of_nil].
    + apply ch_eqb_neq in E. destruct (split1 c s) as [a [b|]].
      * destruct IH as [-> Ha]. split; [reflexivity|].
        rewrite not_elem_of_cons. auto.
      * destruct IH as [-> Ha]. split; [reflexivity|].
        rewrite not_elem_of_cons. auto.
Qed.

(** ** C1: the one-part scenario *)

(** C1.  With the default configuration and the boundary [B] the scenario
    stream parses, without an exception, into exactly one part; the part
    is sealed (its sink is at position 0), its name is [a], its sink holds
    the five bytes [hello] and its [raw] property returns them: the line
    ending before the terminator line is not in the body. *)
Theorem scenario_one_part :
  exists self p,
    MultipartParser.init_default scenario_stream (T "B") = Ok self
    /\ MultipartParser.parts self = Ok [p]
    /\ MultipartPart.name p = Some (T "a")
    /\ MultipartPart.file p = MultipartPart.BytesIO (File (T "hello") 0)
    /\ MultipartPart.size p = 5
    /\ fst (MultipartPart.raw MultipartPart.ReadOk p) = Ok (T "hello").
Proof.
  eexists. eexists.
  split; [reflexivity|].
  split; [vm_compute; reflexivity|].
  repeat split.
Qed.

(** ** C9: the [raw] property *)

Lemma raw_file_restores (o : MultipartPart.io) (f : fileobj) :
  snd (MultipartPart.raw_file o f) = f
  /\ fst (MultipartPart.raw_file o f)
     = match o with
       | MultipartPart.ReadOk => Ok (f_data f)
       | MultipartPart.ReadFails _ => Raise IOError
       end.
Proof.
  destruct f as [d pos], o as [|pos']; unfold MultipartPart.raw_file; simpl.
  - rewrite drop_0. auto.
  - auto.
Qed.

(** C9.  For a part that has a sink, wherever the position of the sink is
    and whether the read succeeds or raises an I/O error, [raw] leaves the
    part as it was, the position of the sink included; it returns the whole
    body when the read succeeds and the I/O error when it fails. *)
Theorem raw_keeps_position (o : MultipartPart.io) (p : MultipartPart.t)
    (f : fileobj) :
  MultipartPart.sink_file (MultipartPart.file p) = Some f ->
  let '(val, p') := MultipartPart.raw o p in
  p' = p
  /\ (f_pos <$> MultipartPart.sink_file (MultipartPart.file p')) = Some (f_pos f)
  /\ val = match o with
           | MultipartPart.ReadOk => Ok (f_data f)
           | MultipartPart.ReadFails _ => Raise IOError
           end.
Proof.
  intros Hf. unfold MultipartPart.raw.
  destruct p as [hl hs fl sz bf dp nm fn ct cs op cl ml bs].
  simpl in Hf. destruct fl as [|g|g]; simpl in Hf; [discriminate| |];
    injection Hf as ->;
    pose proof (raw_file_restores o f) as [Hs Hv];
    cbn [MultipartPart.file];
    destruct (MultipartPart.raw_file o f) as [val f'] eqn:E;
    cbn [fst snd] in Hs, Hv; subst f' val; simpl; auto.
Qed.

Lemma raw_keeps_position_witness :
  let p := MultipartPart.set_file
             (MultipartPart.__init__ 16 8 (T "latin1"))
             (MultipartPart.TemporaryFile (File (T "hello world") 3)) in
  let '(val, p') := MultipartPart.raw (MultipartPart.ReadFails 7) p in
  p' = p
  /\ (f_pos <$> MultipartPart.sink_file (MultipartPart.file p')) = Some 3%nat
  /\ val = Raise IOError.
Proof.
  exact (raw_keeps_position (MultipartPart.ReadFails 7)
           (MultipartPart.set_file
              (MultipartPart.__init__ 16 8 (T "latin1"))
              (MultipartPart.TemporaryFile (File (T "hello world") 3)))
           (File (T "hello world") 3) eq_refl).
Defined.

(** ** C8: iterating twice *)

Lemma drain_done (events : list MultipartParser.event) :
  forall self,
    let r := MultipartParser.drain self events in
    MultipartParser._done (MultipartParser.after r)
      = MultipartParser._done self ++ MultipartParser.yielded r
    /\ MultipartParser._part_iter (MultipartParser.after r) = Some [].
Proof.
  induction events as [|[d|q|e] events IH]; intros self; simpl.
  - rewrite app_nil_r. auto.
  - destruct (IH (MultipartParser.set_iter self
                    (drop (length d) (MultipartParser.stream self))
                    (MultipartParser._done self) (Some events))) as [H1 H2].
    simpl in H1. auto.
  - destruct (IH (MultipartParser.set_iter self (MultipartParser.stream self)
                    (MultipartParser._done self ++ [q]) (Some events)))
      as [H1 H2].
    simpl in H1. rewrite H1, <- app_assoc. auto.
  - rewrite app_nil_r. auto.
Qed.

(** After an iteration the generator is finished and the cache holds what
    was yielded. *)
Lemma iterate_after (self : MultipartParser.t) :
  MultipartParser._part_iter (MultipartParser.after (MultipartParser.iterate self))
    = Some []
  /\ MultipartParser._done (MultipartParser.after (MultipartParser.iterate self))
     = MultipartParser.yielded (MultipartParser.iterate self).
Proof.
  unfold MultipartParser.iterate.
  cbn [MultipartParser.after MultipartParser.yielded].
  destruct (drain_done
              match MultipartParser._part_iter self with
              | Some it => it
              | None => MultipartParser._iterparse self
              end self) as [Hdone Hiter].
  auto.
Qed.

(** Iterating a parser whose generator is finished replays the cache. *)
Lemma iterate_finished (self : MultipartParser.t) :
  MultipartParser._part_iter self = Some [] ->
  MultipartParser.iterate self
    = MultipartParser.Run (MultipartParser._done self) [] None self.
Proof.
  intros H. unfold MultipartParser.iterate. rewrite H.
  cbn [MultipartParser.drain MultipartParser.yielded MultipartParser.reads
       MultipartParser.raised MultipartParser.after].
  rewrite app_nil_r.
  destruct self as [? ? ? ? ? ? ? ? ? it]. simpl in H. subst it. reflexivity.
Qed.

(** C8.  Whatever the parser and its stream, a second iteration after a
    first one that ran to its end yields the same parts in the same order,
    makes no [read] call on the stream and leaves the parser, the rest of
    its stream included, as the first iteration left it: the parts come
    from the cache [_done].  (A first iteration that was cut short by an
    exception is replayed up to the exception, which is not raised again.) *)
Theorem iterate_twice (self : MultipartParser.t) :
  let first := MultipartParser.iterate self in
  let second := MultipartParser.iterate (MultipartParser.after first) in
  MultipartParser.yielded second = MultipartParser.yielded first
  /\ MultipartParser.reads second = []
  /\ MultipartParser.raised second = None
  /\ MultipartParser.after second = MultipartParser.after first
  /\ MultipartParser.stream (MultipartParser.after second)
     = MultipartParser.stream (MultipartParser.after first).
Proof.
  cbv zeta. destruct (iterate_after self) as [Hiter Hdone].
  rewrite (iterate_finished _ Hiter).
  cbn [MultipartParser.yielded MultipartParser.reads MultipartParser.raised
       MultipartParser.after].
  auto.
Qed.

(** ** C4: the resource limits *)

(** C4.  When the main loop takes a line that is not a recognised boundary
    and [feed] returns, the limit is tested at once: a part in memory
    whose size with [mem_used] is above [mem_limit] ends the parse with
    the memory error, and a part not in memory whose size with [disk_used]
    is above [disk_limit] ends it with the disk error.  In both cases the
    events of the parser stop there whatever the line reader would do
    next, so no further [read] is made; and when the limit is not exceeded
    no resource error is raised at this line: the loop goes on with the
    events that follow. *)
Theorem limit_checked_per_line (self : MultipartParser.t)
    (v : MultipartParser.locals) (line nl : bytes)
    (rest : list line_event) (p : MultipartPart.t) :
  text_eqb line (MultipartParser.terminator self)
    && negb (MultipartParser.is_tail v) = false ->
  text_eqb line (MultipartParser.separator self)
    && negb (MultipartParser.is_tail v) = false ->
  MultipartPart.feed (MultipartParser.part v) line nl = (p, None) ->
  let next :=
    MultipartParser.Locals (MultipartParser.mem_used v)
      (MultipartParser.disk_used v) (is_empty nl) p line in
  let events := MultipartParser.iterparse_loop self v (LLine line nl :: rest) in
  (MultipartPart.is_buffered p = true ->
     (MultipartParser.mem_limit self
        < MultipartPart.size p + MultipartParser.mem_used v ->
      events = [MultipartParser.Raised (MultipartError MemoryLimitReached)])
     /\ (MultipartPart.size p + MultipartParser.mem_used v
           <= MultipartParser.mem_limit self ->
         events = MultipartParser.iterparse_loop self next rest))
  /\ (MultipartPart.is_buffered p = false ->
        (MultipartParser.disk_limit self
           < MultipartPart.size p + MultipartParser.disk_used v ->
         events = [MultipartParser.Raised (MultipartError DiskLimitReached)])
        /\ (MultipartPart.size p + MultipartParser.disk_used v
              <= MultipartParser.disk_limit self ->
            events = MultipartParser.iterparse_loop self next rest)).
Proof.
  intros Hterm Hsep Hfeed next events. subst events next.
  cbn [MultipartParser.iterparse_loop]. rewrite Hterm, Hsep, Hfeed.
  split; intros Hb; rewrite Hb; split; intros H.
  - destruct (Z.gtb_spec (MultipartPart.size p + MultipartParser.mem_used v)
                (MultipartParser.mem_limit self)); [reflexivity|lia].
  - destruct (Z.gtb_spec (MultipartPart.size p + MultipartParser.mem_used v)
                (MultipartParser.mem_limit self)); [lia|reflexivity].
  - destruct (Z.gtb_spec (MultipartPart.size p + MultipartParser.disk_used v)
                (MultipartParser.disk_limit self)); [reflexivity|lia].
  - destruct (Z.gtb_spec (MultipartPart.size p + MultipartParser.disk_used v)
                (MultipartParser.disk_limit self)); [lia|reflexivity].
Qed.

Lemma limit_checked_per_line_witness :
  let line := T "hello" in
  let nl := CRLF in
  let rest := [LRead (T "more"); LLine (T "more") []] in
  let p := fst (MultipartPart.feed demo_part line nl) in
  let next :=
    MultipartParser.Locals (MultipartParser.mem_used demo_locals)
      (MultipartParser.disk_used demo_locals) (is_empty nl) p line in
  let events :=
    MultipartParser.iterparse_loop demo_parser demo_locals
      (LLine line nl :: rest) in
  (MultipartPart.is_buffered p = true ->
     (MultipartParser.mem_limit demo_parser
        < MultipartPart.size p + MultipartParser.mem_used demo_locals ->
      events = [MultipartParser.Raised (MultipartError MemoryLimitReached)])
     /\ (MultipartPart.size p + MultipartParser.mem_used demo_locals
           <= MultipartParser.mem_limit demo_parser ->
         events = MultipartParser.iterparse_loop demo_parser next rest))
  /\ (MultipartPart.is_buffered p = false ->
        (MultipartParser.disk_limit demo_parser
           < MultipartPart.size p + MultipartParser.disk_used demo_locals ->
         events = [MultipartParser.Raised (MultipartError DiskLimitReached)])
        /\ (MultipartPart.size p + MultipartParser.disk_used demo_locals
              <= MultipartParser.disk_limit demo_parser ->
            events = MultipartParser.iterparse_loop demo_parser next rest)).
Proof.
  apply (limit_checked_per_line demo_parser demo_locals (T "hello") CRLF
           [LRead (T "more"); LLine (T "more") []]
           (fst (MultipartPart.feed demo_part (T "hello") CRLF))).
  - reflexivity.
  - reflexivity.
  - vm_compute. reflexivity.
Defined.

(** The reads of the line reader pass through the main loop as they come:
    the parser reads when, and only when, the line reader does. *)
Lemma iterparse_loop_reads (self : MultipartParser.t)
    (v : MultipartParser.locals) (reads : list bytes)
    (rest : list line_event) :
  MultipartParser.iterparse_loop self v (map LRead reads ++ rest)
  = map MultipartParser.Read reads
    ++ MultipartParser.iterparse_loop self v rest.
Proof.
  induction reads as [|d reads IH]; [reflexivity|].
  cbn [map app MultipartParser.iterparse_loop]. rewrite IH. reflexivity.
Qed.

(** The memory limit of the example is reached at the line that takes the
    size above it, and the events of the line reader that follow are not
    performed. *)
Example demo_memory_limit :
  MultipartParser.iterparse_loop demo_parser demo_locals
    [LLine (T "hello") CRLF; LRead (T "more"); LLine (T "more") []]
  = [MultipartParser.Raised (MultipartError MemoryLimitReached)].
Proof. vm_compute. reflexivity. Qed.

(** The same on a whole stream: with [mem_limit = 30] the sizes after the
    body lines are 10, 22 and 34, the parse fails at the third line, and
    what the stream holds after the chunk of that line is never read. *)
Example memory_limit_at_third_line :
  exists self,
    limit_parser = Ok self
    /\ MultipartParser._iterparse self
       = [MultipartParser.Read (take 30 limit_stream);
          MultipartParser.Read (take 30 (drop 30 limit_stream));
          MultipartParser.Read (take 30 (drop 60 limit_stream));
          MultipartParser.Raised (MultipartError MemoryLimitReached)]
    /\ MultipartParser.stream
         (MultipartParser.after (MultipartParser.iterate self))
       = drop 90 limit_stream
    /\ drop 90 limit_stream = [LF] ++ T "ffffffffff" ++ CRLF ++ T "--B--" ++ CRLF.
Proof. eexists. split; [reflexivity|]. repeat split; vm_compute; reflexivity. Qed.

(** ** Files *)

Lemma file_write_at_end (d b : bytes) :
  file_write (File d (length d)) b = File (d ++ b) (length (d ++ b)).
Proof.
  unfold file_write. simpl. rewrite take_ge by lia.
  rewrite Nat.sub_diag. simpl. rewrite drop_ge by lia.
  rewrite app_nil_r, length_app. reflexivity.
Qed.

Lemma file_write_at_end' (d b : bytes) (pos : nat) :
  pos = length d ->
  file_write (File d pos) b = File (d ++ b) (pos + length b).
Proof.
  intros ->. rewrite file_write_at_end, length_app. reflexivity.
Qed.

(** Copying a file from some position on, with a buffer size other than 0
    and [maxread] the length of the file, brings every byte across. *)
Lemma copy_file_loop_all (d : bytes) (bs : Z) :
  bs <> 0 ->
  forall fuel pos,
    (pos <= length d)%nat -> (length d - pos < fuel)%nat ->
    snd (fst (copy_file_loop fuel (File d pos)
                (File (take pos d) pos) (zlen d) bs (Z.of_nat pos)))
    = File d (length d).
Proof.
  intros Hbs. induction fuel as [|fuel IH]; intros pos Hpos Hfuel; [lia|].
  cbn [copy_file_loop]. unfold zlen.
  destruct (Z.ltb_spec (Z.of_nat (length d)) 0) as [?|_]; [lia|].
  unfold file_read. cbn [f_pos f_data].
  set (to_read := Z.min bs (Z.of_nat (length d) - Z.of_nat pos)).
  set (got := if to_read <? 0 then drop pos d
              else take (Z.to_nat to_read) (drop pos d)).
  destruct got as [|g got'] eqn:Eg.
  - (* nothing read: the position is at the end *)
    cbn [fst snd].
    assert (pos = length d) as ->.
    { subst got. destruct (Z.ltb_spec to_read 0) as [Hn|Hn].
      - apply (f_equal length) in Eg. rewrite length_drop in Eg.
        simpl in Eg. lia.
      - apply (f_equal length) in Eg. rewrite length_take, length_drop in Eg.
        simpl in Eg. subst to_read. lia. }
    rewrite take_ge by lia. reflexivity.
  - assert (Hlen : (0 < length got <= length d - pos)%nat).
    { subst got. rewrite Eg. destruct (Z.ltb_spec to_read 0) as [Hn|Hn].
      - apply (f_equal length) in Eg. rewrite length_drop in Eg.
        simpl in *. lia.
      - apply (f_equal length) in Eg. rewrite length_take, length_drop in Eg.
        simpl in *. lia. }
    assert (Hpre : take (length got) (drop pos d) = got).
    { subst got. destruct (Z.ltb_spec to_read 0) as [Hn|Hn].
      - apply take_ge. lia.
      - rewrite length_take.
        destruct (Nat.min_spec (Z.to_nat to_read) (length (drop pos d)))
          as [[_ ->]|[Hle ->]]; [reflexivity|].
        rewrite !take_ge by lia. reflexivity. }
    assert (Hgot : take (pos + length got) d = take pos d ++ got).
    { rewrite <- take_take_drop, Hpre. reflexivity. }
    rewrite <- Eg.
    replace (file_write (File (take pos d) pos) got)
      with (File (take (pos + length got) d) (pos + length got)).
    2:{ rewrite Hgot. symmetry. apply file_write_at_end'.
        rewrite length_take. lia. }
    replace (Z.of_nat pos + Z.of_nat (length got))
      with (Z.of_nat (pos + length got)) by lia.
    apply IH; lia.
Qed.

(** The fuel of [copy_file] is enough: more of it changes nothing. *)
Lemma copy_file_loop_fuel (fuel1 : nat) :
  forall fuel2 stream target maxread bs size,
    (length (f_data stream) - f_pos stream < fuel1)%nat ->
    (length (f_data stream) - f_pos stream < fuel2)%nat ->
    copy_file_loop fuel1 stream target maxread bs size
    = copy_file_loop fuel2 stream target maxread bs size.
Proof.
  induction fuel1 as [|fuel1 IH];
    intros fuel2 stream target maxread bs size H1 H2; [lia|].
  destruct fuel2 as [|fuel2]; [lia|].
  cbn [copy_file_loop]. unfold file_read.
  set (to_read := if maxread <? 0 then bs else bs `min` (maxread - size)).
  set (got := if to_read <? 0 then drop (f_pos stream) (f_data stream)
              else take (Z.to_nat to_read)
                     (drop (f_pos stream) (f_data stream))).
  assert (Hgot : (length got <= length (f_data stream) - f_pos stream)%nat).
  { subst got. destruct (to_read <? 0).
    - rewrite length_drop. lia.
    - rewrite length_take, length_drop. lia. }
  destruct got as [|g got']; [reflexivity|].
  simpl length in *. apply IH; cbn [f_data f_pos]; lia.
Qed.

Lemma copy_file_all (d : bytes) (bs : Z) :
  bs <> 0 ->
  snd (fst (copy_file (File d 0) new_file (zlen d) bs)) = File d (length d).
Proof.
  intros Hbs. unfold copy_file, new_file. cbn [f_data f_pos].
  apply (copy_file_loop_all d bs Hbs (S (length d - 0)) 0%nat); lia.
Qed.

(** ** The body of a part *)

Arguments copy_file : simpl never.
Arguments file_write : simpl never.

Lemma in_body_shape (p : MultipartPart.t) :
  in_body p ->
  exists mem d N, p = body_part mem d p
                  /\ MultipartPart.content_length p = Some N.
Proof.
  intros (f & Hf & Hpos & Hsize & Hcl).
  destruct p as [hl hs fl sz bf dp nm fn ct cs op cl ml bs].
  cbn in *. destruct cl as [N|]; [|contradiction].
  destruct f as [d pos]. cbn in *. subst pos sz.
  destruct fl as [|g|g]; cbn in Hf; [discriminate| |]; injection Hf as ->.
  - exists true, d, N. auto.
  - exists false, d, N. auto.
Qed.

(** One call of [write_body] on a part in its body phase, as an equation. *)
Lemma write_body_eq (mem : bool) (d : bytes) (p : MultipartPart.t)
    (N : Z) (line nl : bytes) :
  MultipartPart.content_length p = Some N ->
  MultipartPart.buffer_size p <> 0 ->
  MultipartPart.write_body (body_part mem d p) line nl
  = if is_empty line && is_empty nl then (body_part mem d p, None)
    else
      let d' := d ++ MultipartPart._buf p ++ line in
      let p' := MultipartPart.set_body p MultipartPart.NoFile 0 nl in
      if (N >? 0) && (zlen d' >? N)
      then (body_part mem d' p', Some (MultipartError BodyExceedsLength))
      else if (zlen d' >? MultipartPart.memfile_limit p) && mem
      then (body_part false d' p', None)
      else (body_part mem d' p', None).
Proof.
  intros Hcl Hbs.
  destruct p as [hl hs fl sz bf dp nm fn ct cs op cl ml bs].
  cbn in Hcl, Hbs. subst cl.
  unfold MultipartPart.write_body, body_part. cbn.
  destruct (is_empty line && is_empty nl); [reflexivity|].
  assert (Hsz : zlen d + (zlen line + zlen bf) = zlen (d ++ bf ++ line)).
  { unfold zlen. rewrite !length_app. lia. }
  destruct mem; cbn; rewrite file_write_at_end, Hsz;
    destruct ((N >? 0) && (zlen (d ++ bf ++ line) >? N)); try reflexivity;
    destruct (zlen (d ++ bf ++ line) >? ml); cbn; try reflexivity.
  pose proof (copy_file_all (d ++ bf ++ line) bs Hbs) as Hcopy.
  unfold file_seek. cbn [f_data].
  destruct (copy_file _ _ _ _) as [[o' n'] c']. cbn in Hcopy. subst n'.
  reflexivity.
Qed.

Lemma feed_body_part (mem : bool) (d : bytes) (p : MultipartPart.t)
    (line nl : bytes) :
  MultipartPart.feed (body_part mem d p) line nl
  = MultipartPart.write_body (body_part mem d p) line nl.
Proof. unfold MultipartPart.feed. destruct mem; reflexivity. Qed.

Lemma body_part_fields (mem : bool) (d : bytes) (p : MultipartPart.t) :
  MultipartPart.size (body_part mem d p) = zlen d
  /\ body_data (body_part mem d p) = d
  /\ MultipartPart._buf (body_part mem d p) = MultipartPart._buf p
  /\ MultipartPart.memfile_limit (body_part mem d p)
     = MultipartPart.memfile_limit p
  /\ MultipartPart.content_length (body_part mem d p)
     = MultipartPart.content_length p
  /\ (on_disk (body_part mem d p) <-> mem = false)
  /\ (in_memory (body_part mem d p) <-> mem = true).
Proof.
  unfold on_disk, in_memory, body_data.
  destruct mem; cbn; repeat split; try reflexivity; try discriminate; eauto;
    intros [f H]; discriminate.
Qed.

Lemma body_part_in_body (mem : bool) (d : bytes) (p : MultipartPart.t) :
  MultipartPart.content_length p <> None -> in_body (body_part mem d p).
Proof.
  intros H. exists (File d (length d)). destruct mem; cbn; auto.
Qed.

(** Feeding lines to a part in its body phase: where the sink ends up and
    what it holds. *)
Lemma feed_all_body (ls : list (bytes * bytes)) :
  forall (mem : bool) (d : bytes) (p : MultipartPart.t) (N : Z),
    MultipartPart.content_length p = Some N ->
    MultipartPart.buffer_size p <> 0 ->
    (mem = true -> zlen d <= MultipartPart.memfile_limit p) ->
    exists mem' d' p' e,
      feed_all (body_part mem d p) ls = (body_part mem' d' p', e)
      /\ MultipartPart.content_length p' = Some N
      /\ MultipartPart.memfile_limit p' = MultipartPart.memfile_limit p
      /\ (mem = false -> mem' = false)
      /\ (e = None ->
          d' = d ++ body_written (MultipartPart._buf p) ls
          /\ (mem' = false <->
              mem = false \/ MultipartPart.memfile_limit p < zlen d')).
Proof.
  induction ls as [|[line nl] ls IH]; intros mem d p N Hcl Hbs Hlim.
  - exists mem, d, p, None. cbn [feed_all body_written].
    rewrite app_nil_r. split; [reflexivity|]. split; [assumption|].
    split; [reflexivity|]. split; [auto|]. intros _.
    split; [reflexivity|]. split; [auto|].
    intros [H|H]; [assumption|]. destruct mem; [|reflexivity].
    specialize (Hlim eq_refl). lia.
  - cbn [feed_all body_written].
    rewrite feed_body_part, (write_body_eq mem d p N line nl Hcl Hbs).
    destruct (is_empty line && is_empty nl).
    { apply (IH mem d p N Hcl Hbs Hlim). }
    cbv zeta.
    set (d1 := d ++ MultipartPart._buf p ++ line).
    set (p1 := MultipartPart.set_body p MultipartPart.NoFile 0 nl).
    assert (Hcl1 : MultipartPart.content_length p1 = Some N)
      by (destruct p; assumption).
    assert (Hbs1 : MultipartPart.buffer_size p1 <> 0)
      by (destruct p; assumption).
    assert (Hml1 : MultipartPart.memfile_limit p1
                   = MultipartPart.memfile_limit p)
      by (destruct p; reflexivity).
    assert (Hbuf1 : MultipartPart._buf p1 = nl) by (destruct p; reflexivity).
    destruct ((N >? 0) && (zlen d1 >? N)).
    { exists mem, d1, p1, (Some (MultipartError BodyExceedsLength)).
      repeat split; auto; discriminate. }
    destruct (Z.gtb_spec (zlen d1) (MultipartPart.memfile_limit p))
      as [Hgt|Hle]; destruct mem; cbn [andb].
    + (* the sink is promoted *)
      destruct (IH false d1 p1 N Hcl1 Hbs1) as (m' & d' & p' & e & E & H1 & H2 & H3 & H4);
        [discriminate|].
      exists m', d', p', e. rewrite E. rewrite Hml1 in *. rewrite Hbuf1 in *.
      split; [reflexivity|]. split; [assumption|]. split; [assumption|].
      split; [discriminate|]. intros He. destruct (H4 He) as [-> H5].
      unfold d1. rewrite <- !app_assoc. split; [reflexivity|].
      rewrite (H3 eq_refl). split; [|reflexivity]. intros _. right.
      rewrite !zlen_app. unfold d1 in Hgt.
      rewrite !zlen_app in Hgt.
      pose proof (zlen_nonneg (body_written nl ls)). lia.
    + destruct (IH false d1 p1 N Hcl1 Hbs1) as (m' & d' & p' & e & E & H1 & H2 & H3 & H4);
        [discriminate|].
      exists m', d', p', e. rewrite E. rewrite Hml1 in *. rewrite Hbuf1 in *.
      split; [reflexivity|]. split; [assumption|]. split; [assumption|].
      split; [auto|]. intros He. destruct (H4 He) as [-> H5].
      unfold d1. rewrite <- !app_assoc. split; [reflexivity|].
      rewrite (H3 eq_refl). split; auto.
    + destruct (IH true d1 p1 N Hcl1 Hbs1) as (m' & d' & p' & e & E & H1 & H2 & H3 & H4);
        [rewrite Hml1; intros _; lia|].
      exists m', d', p', e. rewrite E. rewrite Hml1 in *. rewrite Hbuf1 in *.
      split; [reflexivity|]. split; [assumption|]. split; [assumption|].
      split; [discriminate|]. intros He. destruct (H4 He) as [-> H5].
      unfold d1. unfold d1 in H5. rewrite <- !app_assoc in *.
      split; [reflexivity|]. rewrite H5. split.
      * intros [H|H]; [discriminate|]. right. assumption.
      * intros [H|H]; [discriminate|]. right. assumption.
    + destruct (IH false d1 p1 N Hcl1 Hbs1) as (m' & d' & p' & e & E & H1 & H2 & H3 & H4);
        [discriminate|].
      exists m', d', p', e. rewrite E. rewrite Hml1 in *. rewrite Hbuf1 in *.
      split; [reflexivity|]. split; [assumption|]. split; [assumption|].
      split; [auto|]. intros He. destruct (H4 He) as [-> H5].
      unfold d1. rewrite <- !app_assoc. split; [reflexivity|].
      rewrite (H3 eq_refl). split; auto.
Qed.

(** Feeding lines to a part in its body phase: when a call raises. *)
Lemma feed_all_body_raise (ls : list (bytes * bytes)) :
  forall (mem : bool) (d : bytes) (p : MultipartPart.t) (N : Z),
    MultipartPart.content_length p = Some N ->
    MultipartPart.buffer_size p <> 0 ->
    let '(q, e) := feed_all (body_part mem d p) ls in
    (N <= 0 \/ zlen d + zlen (body_written (MultipartPart._buf p) ls) <= N ->
     e = None)
    /\ (forall x, e = Some x ->
          x = MultipartError BodyExceedsLength
          /\ 0 < N < MultipartPart.size q).
Proof.
  induction ls as [|[line nl] ls IH]; intros mem d p N Hcl Hbs.
  - cbn [feed_all]. split; [reflexivity|discriminate].
  - cbn [feed_all body_written].
    rewrite feed_body_part, (write_body_eq mem d p N line nl Hcl Hbs).
    destruct (is_empty line && is_empty nl).
    { apply (IH mem d p N Hcl Hbs). }
    cbv zeta.
    set (d1 := d ++ MultipartPart._buf p ++ line).
    set (p1 := MultipartPart.set_body p MultipartPart.NoFile 0 nl).
    assert (Hcl1 : MultipartPart.content_length p1 = Some N)
      by (destruct p; assumption).
    assert (Hbs1 : MultipartPart.buffer_size p1 <> 0)
      by (destruct p; assumption).
    assert (Hbuf1 : MultipartPart._buf p1 = nl) by (destruct p; reflexivity).
    assert (Hd1 : zlen d1 = zlen d + zlen (MultipartPart._buf p) + zlen line)
      by (unfold d1; rewrite !zlen_app; lia).
    pose proof (zlen_nonneg (body_written nl ls)) as Hrest.
    assert (Hgo : forall mem1,
              let '(q, e) := feed_all (body_part mem1 d1 p1) ls in
              (N <= 0
               \/ zlen d
                  + zlen (MultipartPart._buf p ++ line ++ body_written nl ls)
                  <= N -> e = None)
              /\ (forall x, e = Some x ->
                    x = MultipartError BodyExceedsLength
                    /\ 0 < N < MultipartPart.size q)).
    { intros mem1. specialize (IH mem1 d1 p1 N Hcl1 Hbs1).
      rewrite Hbuf1 in IH.
      destruct (feed_all (body_part mem1 d1 p1) ls) as [q e].
      destruct IH as [IH1 IH2]. split; [|exact IH2].
      intros H. apply IH1. rewrite !zlen_app in H. lia. }
    destruct (Z.gtb_spec N 0) as [HN|HN];
      destruct (Z.gtb_spec (zlen d1) N) as [Hover|Hfit]; cbn [andb];
      try (destruct ((zlen d1 >? MultipartPart.memfile_limit p) && mem);
           apply Hgo).
    split.
    + rewrite !zlen_app. intros [H|H]; lia.
    + intros x [= <-]. split; [reflexivity|].
      destruct (body_part_fields mem d1 p1) as (Fs & _). rewrite Fs. lia.
Qed.

(** ** C5: the promotion of the sink *)

(** C5, as the code has it.  Feed any lines to a part in its body phase
    whose buffer size is not 0 (every parser gives its parts a buffer that
    holds its boundary) and whose sink, if in memory, is not above the
    threshold.  The part stays in its body phase.  A sink on disk stays on
    disk: there is no way back to memory, so the sink is promoted at most
    once.  No call raises when no positive length is declared or the
    bytes written stay within it, and what a call raises is the error of
    a body longer than declared.  When no call raises, the sink holds
    exactly the bytes it held before followed by the bytes written since,
    whether or not it was promoted in between, and it is on disk exactly
    when it was so before or the size has gone above [memfile_limit]; as
    this holds after every line, the promotion happens at the first write
    that takes the size above the threshold. *)
Theorem sink_promoted_once (p : MultipartPart.t) (ls : list (bytes * bytes))
    (N : Z) :
  in_body p ->
  MultipartPart.buffer_size p <> 0 ->
  MultipartPart.content_length p = Some N ->
  (in_memory p -> MultipartPart.size p <= MultipartPart.memfile_limit p) ->
  let '(p', e) := feed_all p ls in
  in_body p'
  /\ (on_disk p -> on_disk p')
  /\ (N <= 0
      \/ MultipartPart.size p
         + zlen (body_written (MultipartPart._buf p) ls) <= N ->
      e = None)
  /\ (forall x, e = Some x ->
        x = MultipartError BodyExceedsLength
        /\ 0 < N < MultipartPart.size p')
  /\ (e = None ->
      body_data p' = body_data p ++ body_written (MultipartPart._buf p) ls
      /\ (on_disk p' <->
          on_disk p
          \/ MultipartPart.memfile_limit p < MultipartPart.size p')).
Proof.
  intros Hbody Hbs HN Hlim.
  destruct (in_body_shape p Hbody) as (mem & d & N' & Hp & Hcl).
  assert (N' = N) by congruence. subst N'.
  destruct (body_part_fields mem d p) as (Fs & Fd & Fb & Fm & Fc & Fdisk & Fmem).
  rewrite <- Hp in Fs, Fd, Fdisk, Fmem.
  destruct (feed_all_body ls mem d p N Hcl Hbs)
    as (mem' & d' & p' & e & E & Hcl' & Hml' & Hkeep & Hok).
  { intros ->. rewrite <- Fs. apply Hlim, Fmem. reflexivity. }
  pose proof (feed_all_body_raise ls mem d p N Hcl Hbs) as Hraise.
  rewrite E in Hraise. destruct Hraise as [Hnone Hsome].
  rewrite <- Hp in E. rewrite E.
  destruct (body_part_fields mem' d' p')
    as (Fs' & Fd' & _ & _ & _ & Fdisk' & _).
  split; [apply body_part_in_body; congruence|].
  split.
  { intros H. apply Fdisk', Hkeep, Fdisk, H. }
  split.
  { rewrite Fs. exact Hnone. }
  split; [exact Hsome|].
  intros He. destruct (Hok He) as [Hd Hiff].
  rewrite Fd', Fd, Fs', Fdisk', Fdisk. auto.
Qed.

Lemma sink_promoted_once_witness :
  exists p',
    feed_all demo_part [(T "hello", CRLF); (T "world", CRLF)] = (p', None)
    /\ in_memory demo_part
    /\ on_disk p'
    /\ body_data p' = T "hello" ++ CRLF ++ T "world".
Proof.
  pose proof (sink_promoted_once demo_part
                [(T "hello", CRLF); (T "world", CRLF)] 12) as H.
  destruct (feed_all demo_part [(T "hello", CRLF); (T "world", CRLF)])
    as [p' e] eqn:E.
  destruct H as (_ & _ & Hnone & _ & Hok).
  - exists new_file. vm_compute. repeat split; discriminate.
  - vm_compute. discriminate.
  - reflexivity.
  - intros _. vm_compute. discriminate.
  - assert (He : e = None) by (apply Hnone; right; vm_compute; discriminate).
    subst e. destruct (Hok eq_refl) as [Hdata Hdisk].
    exists p'. split; [reflexivity|].
    split; [exists new_file; reflexivity|].
    split; [|exact Hdata].
    apply Hdisk. right.
    assert (Hsize : MultipartPart.size p' = 12).
    { apply (f_equal (fun r => MultipartPart.size (fst r))) in E.
      cbn [fst] in E. rewrite <- E. vm_compute. reflexivity. }
    rewrite Hsize. reflexivity.
Defined.

(** C5 as stated fails in three places.  A part made with a buffer size
    of 0 is promoted when its size goes above the threshold, but the copy
    to the new sink reads nothing: twelve bytes were written and the sink
    on disk is empty.  A write that takes the size above the threshold and
    above the declared length at once raises before the promotion: the
    size is 13, the threshold 8, and the sink is still in memory.  And a
    part made with a negative threshold is above it from the end of its
    headers on, with its sink in memory until the first write. *)
Lemma sink_promotion_loses_body :
  let p0 := fst (MultipartPart.finish_header
                   (MultipartPart.set_headerlist
                      (MultipartPart.__init__ 0 8 (T "latin1"))
                      [(T "Content-Disposition", T "form-data")])) in
  let p1 := fst (MultipartPart.finish_header
                   (MultipartPart.set_headerlist
                      (MultipartPart.__init__ 16 (-1) (T "latin1"))
                      [(T "Content-Disposition", T "form-data")])) in
  (in_memory p0
   /\ exists p',
        feed_all p0 [(T "hello", CRLF); (T "world", CRLF)] = (p', None)
        /\ on_disk p'
        /\ MultipartPart.size p' = 12
        /\ body_written (MultipartPart._buf p0)
             [(T "hello", CRLF); (T "world", CRLF)]
           = T "hello" ++ CRLF ++ T "world"
        /\ body_data p' = [])
  /\ (exists q,
        feed_all demo_part [(T "hello", CRLF); (T "world!", CRLF)]
        = (q, Some (MultipartError BodyExceedsLength))
        /\ MultipartPart.size q = 13
        /\ MultipartPart.memfile_limit q = 8
        /\ in_memory q)
  /\ (in_body p1 /\ in_memory p1
      /\ MultipartPart.memfile_limit p1 < MultipartPart.size p1).
Proof.
  cbv zeta. split; [|split].
  - split; [exists new_file; reflexivity|].
    eexists. split; [vm_compute; reflexivity|].
    split; [eexists; reflexivity|]. repeat split.
  - eexists. split; [vm_compute; reflexivity|].
    split; [reflexivity|]. split; [reflexivity|]. eexists. reflexivity.
  - split; [|split; [exists new_file; reflexivity|reflexivity]].
    exists new_file. vm_compute. repeat split; discriminate.
Qed.

(** ** C3: the declared length *)

(** One call of [write_body]: the size it leaves and whether it raises. *)
Lemma write_body_length (p : MultipartPart.t) (N : Z) (line nl : bytes) :
  MultipartPart.file p <> MultipartPart.NoFile ->
  MultipartPart.content_length p = Some N ->
  let skip := is_empty line && is_empty nl in
  let '(p', e) := MultipartPart.write_body p line nl in
  MultipartPart.file p' <> MultipartPart.NoFile
  /\ MultipartPart.content_length p' = Some N
  /\ MultipartPart.size p'
     = MultipartPart.size p
       + (if skip then 0 else zlen line + zlen (MultipartPart._buf p))
  /\ MultipartPart._buf p' = (if skip then MultipartPart._buf p else nl)
  /\ e = if skip then None
         else if (N >? 0) && (MultipartPart.size p' >? N)
              then Some (MultipartError BodyExceedsLength) else None.
Proof.
  intros Hf Hcl skip.
  destruct p as [hl hs fl sz bf dp nm fn ct cs op cl ml bs].
  cbn in Hf, Hcl. subst cl. unfold MultipartPart.write_body. fold skip.
  cbn [MultipartPart.file MultipartPart.size MultipartPart._buf].
  destruct skip.
  { cbn. rewrite Z.add_0_r. auto. }
  destruct fl as [|g|g]; [contradiction| |]; cbn;
    destruct ((N >? 0) && (sz + (zlen line + zlen bf) >? N)) eqn:E1;
    try destruct (sz + (zlen line + zlen bf) >? ml); cbn;
    try destruct (copy_file _ _ _ _) as [[? ?] ?]; cbn;
    repeat split; auto; try discriminate; rewrite E1; reflexivity.
Qed.

Lemma feed_in_body_phase (p : MultipartPart.t) (line nl : bytes) :
  MultipartPart.file p <> MultipartPart.NoFile ->
  MultipartPart.feed p line nl = MultipartPart.write_body p line nl.
Proof.
  unfold MultipartPart.feed. destruct (MultipartPart.file p); easy.
Qed.

(** C3.  Feed any lines to a part that has a sink, declares the positive
    length [N] and has not yet more than [N] bytes.  Either no call raises,
    and then the size never went above [N]; or the feeding stops with the
    error that the body exceeds its declared length, and this at the first
    line that takes the size above [N]: after the lines before it the size
    was still at most [N] (so [N] bytes themselves raise nothing), and with
    it the size is at least [N + 1]. *)
Theorem body_length_error (p : MultipartPart.t) (N : Z)
    (ls : list (bytes * bytes)) :
  MultipartPart.file p <> MultipartPart.NoFile ->
  MultipartPart.content_length p = Some N ->
  0 < N ->
  MultipartPart.size p <= N ->
  let buf := MultipartPart._buf p in
  let '(p', e) := feed_all p ls in
  (e = None
   /\ MultipartPart.size p'
      = MultipartPart.size p + zlen (body_written buf ls)
   /\ MultipartPart.size p' <= N)
  \/ (e = Some (MultipartError BodyExceedsLength)
      /\ exists done line nl rest,
           ls = done ++ (line, nl) :: rest
           /\ MultipartPart.size p + zlen (body_written buf done) <= N
           /\ MultipartPart.size p'
              = MultipartPart.size p
                + zlen (body_written buf (done ++ [(line, nl)]))
           /\ N + 1 <= MultipartPart.size p').
Proof.
  intros Hf Hcl HN. cbv zeta. revert p Hf Hcl.
  induction ls as [|[line nl] ls IH]; intros p Hf Hcl Hsz.
  - left. cbn. rewrite Z.add_0_r. auto.
  - cbn [feed_all]. rewrite (feed_in_body_phase p line nl Hf).
    pose proof (write_body_length p N line nl Hf Hcl) as Hstep.
    cbv zeta in Hstep.
    destruct (MultipartPart.write_body p line nl) as [p1 e1].
    destruct Hstep as (Hf1 & Hcl1 & Hs1 & Hb1 & He1).
    cbn [body_written].
    destruct (is_empty line && is_empty nl) eqn:Eskip.
    + subst e1. rewrite Z.add_0_r in Hs1.
      specialize (IH p1 Hf1 Hcl1 ltac:(lia)).
      destruct (feed_all p1 ls) as [p' e].
      rewrite Hs1, Hb1 in IH.
      destruct IH as [IH|(He & done & l & n & rest & -> & H1 & H2 & H3)];
        [left; exact IH|].
      right. split; [assumption|].
      exists ((line, nl) :: done), l, n, rest. cbn [app body_written].
      rewrite Eskip. auto.
    + destruct ((N >? 0) && (MultipartPart.size p1 >? N)) eqn:Eex; subst e1.
      * right. split; [reflexivity|].
        exists [], line, nl, ls. cbn [app body_written]. rewrite Eskip.
        apply andb_true_iff in Eex as [_ Eex]. apply Z.gtb_lt in Eex.
        rewrite Z.add_0_r, app_nil_r, zlen_app, Hs1.
        repeat split; try lia.
      * assert (Hle : MultipartPart.size p1 <= N).
        { apply andb_false_iff in Eex as [E|E];
            rewrite Z.gtb_ltb in E; apply Z.ltb_ge in E; lia. }
        specialize (IH p1 Hf1 Hcl1 Hle).
        destruct (feed_all p1 ls) as [p' e].
        rewrite Hs1, Hb1 in IH.
        destruct IH as [(He & H1 & H2)
                       |(He & done & l & n & rest & -> & H1 & H2 & H3)].
        -- left. rewrite !zlen_app. repeat split; try assumption. lia.
        -- right. split; [assumption|].
           exists ((line, nl) :: done), l, n, rest. cbn [app body_written].
           rewrite Eskip, !zlen_app. repeat split; try lia.
Qed.

Lemma body_length_error_witness :
  let ls := [(T "hello", CRLF); (T "world!", CRLF)] in
  let buf := MultipartPart._buf demo_part in
  let '(p', e) := feed_all demo_part ls in
  (e = None
   /\ MultipartPart.size p'
      = MultipartPart.size demo_part + zlen (body_written buf ls)
   /\ MultipartPart.size p' <= 12)
  \/ (e = Some (MultipartError BodyExceedsLength)
      /\ exists done line nl rest,
           ls = done ++ (line, nl) :: rest
           /\ MultipartPart.size demo_part + zlen (body_written buf done)
              <= 12
           /\ MultipartPart.size p'
              = MultipartPart.size demo_part
                + zlen (body_written buf (done ++ [(line, nl)]))
           /\ 12 + 1 <= MultipartPart.size p').
Proof.
  apply (body_length_error demo_part 12
           [(T "hello", CRLF); (T "world!", CRLF)]).
  - vm_compute. discriminate.
  - reflexivity.
  - lia.
  - vm_compute. discriminate.
Defined.

(** ** The line reader *)

Lemma slice_to {A} (s : list A) (k : Z) :
  0 <= k -> slice s None (Some k) = take (Z.to_nat k) s.
Proof.
  intros Hk. unfold slice, clamp_index, zlen. cbn [bound]. zbool.
  rewrite (Z.min_l 0) by lia. rewrite drop_0.
  destruct (Z.min_spec k (Z.of_nat (length s))) as [[Hlt ->]|[Hge ->]].
  - f_equal. lia.
  - rewrite !take_ge by lia. reflexivity.
Qed.

Lemma slice_from {A} (s : list A) (k : Z) :
  0 <= k -> slice s (Some k) None = drop (Z.to_nat k) s.
Proof.
  intros Hk. unfold slice, clamp_index, zlen. cbn [bound]. zbool.
  rewrite (Z.min_r _ (Z.of_nat (length s))) by lia.
  destruct (Z.min_spec k (Z.of_nat (length s))) as [[Hlt ->]|[Hge ->]].
  - apply take_ge. rewrite length_drop. lia.
  - rewrite take_ge by (rewrite length_drop; lia).
    rewrite !drop_ge by lia. reflexivity.
Qed.

Lemma slice_init {A} (s : list A) (x : A) :
  slice (s ++ [x]) None (Some (-1)) = s.
Proof.
  unfold slice, clamp_index, zlen. cbn [bound]. rewrite length_app.
  simpl length. zbool. rewrite Z.min_l, Z.max_l by lia. rewrite drop_0.
  replace (Z.to_nat _) with (length s) by lia. apply take_app_length.
Qed.

Lemma startswith_spec (s p : list ascii) :
  startswith s p = true <-> exists t, s = p ++ t.
Proof.
  revert s. induction p as [|x p IH]; intros s.
  - split; [eauto|]. intros _. destruct s; reflexivity.
  - destruct s as [|y s]; simpl.
    + split; [discriminate|]. intros [t H]. discriminate.
    + rewrite andb_true_iff, ch_eqb_eq, IH. split.
      * intros [-> [t ->]]. eauto.
      * intros [t [= -> ->]]. eauto.
Qed.

Lemma endswith_spec (s p : list ascii) :
  endswith s p = true <-> exists t, s = t ++ p.
Proof.
  unfold endswith. rewrite startswith_spec. split.
  - intros [t H]. exists (rev t).
    rewrite <- (rev_involutive s), H, rev_app_distr, rev_involutive.
    reflexivity.
  - intros [t ->]. exists (rev t). apply rev_app_distr.
Qed.

(** Reading more than the stream has left is reading all of it. *)
Lemma stream_read_shorter (n : Z) (s : bytes) :
  fst (stream_read n s) <> [] ->
  (length (snd (stream_read n s)) < length s)%nat.
Proof.
  unfold stream_read. destruct (n <? 0); cbn [fst snd].
  - destruct s; [easy|]. simpl. lia.
  - intros H. rewrite length_drop.
    destruct (Z.to_nat n); [rewrite take_0 in H; easy|].
    destruct s; [easy|]. simpl. lia.
Qed.

(** The fuel of [_lineiter] is enough: more of it changes nothing. *)
Lemma lineiter_loop_fuel (L : Z) (fuel1 : nat) :
  forall fuel2 stream maxread buffer,
    (length stream < fuel1)%nat -> (length stream < fuel2)%nat ->
    MultipartParser.lineiter_loop fuel1 L stream maxread buffer
    = MultipartParser.lineiter_loop fuel2 L stream maxread buffer.
Proof.
  induction fuel1 as [|fuel1 IH]; intros fuel2 stream maxread buffer H1 H2;
    [lia|].
  destruct fuel2 as [|fuel2]; [lia|].
  cbn [MultipartParser.lineiter_loop].
  pose proof (stream_read_shorter
                (if maxread <? 0 then L else L `min` maxread) stream) as Hs.
  destruct (stream_read _ stream) as [data stream'].
  cbn [fst snd] in Hs. f_equal.
  destruct (MultipartParser.chunk L buffer data) as [[lines buffer']|e];
    [|reflexivity].
  f_equal. destruct data as [|c data]; [reflexivity|].
  cbn [is_empty]. specialize (Hs ltac:(discriminate)).
  apply IH; lia.
Qed.

(** A line of [splitlines] is a body without line-ending characters
    followed by at most one line ending. *)
Lemma splitlines_shape (n : nat) :
  forall s l, (length s <= n)%nat -> l ∈ splitlines s ->
    exists body term,
      l = body ++ term /\ (CR ∉ body) /\ (LF ∉ body)
      /\ (term = [] \/ term = [LF] \/ term = [CR] \/ term = [CR; LF]).
Proof.
  induction n as [|n IH]; intros s l Hlen Hin.
  - destruct s; [|simpl in Hlen; lia]. simpl in Hin. set_solver.
  - destruct s as [|c s']; [simpl in Hin; set_solver|].
    simpl in Hlen, Hin.
    assert (Hone : forall t, (t = [LF] \/ t = [CR] \/ t = [CR; LF]) ->
              exists body term, t = body ++ term /\ (CR ∉ body) /\ (LF ∉ body)
                /\ (term = [] \/ term = [LF] \/ term = [CR] \/ term = [CR; LF])).
    { intros t Ht. exists [], t. simpl. repeat split; try apply not_elem_of_nil.
      tauto. }
    destruct (ch_eqb c LF) eqn:Elf.
    { apply ch_eqb_eq in Elf. subst c.
      apply elem_of_cons in Hin as [->|Hin]; [apply Hone; auto|].
      apply (IH s'); [lia|assumption]. }
    destruct (ch_eqb c CR) eqn:Ecr.
    { apply ch_eqb_eq in Ecr. subst c.
      destruct s' as [|d s''].
      - apply list_elem_of_singleton in Hin. subst l. apply Hone; auto.
      - destruct (ch_eqb d LF) eqn:Ed.
        + apply ch_eqb_eq in Ed. subst d.
          apply elem_of_cons in Hin as [->|Hin]; [apply Hone; auto|].
          apply (IH s''); [simpl in Hlen; lia|assumption].
        + apply elem_of_cons in Hin as [->|Hin]; [apply Hone; auto|].
          apply (IH (d :: s'')); [lia|assumption]. }
    apply ch_eqb_neq in Elf, Ecr.
    destruct (splitlines s') as [|l0 ls] eqn:Es.
    { apply list_elem_of_singleton in Hin. subst l.
      exists [c], []. rewrite app_nil_r. repeat split; auto;
        rewrite not_elem_of_cons; split; auto; apply not_elem_of_nil. }
    apply elem_of_cons in Hin as [->|Hin].
    + destruct (IH s' l0) as (body & term & -> & Hcr & Hlf & Ht);
        [lia|rewrite Es; set_solver|].
      exists (c :: body), term. repeat split; auto;
        rewrite not_elem_of_cons; split; auto.
    + apply (IH s'); [lia|rewrite Es; set_solver].
Qed.

Lemma emit_no_eol (l : bytes) :
  (CR ∉ l) -> (LF ∉ l) -> MultipartParser.emit l = (l, []).
Proof.
  intros Hcr Hlf. unfold MultipartParser.emit.
  assert (H1 : endswith l _bcrnl = false).
  { destruct (endswith l _bcrnl) eqn:E; [|reflexivity].
    apply endswith_spec in E as [t ->]. exfalso. apply Hlf.
    unfold _bcrnl. set_solver. }
  assert (H2 : endswith l _bnl = false).
  { destruct (endswith l _bnl) eqn:E; [|reflexivity].
    apply endswith_spec in E as [t ->]. exfalso. apply Hlf.
    change _bnl with [LF]. set_solver. }
  assert (H3 : endswith l _bcr = false).
  { destruct (endswith l _bcr) eqn:E; [|reflexivity].
    apply endswith_spec in E as [t ->]. exfalso. apply Hcr.
    change _bcr with [CR]. set_solver. }
  rewrite H1, H2, H3. reflexivity.
Qed.

(** ** C2: the forced split of a long first line *)

(** C2.  Let the first line of a chunk, the buffered partial line and the
    new data taken together, be longer than the buffer size [L].  It is cut
    at position [L], or at [L - 1] when it has exactly [L + 1] bytes and
    ends in CR LF.  The cut never falls between a CR and its LF.  The
    front part holds no line ending and is yielded with the empty
    terminator.  The remainder takes its place in the queue of lines as one
    more line whose ending has not been looked at yet: it is held back as
    the new buffer when it is the last line of a chunk that brought data,
    and is yielded like any other line otherwise. *)
Theorem long_first_line_split (L : Z) (buffer data first : bytes)
    (rest : list bytes) :
  0 <= L ->
  splitlines (buffer ++ data) = first :: rest ->
  L < zlen first ->
  let splitpos :=
    if (zlen first =? L + 1) && endswith first [CR; LF] then L - 1 else L in
  let front := take (Z.to_nat splitpos) first in
  let remainder := drop (Z.to_nat splitpos) first in
  let queue := front :: remainder :: rest in
  0 <= splitpos < zlen first
  /\ MultipartParser.split_first L (first :: rest) = Ok queue
  /\ ~ (last front = Some CR /\ head remainder = Some LF)
  /\ MultipartParser.emit front = (front, [])
  /\ (data = [] ->
      MultipartParser.chunk L buffer data
      = Ok (map MultipartParser.emit queue, buffer))
  /\ (data <> [] ->
      exists before final,
        remainder :: rest = before ++ [final]
        /\ MultipartParser.chunk L buffer data
           = Ok (map MultipartParser.emit (front :: before), final)).
Proof.
  intros HL Hlines Hlong splitpos front remainder queue.
  destruct (splitlines_shape (length (buffer ++ data)) (buffer ++ data) first)
    as (body & term & Hfirst & Hcr & Hlf & Hterm);
    [lia|rewrite Hlines; set_solver|].
  assert (Hlen : zlen first = zlen body + zlen term)
    by (rewrite Hfirst; apply zlen_app).
  pose proof (zlen_nonneg body) as Hb0.
  (* the cut is inside the body or at its end *)
  assert (Hpos : 0 <= splitpos <= zlen body /\ splitpos < zlen first).
  { subst splitpos.
    destruct (Z.eqb_spec (zlen first) (L + 1)) as [Heq|Hne]; cbn [andb].
    - destruct (endswith first [CR; LF]) eqn:Eend.
      + apply endswith_spec in Eend as [t Et].
        assert (term = [CR; LF]) as ->.
        { destruct Hterm as [ -> | [ -> | [ -> | -> ] ] ]; try reflexivity; exfalso.
          - rewrite app_nil_r in Hfirst. subst body. apply Hlf.
            rewrite Et. set_solver.
          - rewrite Hfirst in Et.
            change (t ++ [CR; LF]) with (t ++ [CR] ++ [LF]) in Et.
            rewrite app_assoc in Et. apply app_inj_tail in Et as [-> _].
            apply Hcr. set_solver.
          - rewrite Hfirst in Et.
            change (t ++ [CR; LF]) with (t ++ [CR] ++ [LF]) in Et.
            rewrite app_assoc in Et. apply app_inj_tail in Et as [_ Et].
            discriminate. }
        unfold zlen in *. simpl length in *. lia.
      + destruct Hterm as [ -> | [ -> | [ -> | -> ] ] ];
          unfold zlen in *; simpl length in *; try lia.
        exfalso. assert (endswith first [CR; LF] = true)
          by (apply endswith_spec; eauto). congruence.
    - destruct Hterm as [ -> | [ -> | [ -> | -> ] ] ];
        unfold zlen in *; simpl length in *; lia. }
  destruct Hpos as [[Hp0 Hpb] Hpf].
  assert (Hfront : front = take (Z.to_nat splitpos) body).
  { subst front. rewrite Hfirst. apply take_app_le. unfold zlen in Hpb. lia. }
  assert (Hfcr : CR ∉ front).
  { rewrite Hfront. intros H. apply Hcr.
    rewrite <- (take_drop (Z.to_nat splitpos) body).
    apply elem_of_app. left. assumption. }
  assert (Hflf : LF ∉ front).
  { rewrite Hfront. intros H. apply Hlf.
    rewrite <- (take_drop (Z.to_nat splitpos) body).
    apply elem_of_app. left. assumption. }
  assert (Hsplit : MultipartParser.split_first L (first :: rest) = Ok queue).
  { unfold MultipartParser.split_first. rewrite index_head. cbn [rbind].
    destruct (Z.gtb_spec (zlen first) L) as [_|?]; [|lia].
    unfold _bcrnl. fold splitpos. rewrite slice_to, slice_from by lia.
    rewrite (slice_from (first :: rest) 1) by lia. reflexivity. }
  split; [lia|]. split; [exact Hsplit|]. split.
  { intros [Hl _]. apply Hfcr. apply last_Some in Hl as [t Ht]. rewrite Ht.
    apply elem_of_app. right. apply list_elem_of_singleton. reflexivity. }
  split; [apply emit_no_eol; assumption|]. split.
  - intros Hdata. unfold MultipartParser.chunk. rewrite Hlines, Hsplit.
    rewrite Hdata. reflexivity.
  - intros Hdata. unfold MultipartParser.chunk. rewrite Hlines, Hsplit.
    cbn [rbind].
    destruct data as [|c data]; [contradiction|]. cbn [is_empty negb].
    destruct (exists_last (l := remainder :: rest)) as (before & final & Hq);
      [discriminate|].
    exists before, final. split; [exact Hq|].
    unfold queue. rewrite Hq, app_comm_cons.
    rewrite index_last, slice_init. reflexivity.
Qed.

Lemma long_first_line_split_witness :
  let L := 7 in
  let buffer := T "abcdef" in
  let data := CRLF ++ T "xyz" in
  let first := T "abcdef" ++ CRLF in
  let rest := [T "xyz"] in
  let splitpos :=
    if (zlen first =? L + 1) && endswith first [CR; LF] then L - 1 else L in
  let front := take (Z.to_nat splitpos) first in
  let remainder := drop (Z.to_nat splitpos) first in
  let queue := front :: remainder :: rest in
  0 <= splitpos < zlen first
  /\ MultipartParser.split_first L (first :: rest) = Ok queue
  /\ ~ (last front = Some CR /\ head remainder = Some LF)
  /\ MultipartParser.emit front = (front, [])
  /\ (data = [] ->
      MultipartParser.chunk L buffer data
      = Ok (map MultipartParser.emit queue, buffer))
  /\ (data <> [] ->
      exists before final,
        remainder :: rest = before ++ [final]
        /\ MultipartParser.chunk L buffer data
           = Ok (map MultipartParser.emit (front :: before), final)).
Proof.
  apply (long_first_line_split 7 (T "abcdef") (CRLF ++ T "xyz")
           (T "abcdef" ++ CRLF) [T "xyz"]).
  - lia.
  - reflexivity.
  - vm_compute. reflexivity.
Defined.

(** ** C7: the end of the stream *)

(** C7, at the input where the code departs from it.  The stream is cut
    short: its data end without any terminator line, after a body line of
    24 bytes that the reader, with its buffer of 24 bytes, cuts from the
    five bytes that follow.  These happen to read as the terminator token;
    they come as the tail of the cut line, so they are not recognised as a
    terminator line and are fed to the part.  The line reader then runs
    out, the last line equals the terminator token, and the parser ends
    without an exception and without having yielded the part: [parts()]
    returns the empty list, all reads done and the stream used up. *)
Theorem cut_stream_ends_normally :
  exists self,
    cut_parser = Ok self
    /\ MultipartParser._lineiter self
       = [LRead (T "--B" ++ CRLF ++ T "Content-Disposition");
          LLine (T "--B") CRLF;
          LRead (T ": x" ++ CRLF ++ CRLF ++ replicate 17 "x"%char);
          LLine (T "Content-Disposition: x") CRLF;
          LLine [] CRLF;
          LRead (replicate 7 "x"%char ++ T "--B--");
          LLine (replicate 24 "x"%char) [];
          LRead [];
          LLine (T "--B--") []]
    /\ MultipartParser.parts self = Ok []
    /\ MultipartParser.raised (MultipartParser.iterate self) = None
    /\ MultipartParser.stream
         (MultipartParser.after (MultipartParser.iterate self)) = [].
Proof.
  eexists. split; [reflexivity|].
  repeat split; vm_compute; reflexivity.
Qed.

(** On the empty stream the first [read] returns nothing, [splitlines]
    gives no line and [lines[0]] raises: the parse ends with an
    [IndexError], not with the error of the module. *)
Example empty_stream_index_error :
  exists self,
    MultipartParser.init_default [] (T "B") = Ok self
    /\ MultipartParser.parts self = Raise IndexError.
Proof. eexists. split; [reflexivity|]. vm_compute. reflexivity. Qed.

(** Where the line reader runs out and the last line is not the
    terminator token, the parser does raise the error of the unexpected
    end. *)
Lemma unexpected_end_raised (self : MultipartParser.t)
    (v : MultipartParser.locals) (reads : list bytes) :
  MultipartParser.line v <> MultipartParser.terminator self ->
  MultipartParser.iterparse_loop self v (map LRead reads)
  = map MultipartParser.Read reads
    ++ [MultipartParser.Raised (MultipartError UnexpectedEndOfStream)].
Proof.
  intros Hne. induction reads as [|d reads IH]; cbn.
  - destruct (text_eqb _ _) eqn:E; [|reflexivity].
    apply text_eqb_eq in E. contradiction.
  - cbn in IH. rewrite IH. reflexivity.
Qed.

(** * Further properties of the code *)

(** ** The line reader: what it yields *)

Lemma splitlines_concat (n : nat) :
  forall s, (length s <= n)%nat -> concat (splitlines s) = s.
Proof.
  induction n as [|n IH]; intros s Hlen.
  - destruct s; [reflexivity|simpl in Hlen; lia].
  - destruct s as [|c s']; [reflexivity|]. simpl in Hlen.
    cbn [splitlines].
    destruct (ch_eqb c LF).
    { cbn [concat app]. rewrite IH by lia. reflexivity. }
    destruct (ch_eqb c CR).
    { destruct s' as [|d s'']; [reflexivity|].
      destruct (ch_eqb d LF); cbn [concat app].
      - rewrite IH by (simpl in Hlen; lia). reflexivity.
      - rewrite (IH (d :: s'')) by lia. reflexivity. }
    pose proof (IH s' ltac:(lia)) as Hs.
    destruct (splitlines s') as [|l ls]; cbn [concat app] in *.
    + subst. reflexivity.
    + rewrite <- Hs. reflexivity.
Qed.

Lemma splitlines_join (s : bytes) : concat (splitlines s) = s.
Proof. apply (splitlines_concat (length s)). lia. Qed.

Lemma splitlines_nil_inv (s : bytes) : splitlines s = [] -> s = [].
Proof. intros H. rewrite <- (splitlines_join s), H. reflexivity. Qed.

Lemma elem_of_concat_length {A} (l : list A) (ls : list (list A)) :
  l ∈ ls -> (length l <= length (concat ls))%nat.
Proof.
  induction ls as [|x ls IH]; intros H; [set_solver|].
  simpl. rewrite length_app. apply elem_of_cons in H as [->|H]; [lia|].
  specialize (IH H). lia.
Qed.

Lemma clamp_index_0 (n : Z) : 0 <= n -> clamp_index n 0 = 0.
Proof.
  intros Hn. unfold clamp_index.
  destruct (Z.ltb_spec 0 0) as [?|_]; lia.
Qed.

Lemma slice_clamp_to {A} (s : list A) (k : Z) :
  slice s None (Some k) = take (Z.to_nat (clamp_index (zlen s) k)) s.
Proof.
  unfold slice. cbn [bound].
  rewrite (clamp_index_0 (zlen s)) by apply zlen_nonneg.
  rewrite drop_0. f_equal. lia.
Qed.

Lemma clamp_index_range (n k : Z) : 0 <= n -> 0 <= clamp_index n k <= n.
Proof.
  intros Hn. unfold clamp_index. destruct (Z.ltb_spec k 0); lia.
Qed.

Lemma slice_clamp_from {A} (s : list A) (k : Z) :
  slice s (Some k) None = drop (Z.to_nat (clamp_index (zlen s) k)) s.
Proof.
  unfold slice. cbn [bound]. pose proof (zlen_nonneg s) as Hn.
  pose proof (clamp_index_range (zlen s) k Hn) as Hk.
  replace (clamp_index (zlen s) (zlen s)) with (zlen s)
    by (unfold clamp_index; destruct (Z.ltb_spec (zlen s) 0); lia).
  apply take_ge. rewrite length_drop. unfold zlen in *. lia.
Qed.

(** [s[:k] + s[k:]] is [s], whatever [k]. *)
Lemma slice_split {A} (s : list A) (k : Z) :
  slice s None (Some k) ++ slice s (Some k) None = s.
Proof. rewrite slice_clamp_to, slice_clamp_from. apply take_drop. Qed.

Lemma slice_drop_end {A} (s u : list A) :
  u <> [] -> slice (s ++ u) None (Some (- zlen u)) = s.
Proof.
  intros Hu. rewrite slice_clamp_to. unfold clamp_index, zlen.
  rewrite length_app.
  assert (0 < length u)%nat by (destruct u; [easy|simpl; lia]).
  destruct (Z.ltb_spec (- Z.of_nat (length u)) 0) as [_|?]; [|lia].
  replace (Z.to_nat _) with (length s) by lia.
  apply take_app_length.
Qed.

Lemma not_endswith (l p : bytes) (c : ascii) :
  c ∉ l -> c ∈ p -> endswith l p = false.
Proof.
  intros Hl Hp. destruct (endswith l p) eqn:E; [|reflexivity].
  apply endswith_spec in E as [t ->]. exfalso. apply Hl.
  apply elem_of_app. right. assumption.
Qed.

Lemma endswith_app (t p : bytes) : endswith (t ++ p) p = true.
Proof. apply endswith_spec. eauto. Qed.

Lemma endswith_last_ne (t p : bytes) (c d : ascii) :
  c <> d -> endswith (t ++ [c]) (p ++ [d]) = false.
Proof.
  intros Hne. destruct (endswith _ _) eqn:E; [|reflexivity].
  apply endswith_spec in E as [u E]. rewrite app_assoc in E.
  apply app_inj_tail in E as [_ E]. congruence.
Qed.

(** What is yielded for a physical line is its body and its ending. *)
Lemma emit_shaped (body term : bytes) :
  (CR ∉ body) -> (LF ∉ body) -> is_eol term ->
  MultipartParser.emit (body ++ term) = (body, term).
Proof.
  intros Hcr Hlf [ -> | [ -> | [ -> | -> ] ] ].
  - rewrite app_nil_r. apply emit_no_eol; assumption.
  - unfold MultipartParser.emit. change _bnl with [LF].
    change _bcrnl with [CR; LF].
    assert (H1 : endswith (body ++ [LF]) [CR; LF] = false).
    { destruct (endswith _ _) eqn:E; [|reflexivity].
      apply endswith_spec in E as [t E].
      change [CR; LF] with ([CR] ++ [LF]) in E. rewrite app_assoc in E.
      apply app_inj_tail in E as [-> _]. exfalso. apply Hcr.
      apply elem_of_app. right. apply list_elem_of_singleton. reflexivity. }
    rewrite H1, endswith_app.
    rewrite slice_init. reflexivity.
  - unfold MultipartParser.emit. change _bnl with [LF].
    change _bcrnl with [CR; LF]. change _bcr with [CR].
    pose proof (endswith_last_ne body [CR] CR LF ltac:(discriminate)) as H1.
    pose proof (endswith_last_ne body [] CR LF ltac:(discriminate)) as H2.
    cbn [app] in H1, H2. rewrite H1, H2.
    rewrite endswith_app.
    rewrite slice_init. reflexivity.
  - unfold MultipartParser.emit. change _bcrnl with [CR; LF].
    rewrite endswith_app.
    change (-2) with (- zlen [CR; LF]).
    rewrite (slice_drop_end body [CR; LF]) by discriminate. reflexivity.
Qed.

Lemma splitlines_line_shaped (s l : bytes) :
  l ∈ splitlines s -> line_shaped l.
Proof.
  intros H.
  destruct (splitlines_shape (length s) s l (le_n _) H)
    as (body & term & -> & Hcr & Hlf & Ht).
  exists body, term. auto.
Qed.

Lemma splitlines_line_nonempty (n : nat) :
  forall s l, (length s <= n)%nat -> l ∈ splitlines s -> l <> [].
Proof.
  induction n as [|n IH]; intros s l Hlen Hin.
  - destruct s; [|simpl in Hlen; lia]. simpl in Hin. set_solver.
  - destruct s as [|c s']; [simpl in Hin; set_solver|].
    simpl in Hlen. cbn [splitlines] in Hin.
    destruct (ch_eqb c LF).
    { apply elem_of_cons in Hin as [->|Hin]; [discriminate|].
      apply (IH s'); [lia|assumption]. }
    destruct (ch_eqb c CR).
    { destruct s' as [|d s''].
      - apply list_elem_of_singleton in Hin. subst. discriminate.
      - destruct (ch_eqb d LF);
          apply elem_of_cons in Hin as [->|Hin]; try discriminate.
        + apply (IH s''); [simpl in Hlen; lia|assumption].
        + apply (IH (d :: s'')); [lia|assumption]. }
    destruct (splitlines s') as [|l0 ls] eqn:Es.
    + apply list_elem_of_singleton in Hin. subst. discriminate.
    + apply elem_of_cons in Hin as [->|Hin]; [discriminate|].
      apply (IH s'); [lia|]. rewrite Es. apply list_elem_of_further, Hin.
Qed.

Lemma is_eol_take (term : bytes) (k : nat) : is_eol term -> is_eol (take k term).
Proof.
  unfold is_eol.
  intros [ -> | [ -> | [ -> | -> ] ] ]; destruct k as [|[|k]]; cbn;
    rewrite ?take_nil, ?drop_nil;
    try (left; reflexivity); try (right; left; reflexivity);
    try (right; right; left; reflexivity);
    try (right; right; right; reflexivity).
Qed.

Lemma is_eol_drop (term : bytes) (k : nat) : is_eol term -> is_eol (drop k term).
Proof.
  unfold is_eol.
  intros [ -> | [ -> | [ -> | -> ] ] ]; destruct k as [|[|k]]; cbn;
    rewrite ?take_nil, ?drop_nil;
    try (left; reflexivity); try (right; left; reflexivity);
    try (right; right; left; reflexivity);
    try (right; right; right; reflexivity).
Qed.

Lemma not_elem_of_take {A} (x : A) (l : list A) (k : nat) :
  x ∉ l -> x ∉ take k l.
Proof.
  intros H Hin. apply H. rewrite <- (take_drop k l).
  apply elem_of_app. left. assumption.
Qed.

Lemma not_elem_of_drop {A} (x : A) (l : list A) (k : nat) :
  x ∉ l -> x ∉ drop k l.
Proof.
  intros H Hin. apply H. rewrite <- (take_drop k l).
  apply elem_of_app. right. assumption.
Qed.

Lemma line_shaped_take (l : bytes) (k : nat) :
  line_shaped l -> line_shaped (take k l).
Proof.
  intros (body & term & -> & Hcr & Hlf & Ht).
  exists (take k body), (take (k - length body) term).
  rewrite take_app. split; [reflexivity|].
  split; [apply not_elem_of_take; assumption|].
  split; [apply not_elem_of_take; assumption|].
  apply is_eol_take. assumption.
Qed.

Lemma line_shaped_drop (l : bytes) (k : nat) :
  line_shaped l -> line_shaped (drop k l).
Proof.
  intros (body & term & -> & Hcr & Hlf & Ht).
  exists (drop k body), (drop (k - length body) term).
  rewrite drop_app. split; [reflexivity|].
  split; [apply not_elem_of_drop; assumption|].
  split; [apply not_elem_of_drop; assumption|].
  apply is_eol_drop. assumption.
Qed.

Lemma line_shaped_nil : line_shaped [].
Proof.
  exists [], []. unfold is_eol.
  repeat split; auto; apply not_elem_of_nil.
Qed.

(** The buffered line opens the first line of the next chunk. *)
Lemma splitlines_buffer_prefix (body : bytes) :
  forall term d,
    (CR ∉ body) -> (LF ∉ body) -> is_eol term -> body ++ term <> [] ->
    exists pre rest, splitlines ((body ++ term) ++ d) = ((body ++ term) ++ pre) :: rest.
Proof.
  induction body as [|c body IH]; intros term d Hcr Hlf Ht Hne.
  - cbn [app] in *.
    destruct Ht as [ -> | [ -> | [ -> | -> ] ] ]; [contradiction| | |].
    + exists [], (splitlines d). reflexivity.
    + destruct d as [|x d']; [exists [], []; reflexivity|].
      cbn [app splitlines]. change (ch_eqb CR LF) with false.
      change (ch_eqb CR CR) with true. cbn iota.
      destruct (ch_eqb x LF) eqn:E.
      * apply ch_eqb_eq in E. subst x. exists [LF], (splitlines d').
        reflexivity.
      * eexists [], _. cbn [app]. reflexivity.
    + exists [], (splitlines d). reflexivity.
  - apply not_elem_of_cons in Hcr as [Hc1 Hcr].
    apply not_elem_of_cons in Hlf as [Hc2 Hlf].
    cbn [app splitlines].
    assert (E1 : ch_eqb c LF = false) by (apply ch_eqb_neq; congruence).
    assert (E2 : ch_eqb c CR = false) by (apply ch_eqb_neq; congruence).
    rewrite E1, E2.
    destruct (splitlines ((body ++ term) ++ d)) as [|l ls] eqn:Es.
    + apply splitlines_nil_inv in Es.
      apply app_eq_nil in Es as [Es ->]. rewrite Es.
      exists [], []. reflexivity.
    + destruct (decide (body ++ term = [])) as [Hnil|Hnn].
      * rewrite Hnil. exists l, ls. reflexivity.
      * destruct (IH term d Hcr Hlf Ht Hnn) as (pre & rest & E).
        rewrite Es in E. injection E as -> ->.
        exists pre, rest. reflexivity.
Qed.

Lemma splitlines_buffer (b d : bytes) :
  line_shaped b -> b <> [] ->
  exists pre rest,
    splitlines (b ++ d) = (b ++ pre) :: rest /\ d = pre ++ concat rest.
Proof.
  intros (body & term & -> & Hcr & Hlf & Ht) Hne.
  destruct (splitlines_buffer_prefix body term d Hcr Hlf Ht Hne)
    as (pre & rest & E).
  exists pre, rest. split; [assumption|].
  pose proof (splitlines_join ((body ++ term) ++ d)) as Hj.
  rewrite E in Hj. cbn [concat] in Hj. rewrite <- app_assoc in Hj.
  apply app_inv_head in Hj. auto.
Qed.

Lemma slice_tail {A} (x : A) (l : list A) : slice (x :: l) (Some 1) None = l.
Proof. rewrite slice_from by lia. reflexivity. Qed.

(** The cut of the first line: what the queue of lines is afterwards. *)
Lemma split_first_cases (L : Z) (first : bytes) (rest : list bytes) :
  (zlen first <= L
   /\ MultipartParser.split_first L (first :: rest) = Ok (first :: rest))
  \/ (L < zlen first
      /\ exists k,
           (k = L \/ k = L - 1 /\ zlen first = L + 1)
           /\ MultipartParser.split_first L (first :: rest)
              = Ok (slice first None (Some k)
                      :: slice first (Some k) None :: rest)).
Proof.
  unfold MultipartParser.split_first. rewrite index_head. cbn [rbind].
  rewrite slice_tail.
  destruct (Z.gtb_spec (zlen first) L) as [Hgt|Hle]; [right|left; auto].
  split; [assumption|].
  destruct (Z.eqb_spec (zlen first) (L + 1)) as [Heq|Hne]; cbn [andb].
  - destruct (endswith first _bcrnl).
    + exists (L - 1). auto.
    + exists L. auto.
  - exists L. auto.
Qed.

Lemma split_first_nil (L : Z) :
  MultipartParser.split_first L [] = Raise IndexError.
Proof. reflexivity. Qed.

Lemma slice_from_nonempty {A} (s : list A) (k : Z) :
  0 < zlen s -> k < zlen s -> slice s (Some k) None <> [].
Proof.
  intros Hpos Hk. rewrite slice_clamp_from. pose proof (zlen_nonneg s) as Hn.
  assert (clamp_index (zlen s) k < zlen s).
  { unfold clamp_index. destruct (Z.ltb_spec k 0); lia. }
  pose proof (clamp_index_range (zlen s) k Hn).
  intros E. apply (f_equal length) in E. rewrite length_drop in E.
  unfold zlen in *. simpl in E. lia.
Qed.

(** One round of the reader, told by its queue of lines: the queue holds
    the bytes of the buffer and of the data in order; without data all of
    it is yielded, with data all but its last line, which becomes the new
    buffer and is not empty. *)
Lemma chunk_queue (L : Z) (buffer data : bytes)
    (out : list (bytes * bytes)) (buffer' : bytes) :
  MultipartParser.chunk L buffer data = Ok (out, buffer') ->
  exists queue,
    MultipartParser.split_first L (splitlines (buffer ++ data)) = Ok queue
    /\ concat queue = buffer ++ data
    /\ ((data = [] /\ out = map MultipartParser.emit queue
         /\ buffer' = buffer)
        \/ (data <> [] /\ buffer' <> [] /\ exists before,
              queue = before ++ [buffer']
              /\ out = map MultipartParser.emit before)).
Proof.
  unfold MultipartParser.chunk. intros H.
  destruct (splitlines (buffer ++ data)) as [|first rest] eqn:Es;
    [discriminate H|].
  pose proof (splitlines_join (buffer ++ data)) as Hj. rewrite Es in Hj.
  assert (Hne : forall l, l ∈ first :: rest -> l <> []).
  { intros l Hl. rewrite <- Es in Hl.
    apply (splitlines_line_nonempty _ _ l (le_n _) Hl). }
  destruct (split_first_cases L first rest)
    as [[Hle E]|(Hgt & k & Hk & E)]; rewrite E in H |- *; cbn [rbind] in H.
  - exists (first :: rest). split; [reflexivity|]. split; [exact Hj|].
    destruct data as [|c data]; cbn [is_empty negb] in H.
    + injection H as <- <-. left. auto.
    + right. split; [discriminate|].
      destruct (exists_last (l := first :: rest)) as (before & final & Hq);
        [discriminate|].
      rewrite Hq in H. rewrite index_last, slice_init in H. cbn [rbind] in H.
      injection H as <- <-. split.
      { apply Hne. rewrite Hq. apply elem_of_app. right.
        apply list_elem_of_singleton. reflexivity. }
      exists before. auto.
  - eexists. split; [reflexivity|]. split.
    { cbn [concat]. rewrite app_assoc, slice_split. exact Hj. }
    set (front := slice first None (Some k)) in *.
    set (remainder := slice first (Some k) None) in *.
    assert (Hrem : remainder <> []).
    { apply slice_from_nonempty; [|lia].
      assert (first <> []) by (apply Hne; apply list_elem_of_here).
      destruct first; [contradiction|]. unfold zlen. simpl. lia. }
    destruct data as [|c data]; cbn [is_empty negb] in H.
    + injection H as <- <-. left. auto.
    + right. split; [discriminate|].
      destruct (exists_last (l := remainder :: rest)) as (before & final & Hq);
        [discriminate|].
      rewrite Hq, app_comm_cons in H.
      rewrite index_last, slice_init in H. cbn [rbind] in H.
      injection H as <- <-. split.
      { destruct rest as [|r rest'].
        - destruct before as [|b0 [|b1 before]]; cbn in Hq.
          + injection Hq as <-. assumption.
          + injection Hq as _ Hq. discriminate.
          + injection Hq as _ Hq. destruct before; discriminate.
        - apply Hne. apply list_elem_of_further.
          assert (Hin : final ∈ remainder :: r :: rest').
          { rewrite Hq. apply elem_of_app. right.
            apply list_elem_of_singleton. reflexivity. }
          apply elem_of_cons in Hin as [->|Hin]; [|assumption].
          destruct (exists_last (l := r :: rest')) as (b' & f' & Hq');
            [discriminate|].
          rewrite Hq', app_comm_cons in Hq.
          apply app_inj_tail in Hq as [_ <-]. rewrite Hq'.
          apply elem_of_app. right. apply list_elem_of_singleton.
          reflexivity. }
      exists (front :: before). rewrite Hq. auto.
Qed.

Lemma chunk_raises (L : Z) (buffer data : bytes) (e : exn) :
  MultipartParser.chunk L buffer data = Raise e ->
  buffer = [] /\ data = [] /\ e = IndexError.
Proof.
  unfold MultipartParser.chunk. intros H.
  destruct (splitlines (buffer ++ data)) as [|first rest] eqn:Es.
  - apply splitlines_nil_inv in Es. apply app_eq_nil in Es as [-> ->].
    cbn in H. injection H as <-. auto.
  - exfalso.
    destruct (split_first_cases L first rest)
      as [[Hle E]|(Hgt & k & Hk & E)]; rewrite E in H; cbn [rbind] in H.
    + destruct data; cbn [is_empty negb] in H; [discriminate|].
      destruct (exists_last (l := first :: rest)) as (before & final & Hq);
        [discriminate|].
      rewrite Hq, index_last in H. discriminate.
    + destruct data; cbn [is_empty negb] in H; [discriminate|].
      destruct (exists_last
                  (l := slice first (Some k) None :: rest))
        as (before & final & Hq); [discriminate|].
      rewrite Hq, app_comm_cons, index_last in H. discriminate.
Qed.

Lemma split_first_shaped (L : Z) (lines queue : list bytes) :
  Forall line_shaped lines ->
  MultipartParser.split_first L lines = Ok queue ->
  Forall line_shaped queue.
Proof.
  intros Hall H. destruct lines as [|first rest]; [discriminate H|].
  apply Forall_cons in Hall as [Hf Hr].
  destruct (split_first_cases L first rest)
    as [[Hle E]|(Hgt & k & Hk & E)]; rewrite E in H; injection H as <-.
  - apply Forall_cons; auto.
  - rewrite slice_clamp_to, slice_clamp_from.
    repeat apply Forall_cons_2; auto using line_shaped_take, line_shaped_drop.
Qed.

Lemma splitlines_all_shaped (s : bytes) : Forall line_shaped (splitlines s).
Proof.
  apply Forall_forall. intros l Hl. apply (splitlines_line_shaped s l Hl).
Qed.

Lemma emit_join (l : bytes) :
  line_shaped l ->
  fst (MultipartParser.emit l) ++ snd (MultipartParser.emit l) = l.
Proof.
  intros (body & term & -> & Hcr & Hlf & Ht).
  rewrite (emit_shaped body term Hcr Hlf Ht). reflexivity.
Qed.

Lemma emit_all_join (q : list bytes) :
  Forall line_shaped q ->
  concat (map (fun p => fst p ++ snd p) (map MultipartParser.emit q))
  = concat q.
Proof.
  induction 1 as [|l q Hl _ IH]; [reflexivity|].
  cbn [map concat]. rewrite IH, (emit_join l Hl). reflexivity.
Qed.

Lemma line_bytes_lines (out : list (bytes * bytes)) (rest : list line_event) :
  line_bytes (map (fun l => LLine (fst l) (snd l)) out ++ rest)
  = concat (map (fun p => fst p ++ snd p) out) ++ line_bytes rest.
Proof.
  induction out as [|[l nl] out IH]; [reflexivity|].
  cbn [map app line_bytes concat fst snd]. rewrite IH, <- !app_assoc.
  reflexivity.
Qed.

Lemma read_bytes_lines (out : list (bytes * bytes)) (rest : list line_event) :
  read_bytes (map (fun l => LLine (fst l) (snd l)) out ++ rest)
  = read_bytes rest.
Proof. induction out as [|[l nl] out IH]; [reflexivity|exact IH]. Qed.

Lemma raises_lines (out : list (bytes * bytes)) (rest : list line_event) :
  raises (map (fun l => LLine (fst l) (snd l)) out ++ rest) -> raises rest.
Proof.
  intros [e He]. exists e. apply elem_of_app in He as [He|He]; [|assumption].
  apply list_elem_of_fmap in He as (p & Hp & _). discriminate.
Qed.

(** The reader raises only when its very first read brings nothing. *)
Lemma lineiter_loop_raises (L : Z) (fuel : nat) :
  forall stream maxread buffer,
    raises (MultipartParser.lineiter_loop fuel L stream maxread buffer) ->
    buffer = []
    /\ fst (stream_read (if maxread <? 0 then L else L `min` maxread) stream)
       = [].
Proof.
  induction fuel as [|fuel IH]; intros stream maxread buffer [e He].
  - cbn in He. set_solver.
  - cbn [MultipartParser.lineiter_loop] in He.
    destruct (stream_read _ stream) as [data stream'] eqn:Er.
    cbn [fst]. apply elem_of_cons in He as [He|He]; [discriminate|].
    destruct (MultipartParser.chunk L buffer data) as [[out buffer']|e']
      eqn:Ec.
    + exfalso.
      apply chunk_queue in Ec as (queue & _ & _ & [(-> & _ & _)|(Hd & Hb & _)]).
      * cbn [is_empty] in He. rewrite app_nil_r in He.
        apply list_elem_of_fmap in He as (p & Hp & _). discriminate.
      * destruct data as [|c data]; [contradiction|]. cbn [is_empty] in He.
        assert (Hr : raises (MultipartParser.lineiter_loop fuel L stream'
                               (maxread - zlen (c :: data)) buffer')).
        { apply (raises_lines out). exists e. assumption. }
        apply IH in Hr as [Hr _]. contradiction.
    + apply chunk_raises in Ec as (-> & -> & _). auto.
Qed.

(** What the reader yields is what it has buffered and read. *)
Lemma lineiter_loop_lossless (L : Z) (fuel : nat) :
  forall stream maxread buffer,
    (length stream < fuel)%nat ->
    let events := MultipartParser.lineiter_loop fuel L stream maxread buffer in
    ~ raises events ->
    line_bytes events = buffer ++ read_bytes events.
Proof.
  induction fuel as [|fuel IH]; intros stream maxread buffer Hfuel; [lia|].
  cbn [MultipartParser.lineiter_loop]. cbv zeta.
  pose proof (stream_read_shorter
                (if maxread <? 0 then L else L `min` maxread) stream) as Hs.
  destruct (stream_read _ stream) as [data stream'] eqn:Er.
  cbn [fst snd] in Hs.
  destruct (MultipartParser.chunk L buffer data) as [[out buffer']|e] eqn:Ec.
  - intros Hnr. cbn [line_bytes read_bytes].
    rewrite line_bytes_lines, read_bytes_lines.
    destruct (chunk_queue L buffer data out buffer' Ec)
      as (queue & Hq & Hcat & [(-> & -> & ->)|(Hd & Hb & before & -> & ->)]).
    + cbn [is_empty line_bytes read_bytes]. rewrite !app_nil_r.
      rewrite emit_all_join, Hcat, app_nil_r; [reflexivity|].
      apply (split_first_shaped L _ _ (splitlines_all_shaped _) Hq).
    + destruct data as [|c data]; [contradiction|]. cbn [is_empty].
      specialize (Hs ltac:(discriminate)).
      rewrite (IH stream' _ buffer' ltac:(lia)).
      2:{ intros Hr. apply Hnr. destruct Hr as [e He]. exists e.
          apply list_elem_of_further. apply elem_of_app. right. assumption. }
      assert (Hsh : Forall line_shaped (before ++ [buffer']))
        by apply (split_first_shaped L _ _ (splitlines_all_shaped _) Hq).
      apply Forall_app in Hsh as [Hsh _].
      rewrite emit_all_join by assumption.
      rewrite concat_app in Hcat. cbn [concat] in Hcat.
      rewrite app_nil_r in Hcat.
      rewrite !app_assoc. rewrite Hcat. reflexivity.
  - intros Hnr. exfalso. apply Hnr. exists e.
    apply list_elem_of_further, list_elem_of_here.
Qed.

(** What the reader reads: the stream, up to [maxread] bytes of it when
    that is not negative. *)
Lemma lineiter_loop_reads (L : Z) (fuel : nat) :
  0 < L ->
  forall stream maxread buffer,
    (length stream < fuel)%nat ->
    read_bytes (MultipartParser.lineiter_loop fuel L stream maxread buffer)
    = if maxread <? 0 then stream else take (Z.to_nat maxread) stream.
Proof.
  intros HL. induction fuel as [|fuel IH];
    intros stream maxread buffer Hfuel; [lia|].
  cbn [MultipartParser.lineiter_loop].
  set (n := if maxread <? 0 then L else L `min` maxread).
  pose proof (stream_read_shorter n stream) as Hs.
  assert (Hn : 0 <= n /\ (maxread < 0 -> n = L)
               /\ (0 <= maxread -> n <= maxread /\ (n = L \/ n = maxread))).
  { subst n. destruct (Z.ltb_spec maxread 0); lia. }
  assert (Hread : stream_read n stream
                  = (take (Z.to_nat n) stream, drop (Z.to_nat n) stream)).
  { unfold stream_read. destruct (Z.ltb_spec n 0); [lia|reflexivity]. }
  rewrite Hread in Hs |- *. cbn [fst snd] in Hs.
  set (data := take (Z.to_nat n) stream) in *.
  assert (Hrest : read_bytes
            (if is_empty data then []
             else MultipartParser.lineiter_loop fuel L
                    (drop (Z.to_nat n) stream) (maxread - zlen data)
                    match MultipartParser.chunk L buffer data with
                    | Ok (_, b) => b | Raise _ => [] end)
          = drop (length data)
              (if maxread <? 0 then stream
               else take (Z.to_nat maxread) stream)).
  { destruct data as [|c data'] eqn:Ed; cbn [is_empty read_bytes].
    - (* nothing more to read *)
      subst data. apply take_nil_inv in Ed.
      destruct (Z.ltb_spec maxread 0) as [Hneg|Hpos].
      + destruct Ed as [Ed| ->]; [lia|reflexivity].
      + destruct Ed as [Ed| ->]; [|rewrite take_nil; reflexivity].
        assert (maxread = 0) by lia. subst maxread. reflexivity.
    - rewrite <- Ed in *. specialize (Hs ltac:(rewrite Ed; discriminate)).
      rewrite IH by lia.
      assert (Hlen : length data = (Z.to_nat n `min` length stream)%nat)
        by (subst data; apply length_take).
      unfold zlen.
      destruct (Z.ltb_spec maxread 0) as [Hneg|Hpos].
      + destruct (Z.ltb_spec (maxread - Z.of_nat (length data)) 0); [|lia].
        rewrite Hlen.
        destruct (Nat.min_spec (Z.to_nat n) (length stream))
          as [[_ ->]|[Hge ->]]; [reflexivity|].
        rewrite !drop_ge by lia. reflexivity.
      + destruct (Z.ltb_spec (maxread - Z.of_nat (length data)) 0); [lia|].
        rewrite Hlen.
        destruct (Nat.min_spec (Z.to_nat n) (length stream))
          as [[Hlt ->]|[Hge ->]].
        * rewrite take_drop_commute. do 2 f_equal. lia.
        * rewrite !drop_ge by (rewrite ?length_take; lia).
          rewrite take_nil. reflexivity. }
  cbn [read_bytes].
  assert (Hdata : data ++ drop (length data)
                    (if maxread <? 0 then stream
                     else take (Z.to_nat maxread) stream)
                  = if maxread <? 0 then stream
                    else take (Z.to_nat maxread) stream).
  { subst data. destruct (Z.ltb_spec maxread 0) as [Hneg|Hpos].
    - rewrite length_take.
      destruct (Nat.min_spec (Z.to_nat n) (length stream))
        as [[_ ->]|[Hge ->]]; [apply take_drop|].
      rewrite take_ge, drop_ge by lia. apply app_nil_r.
    - destruct Hn as (_ & _ & Hn). specialize (Hn Hpos).
      replace (take (Z.to_nat n) stream)
        with (take (Z.to_nat n) (take (Z.to_nat maxread) stream))
        by (rewrite take_take; f_equal; lia).
      rewrite length_take. 
      destruct (Nat.min_spec (Z.to_nat n)
                  (length (take (Z.to_nat maxread) stream)))
        as [[_ ->]|[Hge ->]]; [apply take_drop|].
      rewrite take_ge, drop_ge by lia. apply app_nil_r. }
  etransitivity; [|exact Hdata]. f_equal.
  destruct (MultipartParser.chunk L buffer data) as [[out buffer']|e] eqn:Ec.
  - rewrite read_bytes_lines. exact Hrest.
  - apply chunk_raises in Ec as (_ & Ed & _). rewrite Ed in *.
    cbn [read_bytes is_empty] in *. exact Hrest.
Qed.

(** The lines of a buffered line followed by new data: the first one is no
    longer than the two together, the others lie within the data. *)
Lemma splitlines_first_rest (b d : bytes) (first : bytes)
    (rest : list bytes) :
  line_shaped b ->
  splitlines (b ++ d) = first :: rest ->
  zlen first <= zlen b + zlen d
  /\ Forall (fun l => zlen l <= zlen d) rest.
Proof.
  intros Hb E.
  assert (Hcat : concat (first :: rest) = b ++ d)
    by (rewrite <- E; apply splitlines_join).
  split.
  - rewrite <- zlen_app, <- Hcat. cbn [concat]. rewrite zlen_app.
    pose proof (zlen_nonneg (concat rest)). lia.
  - destruct b as [|c b].
    + apply Forall_forall. intros l Hl.
      cbn [app] in Hcat. rewrite <- Hcat. cbn [concat]. rewrite zlen_app.
      pose proof (elem_of_concat_length l rest Hl).
      pose proof (zlen_nonneg first). unfold zlen in *. lia.
    + destruct (splitlines_buffer (c :: b) d Hb ltac:(discriminate))
        as (pre & rest' & E' & Hd).
      rewrite E in E'. injection E' as -> ->.
      apply Forall_forall. intros l Hl. rewrite Hd, zlen_app.
      pose proof (elem_of_concat_length l rest' Hl).
      pose proof (zlen_nonneg pre). unfold zlen in *. lia.
Qed.

Lemma split_first_bounded (L : Z) (first : bytes) (rest queue : list bytes) :
  2 <= L ->
  zlen first <= 2 * L ->
  Forall (fun l => zlen l <= L) rest ->
  MultipartParser.split_first L (first :: rest) = Ok queue ->
  Forall (fun l => zlen l <= L) queue.
Proof.
  intros HL Hf Hr H.
  destruct (split_first_cases L first rest)
    as [[Hle E]|(Hgt & k & Hk & E)]; rewrite E in H; injection H as <-.
  - apply Forall_cons; auto.
  - rewrite slice_clamp_to, slice_clamp_from.
    assert (Hc : clamp_index (zlen first) k = k).
    { unfold clamp_index. destruct (Z.ltb_spec k 0); lia. }
    rewrite Hc. repeat apply Forall_cons_2; [| |assumption].
    + unfold zlen in *. rewrite length_take. lia.
    + unfold zlen in *. rewrite length_drop. lia.
Qed.

(** One round of the reader keeps the lines within the buffer size. *)
Lemma chunk_bounded (L : Z) (buffer data : bytes) (queue : list bytes) :
  2 <= L ->
  zlen buffer <= L -> line_shaped buffer -> zlen data <= L ->
  MultipartParser.split_first L (splitlines (buffer ++ data)) = Ok queue ->
  Forall (fun l => zlen l <= L) queue /\ Forall line_shaped queue.
Proof.
  intros HL Hb Hsh Hd H. split.
  - destruct (splitlines (buffer ++ data)) as [|first rest] eqn:E;
      [rewrite split_first_nil in H; discriminate|].
    destruct (splitlines_first_rest buffer data first rest Hsh E)
      as [Hf Hr].
    apply (split_first_bounded L first rest queue HL); [lia| |exact H].
    eapply Forall_impl; [exact Hr|]. cbn. intros; lia.
  - apply (split_first_shaped L _ _ (splitlines_all_shaped _) H).
Qed.

Lemma stream_read_length (n : Z) (s : bytes) :
  0 <= n -> zlen (fst (stream_read n s)) <= n.
Proof.
  intros Hn. unfold stream_read. destruct (Z.ltb_spec n 0); [lia|].
  cbn [fst]. unfold zlen. rewrite length_take. lia.
Qed.

Lemma emit_bounded (L : Z) (l line nl : bytes) :
  zlen l <= L -> line_shaped l ->
  MultipartParser.emit l = (line, nl) ->
  zlen line + zlen nl <= L /\ (CR ∉ line) /\ (LF ∉ line) /\ is_eol nl.
Proof.
  intros Hl (body & term & -> & Hcr & Hlf & Ht) E.
  rewrite (emit_shaped body term Hcr Hlf Ht) in E. injection E as <- <-.
  rewrite zlen_app in Hl. auto.
Qed.

(** Every line the reader yields fits the buffer size together with its
    ending, has no line break inside, and ends in one of the endings. *)
Lemma lineiter_loop_bounded (L : Z) (fuel : nat) :
  2 <= L ->
  forall stream maxread buffer,
    zlen buffer <= L -> line_shaped buffer ->
    forall line nl,
      LLine line nl ∈ MultipartParser.lineiter_loop fuel L stream maxread buffer ->
      zlen line + zlen nl <= L /\ (CR ∉ line) /\ (LF ∉ line) /\ is_eol nl.
Proof.
  intros HL. induction fuel as [|fuel IH];
    intros stream maxread buffer Hb Hsh line nl Hin.
  - cbn in Hin. set_solver.
  - cbn [MultipartParser.lineiter_loop] in Hin.
    set (n := if maxread <? 0 then L else L `min` maxread) in Hin.
    assert (Hdata : zlen (fst (stream_read n stream)) <= L).
    { destruct (Z.le_gt_cases 0 n) as [Hn|Hn].
      - pose proof (stream_read_length n stream Hn).
        subst n. destruct (Z.ltb_spec maxread 0); lia.
      - (* a negative count is the leftover of [content_length]: it is
           impossible here *)
        subst n. destruct (Z.ltb_spec maxread 0); lia. }
    destruct (stream_read n stream) as [data stream'] eqn:Er.
    cbn [fst] in Hdata.
    apply elem_of_cons in Hin as [Hin|Hin]; [discriminate|].
    destruct (MultipartParser.chunk L buffer data) as [[out buffer']|e]
      eqn:Ec.
    2:{ apply list_elem_of_singleton in Hin. discriminate. }
    destruct (chunk_queue L buffer data out buffer' Ec)
      as (queue & Hq & _ & Hcases).
    destruct (chunk_bounded L buffer data queue HL Hb Hsh Hdata Hq)
      as [Hlen Hshq].
    assert (Hout : forall before,
               Forall (fun l => zlen l <= L) before ->
               Forall line_shaped before ->
               LLine line nl
                 ∈ map (fun l => LLine (fst l) (snd l))
                       (map MultipartParser.emit before) ->
               zlen line + zlen nl <= L
               /\ (CR ∉ line) /\ (LF ∉ line) /\ is_eol nl).
    { intros before H1 H2 H.
      apply list_elem_of_fmap in H as ([line' nl'] & E & H).
      cbn [fst snd] in E. injection E as -> ->.
      apply list_elem_of_fmap in H as (l & E & H).
      rewrite Forall_forall in H1, H2.
      apply (emit_bounded L l); auto. }
    apply elem_of_app in Hin as [Hin|Hin].
    + destruct Hcases as [(_ & -> & _)|(_ & _ & before & -> & ->)].
      * apply (Hout queue); assumption.
      * apply Forall_app in Hlen as [Hlen _].
        apply Forall_app in Hshq as [Hshq _].
        apply (Hout before); assumption.
    + destruct Hcases as [(-> & _ & _)|(Hd & _ & before & -> & _)].
      * cbn [is_empty] in Hin. set_solver.
      * destruct data as [|c data]; [contradiction|]. cbn [is_empty] in Hin.
        apply Forall_app in Hlen as [_ Hlen].
        apply Forall_app in Hshq as [_ Hshq].
        apply Forall_inv in Hlen, Hshq.
        apply (IH stream' _ buffer' Hlen Hshq line nl Hin).
Qed.

(** ** The line reader *)

Lemma lineiter_first_read (self : MultipartParser.t) :
  0 < MultipartParser.buffer_size self ->
  MultipartParser.stream self <> [] ->
  MultipartParser.content_length self <> 0 ->
  fst (stream_read
         (if MultipartParser.content_length self <? 0
          then MultipartParser.buffer_size self
          else MultipartParser.buffer_size self
                 `min` MultipartParser.content_length self)
         (MultipartParser.stream self)) <> [].
Proof.
  intros HL Hs Hc. unfold stream_read.
  destruct (MultipartParser.stream self) as [|c s]; [contradiction|].
  set (n := if MultipartParser.content_length self <? 0 then _ else _).
  assert (0 < n)
    by (subst n; destruct (Z.ltb_spec (MultipartParser.content_length self) 0);
        lia).
  destruct (Z.ltb_spec n 0); [lia|]. cbn [fst].
  destruct (Z.to_nat n) eqn:E; [lia|]. discriminate.
Qed.

(** X1: [_lineiter] reads the stream from its start to its end when
    [content_length] is negative, and else no further than
    [content_length] bytes: the results of its [read] calls, put together,
    are the stream or its first [content_length] bytes. *)
Theorem lineiter_reads_content_length (self : MultipartParser.t) :
  0 < MultipartParser.buffer_size self ->
  read_bytes (MultipartParser._lineiter self)
  = if MultipartParser.content_length self <? 0
    then MultipartParser.stream self
    else take (Z.to_nat (MultipartParser.content_length self))
           (MultipartParser.stream self).
Proof.
  intros HL. unfold MultipartParser._lineiter.
  apply lineiter_loop_reads; [assumption|lia].
Qed.

Lemma lineiter_reads_content_length_witness :
  read_bytes (MultipartParser._lineiter lines_parser)
  = T "ab" ++ CRLF ++ [LF] ++ T "cdefghijklm".
Proof.
  exact (lineiter_reads_content_length lines_parser eq_refl).
Defined.

(** X2: on a stream that is not empty, with a [content_length] other than
    zero, [_lineiter] raises nothing and loses nothing: the lines it
    yields, each followed by its ending, are byte for byte what it has
    read. *)
Theorem lineiter_lossless (self : MultipartParser.t) :
  0 < MultipartParser.buffer_size self ->
  MultipartParser.stream self <> [] ->
  MultipartParser.content_length self <> 0 ->
  ~ raises (MultipartParser._lineiter self)
  /\ line_bytes (MultipartParser._lineiter self)
     = read_bytes (MultipartParser._lineiter self).
Proof.
  intros HL Hs Hc.
  assert (Hnr : ~ raises (MultipartParser._lineiter self)).
  { intros Hr. apply lineiter_loop_raises in Hr as [_ Hr].
    apply (lineiter_first_read self HL Hs Hc). exact Hr. }
  split; [exact Hnr|].
  unfold MultipartParser._lineiter in *.
  rewrite lineiter_loop_lossless; [reflexivity|lia|exact Hnr].
Qed.

Lemma lineiter_lossless_witness :
  ~ raises (MultipartParser._lineiter lines_parser)
  /\ line_bytes (MultipartParser._lineiter lines_parser)
     = read_bytes (MultipartParser._lineiter lines_parser).
Proof.
  apply (lineiter_lossless lines_parser);
    [reflexivity|discriminate|discriminate].
Defined.

(** X3: every line [_lineiter] yields fits the buffer together with its
    ending, has neither a carriage return nor a line feed inside, and its
    ending is empty, a line feed, a carriage return, or the two. *)
Theorem lineiter_lines_bounded (self : MultipartParser.t)
    (line nl : bytes) :
  2 <= MultipartParser.buffer_size self ->
  LLine line nl ∈ MultipartParser._lineiter self ->
  zlen line + zlen nl <= MultipartParser.buffer_size self
  /\ (CR ∉ line) /\ (LF ∉ line) /\ is_eol nl.
Proof.
  intros HL Hin. unfold MultipartParser._lineiter in Hin.
  apply (lineiter_loop_bounded _ _ HL _ _ _) in Hin; [exact Hin| |].
  - change (zlen _bempty) with 0. lia.
  - apply line_shaped_nil.
Qed.

Lemma lineiter_lines_bounded_witness :
  zlen (T "cdefghij") + zlen (@nil ascii) <= 8
  /\ (CR ∉ T "cdefghij") /\ (LF ∉ T "cdefghij") /\ is_eol [].
Proof.
  apply (lineiter_lines_bounded lines_parser (T "cdefghij") []).
  - cbn. lia.
  - vm_compute. do 4 apply list_elem_of_further. apply list_elem_of_here.
Defined.

(** X4: a parser made by the constructor over an empty stream, or with a
    [content_length] of zero, raises [IndexError] when its parts are asked
    for: the first [read] brings nothing and [lines[0]] fails.  This is not
    the error of the module. *)
Theorem parts_of_nothing (stream boundary : bytes)
    (content_length disk_limit mem_limit memfile_limit buffer_size : Z)
    (charset : text) (self : MultipartParser.t) :
  MultipartParser.__init__ stream boundary content_length disk_limit
    mem_limit memfile_limit buffer_size charset = Ok self ->
  stream = [] \/ content_length = 0 ->
  MultipartParser.parts self = Raise IndexError.
Proof.
  unfold MultipartParser.__init__. intros H Hnone.
  destruct (Z.ltb_spec
              (buffer_size `min` (mem_limit `min` disk_limit) - 6)
              (zlen boundary)) as [|Hfit]; [discriminate|].
  injection H as <-.
  pose proof (zlen_nonneg boundary) as Hb.
  unfold MultipartParser.parts, MultipartParser.iterate,
    MultipartParser._iterparse, MultipartParser._lineiter.
  cbn [MultipartParser._part_iter MultipartParser._done
       MultipartParser.stream MultipartParser.buffer_size
       MultipartParser.content_length MultipartParser.lineiter_loop].
  set (L := buffer_size `min` (mem_limit `min` disk_limit)) in *.
  assert (Hd : stream_read
                 (if content_length <? 0 then L else L `min` content_length)
                 stream
               = ([], drop (Z.to_nat
                        (if content_length <? 0 then L
                         else L `min` content_length)) stream)).
  { unfold stream_read. destruct Hnone as [-> | ->].
    - destruct (_ <? 0); rewrite ?take_nil, ?drop_nil; reflexivity.
    - cbn. replace (L `min` 0) with 0 by lia. reflexivity. }
  rewrite Hd. unfold MultipartParser.chunk, _bempty. cbn [slice app].
  change (take _ (drop _ _bcrnl)) with (@nil ascii). cbn [app splitlines].
  rewrite split_first_nil. reflexivity.
Qed.

Lemma parts_of_nothing_witness :
  MultipartParser.parts
    (MultipartParser.Make [] (T "B") (-1) (2 ^ 30) (2 ^ 18) (2 ^ 20) (2 ^ 16)
       (T "latin1") [] None)
  = Raise IndexError.
Proof.
  apply (parts_of_nothing [] (T "B") (-1) (2 ^ 30) (2 ^ 20) (2 ^ 18) (2 ^ 16)
           (T "latin1")).
  - reflexivity.
  - left. reflexivity.
Defined.

(** ** The parser and its limits *)

Lemma drain_yielded (events : list MultipartParser.event) :
  forall self,
    MultipartParser.yielded (MultipartParser.drain self events)
    = yields events.
Proof.
  induction events as [|[d|q|e] events IH]; intros self;
    cbn [MultipartParser.drain yields MultipartParser.yielded];
    rewrite ?IH; reflexivity.
Qed.

Lemma init_fields (stream boundary : bytes)
    (content_length disk_limit mem_limit memfile_limit buffer_size : Z)
    (charset : text) (self : MultipartParser.t) :
  MultipartParser.__init__ stream boundary content_length disk_limit
    mem_limit memfile_limit buffer_size charset = Ok self ->
  self = MultipartParser.Make stream boundary content_length disk_limit
           memfile_limit (mem_limit `min` disk_limit)
           (buffer_size `min` (mem_limit `min` disk_limit)) charset [] None
  /\ zlen boundary + 6 <= MultipartParser.buffer_size self
  /\ MultipartParser.buffer_size self <= MultipartParser.mem_limit self
  /\ MultipartParser.mem_limit self <= MultipartParser.disk_limit self.
Proof.
  unfold MultipartParser.__init__. intros H.
  destruct (Z.ltb_spec
              (buffer_size `min` (mem_limit `min` disk_limit) - 6)
              (zlen boundary)) as [|Hfit]; [discriminate|].
  injection H as <-. cbn. repeat split; lia.
Qed.

Lemma seal_fields (p q : MultipartPart.t) :
  MultipartPart.seal p = Ok q ->
  MultipartPart.size q = MultipartPart.size p
  /\ MultipartPart.is_buffered q = MultipartPart.is_buffered p.
Proof.
  unfold MultipartPart.seal, MultipartPart.is_buffered.
  destruct p as [hl hs fl sz bf dp nm fn ct cs op cl ml bs].
  cbn. destruct fl; intros [= <-]; cbn; auto.
Qed.

Lemma mem_total_cons (p : MultipartPart.t) (ps : list MultipartPart.t) :
  mem_total (p :: ps)
  = (if MultipartPart.is_buffered p then MultipartPart.size p else 0)
    + mem_total ps.
Proof. reflexivity. Qed.

Lemma disk_total_cons (p : MultipartPart.t) (ps : list MultipartPart.t) :
  disk_total (p :: ps)
  = (if MultipartPart.is_buffered p then 0 else MultipartPart.size p)
    + disk_total ps.
Proof. reflexivity. Qed.

(** The main loop keeps the parts it yields within what is left of the
    limits. *)
Lemma iterparse_loop_limits (self : MultipartParser.t)
    (lines : list line_event) :
  forall v,
    MultipartParser.mem_used v <= MultipartParser.mem_limit self ->
    MultipartParser.disk_used v <= MultipartParser.disk_limit self ->
    (if MultipartPart.is_buffered (MultipartParser.part v)
     then MultipartPart.size (MultipartParser.part v)
          + MultipartParser.mem_used v <= MultipartParser.mem_limit self
     else MultipartPart.size (MultipartParser.part v)
          + MultipartParser.disk_used v <= MultipartParser.disk_limit self) ->
    let ps := yields (MultipartParser.iterparse_loop self v lines) in
    mem_total ps + MultipartParser.mem_used v
      <= MultipartParser.mem_limit self
    /\ disk_total ps + MultipartParser.disk_used v
       <= MultipartParser.disk_limit self.
Proof.
  induction lines as [|[d|line nl|e] lines IH]; intros v Hm Hd Hp;
    cbn [MultipartParser.iterparse_loop]; cbv zeta.
  - destruct (negb _); cbn; lia.
  - cbn [yields]. apply IH; assumption.
  - destruct (text_eqb line (MultipartParser.terminator self)
                && negb (MultipartParser.is_tail v)).
    { destruct (MultipartPart.seal (MultipartParser.part v)) as [q|e] eqn:Es;
        [|cbn; lia].
      destruct (seal_fields _ _ Es) as [Hs Hb].
      cbn [yields]. rewrite mem_total_cons, disk_total_cons, Hs, Hb.
      change (mem_total []) with 0. change (disk_total []) with 0.
      destruct (MultipartPart.is_buffered (MultipartParser.part v)); lia. }
    destruct (text_eqb line (MultipartParser.separator self)
                && negb (MultipartParser.is_tail v)).
    { destruct (MultipartPart.seal (MultipartParser.part v)) as [q|e] eqn:Es.
      2:{ destruct (MultipartPart.is_buffered _); cbn; lia. }
      destruct (seal_fields _ _ Es) as [Hs Hb].
      destruct (MultipartPart.is_buffered (MultipartParser.part v)) eqn:Eb;
        cbn [yields]; rewrite mem_total_cons, disk_total_cons, Hs, Hb;
        match goal with
        | |- context [MultipartParser.iterparse_loop self ?v' lines] =>
            specialize (IH v')
        end;
        cbn [MultipartParser.mem_used MultipartParser.disk_used
             MultipartParser.part MultipartParser.new_part
             MultipartPart.is_buffered MultipartPart.__init__
             MultipartPart.file MultipartPart.size] in IH;
        cbv zeta in IH; lia. }
    destruct (MultipartPart.feed (MultipartParser.part v) line nl)
      as [p [e|]]; [cbn; lia|].
    destruct (MultipartPart.is_buffered p) eqn:Eb.
    + destruct (Z.gtb_spec (MultipartPart.size p + MultipartParser.mem_used v)
                  (MultipartParser.mem_limit self)); [cbn; lia|].
      match goal with
      | |- context [MultipartParser.iterparse_loop self ?v' lines] =>
          apply (IH v')
      end; cbn [MultipartParser.mem_used MultipartParser.disk_used
                MultipartParser.part]; rewrite ?Eb; assumption.
    + destruct (Z.gtb_spec (MultipartPart.size p + MultipartParser.disk_used v)
                  (MultipartParser.disk_limit self)); [cbn; lia|].
      match goal with
      | |- context [MultipartParser.iterparse_loop self ?v' lines] =>
          apply (IH v')
      end; cbn [MultipartParser.mem_used MultipartParser.disk_used
                MultipartParser.part]; rewrite ?Eb; assumption.
  - cbn. lia.
Qed.

Lemma iterparse_start_limits (self : MultipartParser.t)
    (lines : list line_event) :
  0 <= MultipartParser.mem_limit self ->
  0 <= MultipartParser.disk_limit self ->
  forall line,
    let ps := yields (MultipartParser.iterparse_start self line lines) in
    mem_total ps <= MultipartParser.mem_limit self
    /\ disk_total ps <= MultipartParser.disk_limit self.
Proof.
  intros Hm Hd.
  assert (Hfirst : forall line lines,
            let ps :=
              yields
                (if negb (text_eqb line (MultipartParser.separator self))
                 then [MultipartParser.Raised
                         (MultipartError StreamDoesNotStart)]
                 else MultipartParser.iterparse_loop self
                        (MultipartParser.Locals 0 0 false
                           (MultipartParser.new_part self) line) lines) in
            mem_total ps <= MultipartParser.mem_limit self
            /\ disk_total ps <= MultipartParser.disk_limit self).
  { intros line lines'. destruct (negb _); [cbn; lia|].
    pose proof (iterparse_loop_limits self lines'
                  (MultipartParser.Locals 0 0 false
                     (MultipartParser.new_part self) line)) as H.
    cbn in H. cbv zeta. lia. }
  induction lines as [|[d|line' nl|e] lines IH]; intros line;
    cbn [MultipartParser.iterparse_start]; cbv zeta.
  - apply Hfirst.
  - cbn [yields]. apply IH.
  - destruct (negb (is_empty line')); [apply Hfirst|apply IH].
  - cbn. lia.
Qed.

(** X5: the parts a parser made by the constructor yields stay within its
    limits, whatever the stream: the sizes of the yielded parts that are
    in memory add up to [mem_limit] at most, and the sizes of the others
    to [disk_limit] at most, also when the parse ends with an exception. *)
Theorem parts_within_limits (stream boundary : bytes)
    (content_length disk_limit mem_limit memfile_limit buffer_size : Z)
    (charset : text) (self : MultipartParser.t) :
  MultipartParser.__init__ stream boundary content_length disk_limit
    mem_limit memfile_limit buffer_size charset = Ok self ->
  let ps := MultipartParser.yielded (MultipartParser.iterate self) in
  mem_total ps <= MultipartParser.mem_limit self
  /\ disk_total ps <= MultipartParser.disk_limit self.
Proof.
  intros H. destruct (init_fields _ _ _ _ _ _ _ _ _ H) as (E & H1 & H2 & H3).
  pose proof (zlen_nonneg boundary).
  unfold MultipartParser.iterate.
  replace (MultipartParser._part_iter self) with (@None (list MultipartParser.event))
    by (rewrite E; reflexivity).
  replace (MultipartParser._done self) with (@nil MultipartPart.t)
    by (rewrite E; reflexivity).
  cbn [MultipartParser.yielded app]. rewrite drain_yielded.
  apply iterparse_start_limits; lia.
Qed.

Lemma parts_within_limits_witness :
  let run := MultipartParser.iterate spill_self in
  map (fun p => (MultipartPart.is_buffered p, MultipartPart.size p))
    (MultipartParser.yielded run)
  = [(true, 10); (false, 25)]
  /\ MultipartParser.raised run
     = Some (MultipartError UnexpectedEndOfStream)
  /\ mem_total (MultipartParser.yielded run) = 10
  /\ disk_total (MultipartParser.yielded run) = 25
  /\ mem_total (MultipartParser.yielded run) <= 60
  /\ disk_total (MultipartParser.yielded run) <= 2 ^ 30.
Proof.
  cbv zeta. split; [vm_compute; reflexivity|].
  split; [vm_compute; reflexivity|].
  split; [vm_compute; reflexivity|].
  split; [vm_compute; reflexivity|].
  exact (parts_within_limits spill_stream (T "B") (-1) (2 ^ 30) 60 20
           (2 ^ 16) (T "latin1") spill_self eq_refl).
Defined.

(** ** The parts the parser yields *)

Lemma finish_header_filling (p p' : MultipartPart.t) :
  MultipartPart.finish_header p = (p', None) ->
  MultipartPart.size p = 0 ->
  filling (MultipartPart.buffer_size p) (MultipartPart.memfile_limit p) p'
  /\ MultipartPart.file p' <> MultipartPart.NoFile.
Proof.
  destruct p as [hl hs fl sz bf dp nm fn ct cs op cl ml bs].
  unfold MultipartPart.finish_header. cbn. intros H ->.
  destruct (is_empty (headers_get hl _ _)); [discriminate|].
  destruct (parse_options_header (headers_get hl _ _) None)
    as [[disp opts]|]; [|discriminate].
  destruct (parse_options_header (headers_get hl _ _) None)
    as [[ct' opts2]|]; [|discriminate].
  destruct (py_int _) as [n|]; [|discriminate].
  injection H as <-. unfold filling. cbn.
  split; [|discriminate].
  split; [reflexivity|]. split; [reflexivity|]. right.
  split; [|split; [discriminate|]].
  - exists new_file. cbn. repeat split; discriminate.
  - intros Hml. split; [intros _; exact Hml|reflexivity].
Qed.

Lemma write_header_filling (p p' : MultipartPart.t) (line nl : bytes) :
  MultipartPart.write_header p line nl = (p', None) ->
  MultipartPart.file p = MultipartPart.NoFile ->
  MultipartPart.size p = 0 ->
  filling (MultipartPart.buffer_size p) (MultipartPart.memfile_limit p) p'.
Proof.
  intros H Hf Hs. unfold MultipartPart.write_header in H.
  destruct (decode (MultipartPart.charset p) line) as [decoded|];
    [|discriminate].
  destruct (is_empty nl); [discriminate|].
  destruct (is_empty (strip decoded)).
  { apply (finish_header_filling p p' H Hs). }
  assert (Hkeep : forall h,
            filling (MultipartPart.buffer_size p)
              (MultipartPart.memfile_limit p)
              (MultipartPart.set_headerlist p h)).
  { intros h. unfold filling. cbn. auto. }
  destruct decoded as [|c l]; [discriminate|].
  destruct (contains_ch c [SPACE; TAB]
            && negb (is_empty (MultipartPart.headerlist p))).
  { destruct (last (MultipartPart.headerlist p)) as [[name value]|];
      [|discriminate].
    injection H as <-. apply Hkeep. }
  destruct (negb (contains_ch ":"%char (c :: l))); [discriminate|].
  destruct (split1 ":"%char (c :: l)) as [name [value|]]; [|discriminate].
  injection H as <-. apply Hkeep.
Qed.

Lemma body_part_buffered (mem : bool) (d : bytes) (p : MultipartPart.t) :
  MultipartPart.is_buffered (body_part mem d p) = mem
  /\ MultipartPart.disposition (body_part mem d p)
     = MultipartPart.disposition p
  /\ MultipartPart.buffer_size (body_part mem d p)
     = MultipartPart.buffer_size p.
Proof. destruct mem; cbn; auto. Qed.

Lemma write_body_filling (p p' : MultipartPart.t) (line nl : bytes) :
  MultipartPart.write_body p line nl = (p', None) ->
  MultipartPart.buffer_size p <> 0 ->
  filling (MultipartPart.buffer_size p) (MultipartPart.memfile_limit p) p ->
  in_body p ->
  filling (MultipartPart.buffer_size p) (MultipartPart.memfile_limit p) p'
  /\ in_body p'.
Proof.
  intros H Hbs (_ & _ & Hphase) Hbody.
  assert (Hp : MultipartPart.disposition p <> None
               /\ (0 <= MultipartPart.memfile_limit p ->
                   (MultipartPart.is_buffered p = true
                    <-> MultipartPart.size p
                        <= MultipartPart.memfile_limit p))).
  { destruct Hphase as [[Hno _]|(_ & H1 & H2)]; [|auto].
    destruct Hbody as (f & Hf & _). rewrite Hno in Hf. discriminate. }
  destruct Hp as [Hdisp Hmem].
  destruct (in_body_shape p Hbody) as (mem & d & N & Hshape & Hcl).
  destruct (body_part_fields mem d p) as (Fs & _ & _ & _ & _ & _ & _).
  destruct (body_part_buffered mem d p) as (Fb & _ & _).
  rewrite <- Hshape in Fs, Fb.
  rewrite Hshape, (write_body_eq mem d p N line nl Hcl Hbs) in H.
  set (q := MultipartPart.set_body p MultipartPart.NoFile 0 nl) in H.
  assert (Hq : forall mem' d',
            MultipartPart.content_length (body_part mem' d' q) <> None
            /\ MultipartPart.buffer_size (body_part mem' d' q)
               = MultipartPart.buffer_size p
            /\ MultipartPart.memfile_limit (body_part mem' d' q)
               = MultipartPart.memfile_limit p
            /\ MultipartPart.disposition (body_part mem' d' q) <> None
            /\ MultipartPart.is_buffered (body_part mem' d' q) = mem'
            /\ MultipartPart.size (body_part mem' d' q) = zlen d'
            /\ in_body (body_part mem' d' q)).
  { intros mem' d'.
    assert (MultipartPart.content_length q <> None)
      by (subst q; cbn; congruence).
    destruct mem'; cbn; repeat split; try congruence;
      try (exists (File d' (length d')); cbn; auto). }
  destruct (is_empty line && is_empty nl).
  { injection H as <-. rewrite <- Hshape.
    split; [|exact Hbody]. unfold filling. auto. }
  cbv zeta in H.
  set (d' := d ++ MultipartPart._buf p ++ line) in H.
  assert (Hlen : zlen d <= zlen d').
  { subst d'. rewrite !zlen_app.
    pose proof (zlen_nonneg (MultipartPart._buf p)).
    pose proof (zlen_nonneg line). lia. }
  destruct ((N >? 0) && (zlen d' >? N)); [discriminate|].
  destruct (Z.gtb_spec (zlen d') (MultipartPart.memfile_limit p)) as [Hgt|Hle];
    cbn [andb] in H.
  - destruct mem; injection H as <-;
      destruct (Hq false d') as (H1 & H2 & H3 & H4 & H5 & H6 & H7);
      (split; [|exact H7]); unfold filling;
      (split; [exact H2|]); (split; [exact H3|]); right;
      (split; [exact H7|]); (split; [exact H4|]);
      intros _; rewrite H5, H6; (split; [discriminate|lia]).
  - injection H as <-.
    destruct (Hq mem d') as (H1 & H2 & H3 & H4 & H5 & H6 & H7).
    split; [|exact H7]. unfold filling.
    split; [exact H2|]. split; [exact H3|]. right.
    split; [exact H7|]. split; [exact H4|].
    intros Hml. rewrite H5, H6. specialize (Hmem Hml).
    rewrite Fb, Fs in Hmem. destruct mem.
    + split; [intros _; exact Hle|reflexivity].
    + split; [discriminate|]. intros _. apply Hmem. lia.
Qed.

Lemma feed_filling (bs ml : Z) (p p' : MultipartPart.t) (line nl : bytes) :
  bs <> 0 ->
  filling bs ml p ->
  MultipartPart.feed p line nl = (p', None) ->
  filling bs ml p'.
Proof.
  intros Hbs Hfill H. pose proof Hfill as (<- & <- & Hphase).
  unfold MultipartPart.feed in H.
  destruct Hphase as [[Hno Hsz]|(Hbody & _)].
  - rewrite Hno in H. apply (write_header_filling p p' line nl H Hno Hsz).
  - assert (Hf : MultipartPart.file p <> MultipartPart.NoFile).
    { destruct Hbody as (f & Hf & _). intros E. rewrite E in Hf.
      discriminate. }
    assert (H' : MultipartPart.write_body p line nl = (p', None))
      by (destruct (MultipartPart.file p); [contradiction|exact H|exact H]).
    apply (write_body_filling p p' line nl H' Hbs Hfill Hbody).
Qed.

Lemma seal_sealed (bs ml : Z) (p q : MultipartPart.t) :
  filling bs ml p -> MultipartPart.seal p = Ok q -> sealed q.
Proof.
  intros (_ & Hml & Hphase) H. unfold MultipartPart.seal in H.
  destruct Hphase as [[Hno _]|((f & Hf & Hpos & Hsz & Hcl) & Hdisp & Hmem)].
  { rewrite Hno in H. discriminate. }
  destruct p as [hl hs fl sz bf dp nm fn ct cs op cl ml' bs'].
  cbn in *. subst ml'.
  destruct fl as [|g|g]; [discriminate| |]; injection H as <-;
    cbn in Hf; injection Hf as ->; exists (file_seek f 0); cbn;
    repeat split; auto; try apply Hmem; auto.
Qed.

Lemma iterparse_loop_sealed (self : MultipartParser.t)
    (lines : list line_event) :
  MultipartParser.buffer_size self <> 0 ->
  forall v,
    filling (MultipartParser.buffer_size self)
      (MultipartParser.memfile_limit self) (MultipartParser.part v) ->
    Forall sealed (yields (MultipartParser.iterparse_loop self v lines)).
Proof.
  intros Hbs.
  assert (Hnew : filling (MultipartParser.buffer_size self)
                   (MultipartParser.memfile_limit self)
                   (MultipartParser.new_part self)).
  { unfold filling. cbn. auto. }
  induction lines as [|[d|line nl|e] lines IH]; intros v Hv;
    cbn [MultipartParser.iterparse_loop].
  - destruct (negb _); constructor.
  - cbn [yields]. apply IH, Hv.
  - destruct (text_eqb line (MultipartParser.terminator self)
                && negb (MultipartParser.is_tail v)).
    { destruct (MultipartPart.seal (MultipartParser.part v)) as [q|e] eqn:Es;
        [|constructor].
      cbn [yields]. constructor; [|constructor].
      apply (seal_sealed _ _ _ _ Hv Es). }
    destruct (text_eqb line (MultipartParser.separator self)
                && negb (MultipartParser.is_tail v)).
    { destruct (MultipartPart.is_buffered (MultipartParser.part v));
        (destruct (MultipartPart.seal (MultipartParser.part v)) as [q|e] eqn:Es;
         [|constructor]);
        cbn [yields]; (constructor; [apply (seal_sealed _ _ _ _ Hv Es)|]);
        apply IH; exact Hnew. }
    destruct (MultipartPart.feed (MultipartParser.part v) line nl)
      as [p [e|]] eqn:Ef; [constructor|].
    pose proof (feed_filling _ _ _ _ _ _ Hbs Hv Ef) as Hp.
    destruct (MultipartPart.is_buffered p);
      match goal with
      | |- context [if ?c then _ else _] => destruct c
      end; try constructor; apply IH; exact Hp.
  - constructor.
Qed.

Lemma iterparse_start_sealed (self : MultipartParser.t)
    (lines : list line_event) :
  MultipartParser.buffer_size self <> 0 ->
  forall line,
    Forall sealed (yields (MultipartParser.iterparse_start self line lines)).
Proof.
  intros Hbs.
  assert (Hfirst : forall line lines,
            Forall sealed
              (yields
                 (if negb (text_eqb line (MultipartParser.separator self))
                  then [MultipartParser.Raised
                          (MultipartError StreamDoesNotStart)]
                  else MultipartParser.iterparse_loop self
                         (MultipartParser.Locals 0 0 false
                            (MultipartParser.new_part self) line) lines))).
  { intros line lines'. destruct (negb _); [constructor|].
    apply iterparse_loop_sealed; [exact Hbs|]. unfold filling. cbn. auto. }
  induction lines as [|[d|line' nl|e] lines IH]; intros line;
    cbn [MultipartParser.iterparse_start].
  - apply Hfirst.
  - cbn [yields]. apply IH.
  - destruct (negb (is_empty line')); [apply Hfirst|apply IH].
  - constructor.
Qed.

(** X6: every part a parser made by the constructor yields is complete:
    its headers are finished (the disposition and the declared length are
    set), its sink stands at position 0, [size] is the number of bytes in
    the sink, and, for a [memfile_limit] that is not negative, the part is
    in memory exactly when its size is at most [memfile_limit]. *)
Theorem yielded_parts_sealed (stream boundary : bytes)
    (content_length disk_limit mem_limit memfile_limit buffer_size : Z)
    (charset : text) (self : MultipartParser.t) :
  MultipartParser.__init__ stream boundary content_length disk_limit
    mem_limit memfile_limit buffer_size charset = Ok self ->
  Forall sealed (MultipartParser.yielded (MultipartParser.iterate self)).
Proof.
  intros H. destruct (init_fields _ _ _ _ _ _ _ _ _ H) as (E & H1 & H2 & H3).
  pose proof (zlen_nonneg boundary).
  unfold MultipartParser.iterate.
  replace (MultipartParser._part_iter self)
    with (@None (list MultipartParser.event)) by (rewrite E; reflexivity).
  replace (MultipartParser._done self) with (@nil MultipartPart.t)
    by (rewrite E; reflexivity).
  cbn [MultipartParser.yielded app]. rewrite drain_yielded.
  apply iterparse_start_sealed. lia.
Qed.

Lemma yielded_parts_sealed_witness :
  Forall sealed
    (MultipartParser.yielded (MultipartParser.iterate scenario_parser)).
Proof.
  exact (yielded_parts_sealed scenario_stream (T "B") (-1) (2 ^ 30) (2 ^ 20)
           (2 ^ 18) (2 ^ 16) (T "latin1") scenario_parser eq_refl).
Defined.

(** ** What the parser reads *)

Lemma drain_reads (events : list MultipartParser.event) :
  forall self,
    let r := MultipartParser.drain self events in
    MultipartParser.reads r = reads_of events
    /\ MultipartParser.stream (MultipartParser.after r)
       = drop (length (concat (reads_of events)))
           (MultipartParser.stream self).
Proof.
  induction events as [|[d|q|e] events IH]; intros self;
    cbn [MultipartParser.drain reads_of MultipartParser.reads
         MultipartParser.after].
  - split; reflexivity.
  - destruct (IH (MultipartParser.set_iter self
                    (drop (length d) (MultipartParser.stream self))
                    (MultipartParser._done self) (Some events))) as [H1 H2].
    cbv zeta in H1, H2. rewrite H1, H2. split; [reflexivity|].
    cbn [concat MultipartParser.set_iter MultipartParser.stream].
    rewrite length_app, drop_drop. reflexivity.
  - destruct (IH (MultipartParser.set_iter self (MultipartParser.stream self)
                    (MultipartParser._done self ++ [q]) (Some events)))
      as [H1 H2].
    cbv zeta in H1, H2. rewrite H1, H2. split; reflexivity.
  - split; reflexivity.
Qed.

Lemma prefix_drop {A} (c s : list A) :
  c `prefix_of` s -> c ++ drop (length c) s = s.
Proof. intros [k ->]. rewrite drop_app_length. reflexivity. Qed.

Lemma iterparse_loop_reads_prefix (self : MultipartParser.t)
    (lines : list line_event) :
  forall v,
    concat (reads_of (MultipartParser.iterparse_loop self v lines))
      `prefix_of` read_bytes lines.
Proof.
  induction lines as [|[d|line nl|e] lines IH]; intros v;
    cbn [MultipartParser.iterparse_loop read_bytes].
  - destruct (negb _); apply prefix_nil.
  - cbn [reads_of concat]. apply prefix_app, IH.
  - repeat match goal with
           | |- context [if ?c then _ else _] => destruct c
           | |- context [match MultipartPart.seal ?p with _ => _ end] =>
               destruct (MultipartPart.seal p)
           | |- context [match MultipartPart.feed ?p ?l ?n with _ => _ end] =>
               destruct (MultipartPart.feed p l n) as [? [?|]]
           end; cbn [reads_of concat]; try apply prefix_nil; apply IH.
  - apply prefix_nil.
Qed.

Lemma iterparse_start_reads_prefix (self : MultipartParser.t)
    (lines : list line_event) :
  forall line,
    concat (reads_of (MultipartParser.iterparse_start self line lines))
      `prefix_of` read_bytes lines.
Proof.
  induction lines as [|[d|line' nl|e] lines IH]; intros line;
    cbn [MultipartParser.iterparse_start read_bytes].
  - destruct (negb _); [apply prefix_nil|].
    apply (iterparse_loop_reads_prefix self []).
  - cbn [reads_of concat]. apply prefix_app, IH.
  - destruct (negb (is_empty line')); [|apply IH].
    destruct (negb _); [apply prefix_nil|].
    apply iterparse_loop_reads_prefix.
  - apply prefix_nil.
Qed.

(** X7: a parser made by the constructor reads the stream from its start,
    never more than [content_length] bytes of it when that is not
    negative, and what it has not read is left in the stream. *)
Theorem parser_reads_within_content_length (stream boundary : bytes)
    (content_length disk_limit mem_limit memfile_limit buffer_size : Z)
    (charset : text) (self : MultipartParser.t) :
  MultipartParser.__init__ stream boundary content_length disk_limit
    mem_limit memfile_limit buffer_size charset = Ok self ->
  let r := MultipartParser.iterate self in
  let data := concat (MultipartParser.reads r) in
  data `prefix_of` (if content_length <? 0 then stream
                    else take (Z.to_nat content_length) stream)
  /\ stream = data ++ MultipartParser.stream (MultipartParser.after r).
Proof.
  intros H. destruct (init_fields _ _ _ _ _ _ _ _ _ H) as (E & H1 & H2 & H3).
  pose proof (zlen_nonneg boundary) as Hb.
  pose proof (lineiter_loop_reads (MultipartParser.buffer_size self)
                (S (length stream)) ltac:(lia) stream content_length _bempty
                ltac:(lia)) as Hreads.
  cbv zeta. unfold MultipartParser.iterate.
  replace (MultipartParser._part_iter self)
    with (@None (list MultipartParser.event)) by (rewrite E; reflexivity).
  cbn [MultipartParser.reads MultipartParser.after].
  destruct (drain_reads (MultipartParser._iterparse self) self) as [R1 R2].
  rewrite R1, R2.
  assert (Hpre : concat (reads_of (MultipartParser._iterparse self))
                   `prefix_of` (if content_length <? 0 then stream
                                else take (Z.to_nat content_length) stream)).
  { rewrite <- Hreads. unfold MultipartParser._iterparse.
    replace (MultipartParser._lineiter self)
      with (MultipartParser.lineiter_loop (S (length stream))
              (MultipartParser.buffer_size self) stream content_length
              _bempty)
      by (rewrite E; reflexivity).
    apply iterparse_start_reads_prefix. }
  split; [exact Hpre|].
  replace (MultipartParser.stream self) with stream by (rewrite E; reflexivity).
  symmetry. 
  assert (Hpre' : concat (reads_of (MultipartParser._iterparse self))
                    `prefix_of` stream).
  { etransitivity; [exact Hpre|]. destruct (content_length <? 0);
      [reflexivity|]. apply prefix_take. }
  apply prefix_drop, Hpre'.
Qed.

Lemma parser_reads_within_content_length_witness :
  let r := MultipartParser.iterate limit_self in
  let data := concat (MultipartParser.reads r) in
  data `prefix_of` limit_stream
  /\ limit_stream = data ++ MultipartParser.stream (MultipartParser.after r).
Proof.
  exact (parser_reads_within_content_length limit_stream (T "B") (-1)
           (2 ^ 30) 30 (2 ^ 18) (2 ^ 16) (T "latin1") limit_self eq_refl).
Defined.

(** ** [get] and [get_all] *)

Lemma find_app_none {A} (f : A -> bool) (l k : list A) :
  List.find f l = None -> List.find f (l ++ k) = List.find f k.
Proof.
  induction l as [|x l IH]; [reflexivity|]. cbn.
  destruct (f x); [discriminate|exact IH].
Qed.

Lemma find_app_some {A} (f : A -> bool) (l k : list A) (a : A) :
  List.find f l = Some a -> List.find f (l ++ k) = Some a.
Proof.
  induction l as [|x l IH]; [discriminate|]. cbn.
  destruct (f x); [auto|exact IH].
Qed.

Lemma find_head_filter {A} (f : A -> bool) (l : list A) :
  List.find f l = head (List.filter f l).
Proof.
  induction l as [|x l IH]; [reflexivity|]. cbn.
  destruct (f x); [reflexivity|exact IH].
Qed.

Lemma drain_raised (events : list MultipartParser.event) :
  forall self self0,
    MultipartParser.raised (MultipartParser.drain self events)
    = MultipartParser.raised (MultipartParser.drain self0 events).
Proof.
  induction events as [|[d|q|e] events IH]; intros self self0;
    cbn [MultipartParser.drain MultipartParser.raised]; auto.
Qed.

(** The loop of [get] against a full iteration over the same events. *)
Lemma find_part_drain (name : option text)
    (events : list MultipartParser.event) :
  forall self,
    let r := MultipartParser.drain self events in
    let '(res, self') := MultipartParserLookup.find_part name self events in
    res = match List.find (MultipartParserLookup.name_eqb name)
                  (MultipartParser.yielded r) with
          | Some p => Ok (Some p)
          | None =>
              match MultipartParser.raised r with
              | Some e => Raise e
              | None => Ok None
              end
          end
    /\ exists it,
         MultipartParser._part_iter self' = Some it
         /\ MultipartParser._done self' ++ yields it
            = MultipartParser._done self ++ MultipartParser.yielded r.
Proof.
  induction events as [|[d|q|e] events IH]; intros self;
    cbn [MultipartParserLookup.find_part MultipartParser.drain
         MultipartParser.yielded MultipartParser.raised List.find].
  - split; [reflexivity|]. exists []. split; reflexivity.
  - specialize (IH (MultipartParser.set_iter self
                      (drop (length d) (MultipartParser.stream self))
                      (MultipartParser._done self) (Some events))).
    cbv zeta in IH. destruct (MultipartParserLookup.find_part _ _ _).
    exact IH.
  - destruct (MultipartParserLookup.name_eqb name q).
    + split; [reflexivity|]. exists events. split; [reflexivity|].
      cbn [MultipartParser.set_iter MultipartParser._done].
      rewrite drain_yielded, <- app_assoc. reflexivity.
    + specialize (IH (MultipartParser.set_iter self
                        (MultipartParser.stream self)
                        (MultipartParser._done self ++ [q]) (Some events))).
      cbv zeta in IH. destruct (MultipartParserLookup.find_part _ _ _).
      destruct IH as [H1 (it & H2 & H3)]. split; [exact H1|].
      exists it. split; [exact H2|]. rewrite H3.
      cbn [MultipartParser.set_iter MultipartParser._done].
      rewrite <- app_assoc. reflexivity.
  - split; [reflexivity|]. exists []. split; reflexivity.
Qed.

(** What [get] returns and what it leaves, against a full iteration. *)
Lemma get_iterate (self : MultipartParser.t) (name : option text) :
  let r := MultipartParser.iterate self in
  fst (MultipartParserLookup.get self name)
  = match List.find (MultipartParserLookup.name_eqb name)
            (MultipartParser.yielded r) with
    | Some p => Ok (Some p)
    | None =>
        match MultipartParser.raised r with
        | Some e => Raise e
        | None => Ok None
        end
    end
  /\ MultipartParser.yielded
       (MultipartParser.iterate (snd (MultipartParserLookup.get self name)))
     = MultipartParser.yielded r.
Proof.
  cbv zeta. unfold MultipartParserLookup.get, MultipartParser.iterate.
  set (it := match MultipartParser._part_iter self with
             | Some it => it
             | None => MultipartParser._iterparse self
             end).
  cbn [MultipartParser.yielded MultipartParser.raised
       MultipartParser.set_iter MultipartParser._done].
  destruct (List.find (MultipartParserLookup.name_eqb name)
              (MultipartParser._done self)) as [p|] eqn:Ef.
  - cbn [fst snd MultipartParser.set_iter MultipartParser._part_iter
         MultipartParser._done].
    rewrite (find_app_some _ _ _ _ Ef), !drain_yielded. auto.
  - rewrite (find_app_none _ _ _ Ef).
    pose proof (find_part_drain name it
                  (MultipartParser.set_iter self (MultipartParser.stream self)
                     (MultipartParser._done self) (Some it))) as H.
    cbv zeta in H.
    destruct (MultipartParserLookup.find_part name _ it) as [res self'].
    destruct H as [H1 (it' & H2 & H3)]. cbn [fst snd].
    rewrite !drain_yielded in *.
    rewrite (drain_raised it _ self) in H1. split; [exact H1|].
    rewrite H2. exact H3.
Qed.

(** X8: [get(name)] returns the first part of that name among the parts a
    full iteration would yield; where there is none it raises what the
    iteration raises, or returns the default.  It loses nothing: iterating
    the parser after the call yields the same parts as iterating it
    instead of the call. *)
Theorem get_first_match (self : MultipartParser.t) (name : option text) :
  let r := MultipartParser.iterate self in
  let '(res, self') := MultipartParserLookup.get self name in
  res = match List.find (MultipartParserLookup.name_eqb name)
                (MultipartParser.yielded r) with
        | Some p => Ok (Some p)
        | None =>
            match MultipartParser.raised r with
            | Some e => Raise e
            | None => Ok None
            end
        end
  /\ MultipartParser.yielded (MultipartParser.iterate self')
     = MultipartParser.yielded r.
Proof.
  pose proof (get_iterate self name) as H. cbv zeta in H |- *.
  destruct (MultipartParserLookup.get self name) as [res self'].
  exact H.
Qed.

(** X9: when [get_all(name)] returns a list, [get(name)] returns its first
    element, or the default when the list is empty. *)
Theorem get_head_of_get_all (self : MultipartParser.t)
    (name : option text) (ps : list MultipartPart.t) :
  fst (MultipartParserLookup.get_all self name) = Ok ps ->
  fst (MultipartParserLookup.get self name) = Ok (head ps).
Proof.
  unfold MultipartParserLookup.get_all. cbn [fst]. intros H.
  destruct (get_iterate self name) as [Hget _]. rewrite Hget.
  destruct (MultipartParser.raised (MultipartParser.iterate self));
    [discriminate|].
  injection H as <-. rewrite find_head_filter.
  destruct (head _); reflexivity.
Qed.

Lemma get_head_of_get_all_witness :
  fst (MultipartParserLookup.get scenario_parser (Some (T "a")))
  = Ok (head (MultipartParser.yielded (MultipartParser.iterate scenario_parser))).
Proof.
  apply (get_head_of_get_all scenario_parser (Some (T "a"))).
  vm_compute. reflexivity.
Defined.

(** ** The end of the headers of a part *)

(** [parse_options_header] raises nothing. *)
Lemma parse_options_header_total (header : text) :
  exists ctype options,
    parse_options_header header None = Ok (ctype, options).
Proof.
  unfold parse_options_header.
  destruct (contains_ch ";"%char header) eqn:E; cbn [negb]; [|eauto].
  apply contains_ch_elem in E.
  pose proof (split1_spec ";"%char header) as Hs.
  destruct (split1 ";"%char header) as [ctype [tail|]];
    [|destruct Hs as [_ Hs]; contradiction].
  destruct (record_options_spec (finditer _re_option tail))
    with (options0 := (∅ : dict)) as (options & Hfold & _).
  { intros m Hm. apply finditer_option_fragment in Hm as (g1 & g2 & -> & F).
    exists g1, g2. split; [reflexivity|].
    destruct F as (? & ? & ? & ? & ? & _ & _ & _ & _ & _ & _ & _ & V).
    apply is_value_nonempty. assumption. }
  exists ctype, options. change (default ∅ None) with (∅ : dict).
  rewrite Hfold. reflexivity.
Qed.

Lemma py_int_raises (s : text) (e : exn) :
  py_int s = Raise e -> e = ValueError.
Proof.
  unfold py_int. destruct (strip s) as [|c s'].
  - cbn. intros [= <-]. reflexivity.
  - destruct (ch_eqb c "-"%char); [|destruct (ch_eqb c "+"%char)];
      destruct (_ || _); intros [= <-]; reflexivity.
Qed.

(** What [decode] returns is the line itself. *)
Lemma decode_ok (charset : text) (line : bytes) (decoded : text) :
  decode charset line = Ok decoded -> decoded = line.
Proof.
  unfold decode.
  repeat match goal with
         | |- context [if ?b then _ else _] => destruct b
         end; intros [= <-]; reflexivity.
Qed.

Lemma decode_latin1 (line : bytes) : decode (T "latin1") line = Ok line.
Proof. reflexivity. Qed.

(** X10: the blank line that ends the headers of a part, for a line that
    the charset of the part decodes (under latin1 every line is decoded;
    the decoding comes first, and what it raises leaves the part as it
    was).  The sink in memory is made first.  The call then raises the
    error of the module when there is no [Content-Disposition] header or
    its value is empty, raises [ValueError] when the value of
    [Content-Length] is no integer, and otherwise returns with the
    declared length set (-1 when the header is absent), the size still 0
    and the header list as it was. *)
Theorem end_of_headers (p : MultipartPart.t) (line nl : bytes)
    (decoded : text) :
  MultipartPart.file p = MultipartPart.NoFile ->
  nl <> [] ->
  decode (MultipartPart.charset p) line = Ok decoded ->
  strip decoded = [] ->
  let hs := MultipartPart.headerlist p in
  let cdis := headers_get hs (T "Content-Disposition") [] in
  let clen := headers_get hs (T "Content-Length") (T "-1") in
  let '(p', e) := MultipartPart.feed p line nl in
  MultipartPart.file p' = MultipartPart.BytesIO new_file
  /\ MultipartPart.headerlist p' = hs
  /\ MultipartPart.size p' = MultipartPart.size p
  /\ e = (if is_empty cdis then Some (MultipartError DispositionMissing)
          else match py_int clen with
               | Ok _ => None
               | Raise _ => Some ValueError
               end)
  /\ (e = None -> Ok <$> MultipartPart.content_length p' = Some (py_int clen)).
Proof.
  intros Hf Hnl Hdec Hblank. cbv zeta.
  unfold MultipartPart.feed, MultipartPart.write_header.
  rewrite Hf, Hdec, Hblank.
  destruct nl as [|c nl']; [contradiction|]. cbn [is_empty].
  destruct p as [hl hs fl sz bf dp nm fn ct cs op cl ml bs].
  unfold MultipartPart.finish_header. cbn.
  destruct (is_empty (headers_get hl _ [])).
  { cbn. repeat split; auto. discriminate. }
  do 2 match goal with
       | |- context [parse_options_header ?h None] =>
           let c := fresh "c" in
           let o := fresh "o" in
           destruct (parse_options_header_total h) as (c & o & ->)
       end.
  destruct (py_int _) as [n|e] eqn:Ei; cbn; repeat split; auto;
    try discriminate.
  apply py_int_raises in Ei. subst e. reflexivity.
Qed.

Lemma end_of_headers_witness :
  let p := MultipartPart.set_headerlist
             (MultipartPart.__init__ 16 8 (T "latin1"))
             [(T "Content-Disposition", T "form-data");
              (T "Content-Length", T "12")] in
  let '(p', e) := MultipartPart.feed p [SPACE] CRLF in
  MultipartPart.file p' = MultipartPart.BytesIO new_file
  /\ MultipartPart.headerlist p' = MultipartPart.headerlist p
  /\ MultipartPart.size p' = MultipartPart.size p
  /\ e = None
  /\ (e = None -> Ok <$> MultipartPart.content_length p' = Some (Ok 12)).
Proof.
  exact (end_of_headers
           (MultipartPart.set_headerlist
              (MultipartPart.__init__ 16 8 (T "latin1"))
              [(T "Content-Disposition", T "form-data");
               (T "Content-Length", T "12")])
           [SPACE] CRLF [SPACE] eq_refl ltac:(discriminate) eq_refl eq_refl).
Defined.

(** ** The body of a part and the line ending held back *)

Lemma is_empty_nil {A} (s : list A) : is_empty s = true -> s = [].
Proof. destruct s; [reflexivity|discriminate]. Qed.

Lemma write_body_pending (p p' : MultipartPart.t) (line nl : bytes) :
  in_body p ->
  MultipartPart.buffer_size p <> 0 ->
  MultipartPart.feed p line nl = (p', None) ->
  in_body p'
  /\ MultipartPart.buffer_size p' = MultipartPart.buffer_size p
  /\ body_data p' ++ MultipartPart._buf p'
     = body_data p ++ MultipartPart._buf p ++ line ++ nl.
Proof.
  intros Hbody Hbs H.
  destruct (in_body_shape p Hbody) as (mem & d & N & Hshape & Hcl).
  destruct (body_part_fields mem d p) as (_ & Fd & Fb & _).
  rewrite <- Hshape in Fd, Fb.
  rewrite Hshape, feed_body_part,
    (write_body_eq mem d p N line nl Hcl Hbs) in H.
  destruct (is_empty line && is_empty nl) eqn:Eskip.
  { injection H as <-. rewrite <- Hshape.
    apply andb_true_iff in Eskip as [E1 E2].
    apply is_empty_nil in E1, E2. subst line nl.
    rewrite !app_nil_r. auto. }
  cbv zeta in H.
  set (q := MultipartPart.set_body p MultipartPart.NoFile 0 nl) in H.
  assert (Hq : forall mem' d',
            in_body (body_part mem' d' q)
            /\ MultipartPart.buffer_size (body_part mem' d' q)
               = MultipartPart.buffer_size p
            /\ body_data (body_part mem' d' q) = d'
            /\ MultipartPart._buf (body_part mem' d' q) = nl).
  { intros mem' d'. split.
    - apply body_part_in_body. subst q. cbn. congruence.
    - destruct mem'; cbn; auto. }
  destruct ((N >? 0) && (zlen _ >? N)); [discriminate|].
  destruct ((zlen _ >? MultipartPart.memfile_limit p) && mem);
    injection H as <-;
    match goal with
    | |- context [body_part ?m ?d' q] =>
        destruct (Hq m d') as (H1 & H2 & H3 & H4)
    end;
    rewrite H3, H4, Fd, <- !app_assoc; auto.
Qed.

(** X11: feeding lines to a part in its body phase whose buffer size is
    not 0 (with a buffer size of 0 a promotion to disk copies nothing and
    the body is lost), as long as no call raises: the sink followed by the
    line ending held back in [_buf] is what they were before followed by
    every line fed with its ending.  The ending of the last line is thus
    never in the sink: this is how the line break before a boundary stays
    out of the body. *)
Theorem body_and_pending_ending (ls : list (bytes * bytes)) :
  forall p p',
    in_body p ->
    MultipartPart.buffer_size p <> 0 ->
    feed_all p ls = (p', None) ->
    body_data p' ++ MultipartPart._buf p'
    = body_data p ++ MultipartPart._buf p
      ++ concat (map (fun l => fst l ++ snd l) ls).
Proof.
  induction ls as [|[line nl] ls IH]; intros p p' Hbody Hbs H.
  - injection H as <-. cbn. rewrite app_nil_r. reflexivity.
  - cbn [feed_all] in H.
    destruct (MultipartPart.feed p line nl) as [p1 [e|]] eqn:Ef;
      [discriminate|].
    destruct (write_body_pending p p1 line nl Hbody Hbs Ef)
      as (Hbody1 & Hbs1 & Hdata).
    rewrite (IH p1 p' Hbody1 ltac:(congruence) H), app_assoc, Hdata.
    cbn [map concat fst snd]. rewrite <- !app_assoc. reflexivity.
Qed.

Lemma body_and_pending_ending_witness :
  let ls := [(T "hello", CRLF); (T "world", CRLF)] in
  let p' := fst (feed_all demo_part ls) in
  body_data p' ++ MultipartPart._buf p'
  = body_data demo_part ++ MultipartPart._buf demo_part
    ++ concat (map (fun l => fst l ++ snd l) ls).
Proof.
  apply (body_and_pending_ending [(T "hello", CRLF); (T "world", CRLF)]
           demo_part
           (fst (feed_all demo_part [(T "hello", CRLF); (T "world", CRLF)]))).
  - exists new_file. vm_compute. repeat split; discriminate.
  - vm_compute. discriminate.
  - vm_compute. reflexivity.
Defined.

(** ** [copy_file] and [save_as] *)

Lemma file_write_app (f : fileobj) (a b : bytes) :
  file_write (file_write f a) b = file_write f (a ++ b).
Proof.
  destruct f as [d p]. unfold file_write. cbn [f_data f_pos].
  set (pre := take p d ++ replicate (p - length d) "000"%char).
  assert (Hpre : length pre = p).
  { subst pre. rewrite length_app, length_take, length_replicate. lia. }
  rewrite !app_assoc. fold pre.
  replace (take (p + length a) ((pre ++ a) ++ drop (p + length a) d))
    with (pre ++ a).
  2:{ rewrite take_app_length'; [reflexivity|].
      rewrite length_app. lia. }
  replace (p + length a - length ((pre ++ a) ++ drop (p + length a) d))%nat
    with 0%nat by (rewrite !length_app; lia).
  cbn [replicate]. rewrite app_nil_r.
  replace (drop (p + length a + length b)
             ((pre ++ a) ++ drop (p + length a) d))
    with (drop (p + length (a ++ b)) d).
  2:{ rewrite drop_app_ge by (rewrite length_app; lia).
      rewrite drop_drop, !length_app. f_equal. lia. }
  rewrite length_app, Nat.add_assoc. reflexivity.
Qed.

(** The loop of [copy_file] for a buffer size above 0. *)
Lemma copy_file_loop_spec (maxread bs : Z) (d : bytes) :
  0 < bs ->
  forall fuel pos target size,
    (length d - pos < fuel)%nat ->
    (0 <= maxread -> size <= maxread) ->
    let avail := drop pos d in
    let n := if maxread <? 0 then length avail
             else (Z.to_nat (maxread - size) `min` length avail)%nat in
    copy_file_loop fuel (File d pos) target maxread bs size
    = (File d (pos + n),
       match n with
       | O => target
       | S _ => file_write target (take n avail)
       end,
       size + Z.of_nat n).
Proof.
  intros Hbs. induction fuel as [|fuel IH];
    intros pos target size Hfuel Hsize; [lia|].
  cbv zeta. cbn [copy_file_loop]. unfold file_read. cbn [f_pos f_data].
  set (avail := drop pos d).
  set (to_read := if maxread <? 0 then bs else bs `min` (maxread - size)).
  set (n := if maxread <? 0 then length avail
            else (Z.to_nat (maxread - size) `min` length avail)%nat).
  assert (Hto : 0 <= to_read)
    by (subst to_read; destruct (Z.ltb_spec maxread 0); lia).
  destruct (Z.ltb_spec to_read 0) as [|_]; [lia|].
  assert (Havail : length avail = (length d - pos)%nat)
    by (subst avail; apply length_drop).
  set (k := (Z.to_nat to_read `min` length avail)%nat).
  assert (Hk : length (take (Z.to_nat to_read) avail) = k)
    by apply length_take.
  assert (Hkn : (k <= n)%nat /\ (k = 0%nat -> n = 0%nat)).
  { subst k n to_read. destruct (Z.ltb_spec maxread 0); lia. }
  destruct (take (Z.to_nat to_read) avail) as [|c part] eqn:Ep.
  - cbn [length] in Hk. destruct Hkn as [_ Hn]. rewrite (Hn (eq_sym Hk)).
    cbn [length]. rewrite !Nat.add_0_r, Z.add_0_r. reflexivity.
  - rewrite <- Ep in *.
    assert (Hk1 : (0 < k)%nat) by (rewrite <- Hk, Ep; cbn; lia).
    assert (Htake : take (Z.to_nat to_read) avail = take k avail).
    { subst k. destruct (Nat.min_spec (Z.to_nat to_read) (length avail))
        as [[_ ->]|[Hge ->]]; [reflexivity|].
      rewrite !take_ge by lia. reflexivity. }
    rewrite Hk.
    rewrite (IH (pos + k)%nat _ _ ltac:(lia)).
    2:{ intros Hm. specialize (Hsize Hm). unfold zlen. rewrite Hk.
        subst k to_read. destruct (Z.ltb_spec maxread 0); lia. }
    unfold zlen. rewrite Hk.
    set (n' := if maxread <? 0 then length (drop (pos + k) d)
               else (Z.to_nat (maxread - (size + Z.of_nat k))
                       `min` length (drop (pos + k) d))%nat).
    assert (Hn' : n = (k + n')%nat).
    { subst n n' k to_read. rewrite length_drop.
      destruct (Z.ltb_spec maxread 0); lia. }
    rewrite Hn'. f_equal; [f_equal; [f_equal; lia|]|lia].
    destruct (k + n')%nat as [|m] eqn:Em; [lia|]. rewrite <- Em.
    assert (Hsplit : take (k + n') avail
                     = take k avail ++ take n' (drop (pos + k) d)).
    { subst avail. rewrite <- drop_drop. symmetry. apply take_take_drop. }
    rewrite Hsplit, Htake. destruct n' as [|m'].
    + rewrite take_0, app_nil_r. reflexivity.
    + apply file_write_app.
Qed.

(** A whole file copied to a new one. *)
Lemma copy_file_whole (d : list ascii) (bs : Z) :
  0 < bs ->
  copy_file (File d 0) new_file (-1) bs
  = (File d (length d), File d (length d), zlen d).
Proof.
  intros Hbs. unfold copy_file. cbn [f_data f_pos].
  pose proof (copy_file_loop_spec (-1) bs d Hbs
                (S (length d - 0)) 0 new_file 0 ltac:(lia) ltac:(lia)) as H.
  cbv zeta in H. rewrite Z.sub_0_r, Z.add_0_l in H. rewrite H.
  change (-1 <? 0) with true. cbv iota.
  rewrite drop_0, Nat.add_0_l.
  destruct d as [|c d]; [reflexivity|].
  cbn [length]. rewrite take_ge by (cbn [length]; lia).
  change new_file with (File [] (length (@nil ascii))).
  rewrite file_write_at_end. reflexivity.
Qed.

(** X12: [copy_file] with a buffer size above 0 copies the bytes of the
    source from its position on, all of them when [maxread] is negative
    and else [maxread] of them at most; it writes them to the target at
    its position, leaves the source after the last byte copied and returns
    their number.  The target is not touched when there is nothing to
    copy. *)
Theorem copy_file_spec (stream target : fileobj) (maxread bs : Z) :
  0 < bs ->
  let avail := drop (f_pos stream) (f_data stream) in
  let n := if maxread <? 0 then length avail
           else (Z.to_nat maxread `min` length avail)%nat in
  copy_file stream target maxread bs
  = (File (f_data stream) (f_pos stream + n),
     match n with
     | O => target
     | S _ => file_write target (take n avail)
     end,
     Z.of_nat n).
Proof.
  intros Hbs. destruct stream as [d pos]. unfold copy_file.
  cbn [f_data f_pos].
  pose proof (copy_file_loop_spec maxread bs d Hbs
                (S (length d - pos)) pos target 0 ltac:(lia) ltac:(lia)) as H.
  cbv zeta in H. rewrite Z.sub_0_r, Z.add_0_l in H. exact H.
Qed.

Lemma copy_file_spec_witness :
  copy_file (File (T "hello world") 6) (File (T "abc") 1) 3 2
  = (File (T "hello world") 9, File (T "awor") 4, 3).
Proof.
  exact (copy_file_spec (File (T "hello world") 6) (File (T "abc") 1) 3 2
           eq_refl).
Defined.

(** X13: [save_as] writes the whole body of a part to the new file,
    wherever the sink stands, returns the number of bytes of the body and
    leaves the part, the position of its sink included, as it was. *)
Theorem save_as_spec (p : MultipartPart.t) (f : fileobj) :
  MultipartPart.sink_file (MultipartPart.file p) = Some f ->
  MultipartPartSave.save_as p
  = (Ok (zlen (f_data f)), File (f_data f) (length (f_data f)), p).
Proof.
  intros Hf. unfold MultipartPartSave.save_as.
  assert (Hcopy : copy_file (file_seek f 0) new_file (-1) (2 * 16)
                  = (File (f_data f) (length (f_data f)),
                     File (f_data f) (length (f_data f)),
                     zlen (f_data f))).
  { unfold file_seek. apply copy_file_whole. lia. }
  destruct p as [hl hs fl sz bf dp nm fn ct cs op cl ml bs].
  cbn in Hf |- *. destruct f as [d pos].
  destruct fl as [|g|g]; [discriminate| |]; injection Hf as ->;
    cbn [f_pos]; rewrite Hcopy; reflexivity.
Qed.

Lemma save_as_spec_witness :
  MultipartPartSave.save_as
    (MultipartPart.set_file (MultipartPart.__init__ 16 8 (T "latin1"))
       (MultipartPart.TemporaryFile (File (T "hello world") 3)))
  = (Ok 11, File (T "hello world") 11,
     MultipartPart.set_file (MultipartPart.__init__ 16 8 (T "latin1"))
       (MultipartPart.TemporaryFile (File (T "hello world") 3))).
Proof.
  exact (save_as_spec
           (MultipartPart.set_file (MultipartPart.__init__ 16 8 (T "latin1"))
              (MultipartPart.TemporaryFile (File (T "hello world") 3)))
           (File (T "hello world") 3) eq_refl).
Defined.

(** ** [header_quote] and [header_unquote] *)

Lemma finditer_chr_none (p : ascii -> bool) (s : text) :
  forall pos,
    finditer_from (Chr p) pos 0 s = [] <-> Forall (fun c => p c = false) s.
Proof.
  induction s as [|c s IH]; intros pos; cbn [finditer_from rmatch m_rest].
  - split; [constructor|reflexivity].
  - destruct (p c) eqn:E.
    + split; [discriminate|]. intros H. apply Forall_cons in H as [H _].
      congruence.
    + cbn [pred]. rewrite IH. split.
      * intros H. constructor; assumption.
      * intros H. apply Forall_cons in H as [_ H]. exact H.
Qed.

Lemma search_special (val : text) :
  search _re_special val = None
  <-> Forall (fun c => is_special c = false) val.
Proof.
  unfold search, finditer, _re_special.
  rewrite <- finditer_chr_none with (pos := 0%nat).
  destruct (finditer_from _ _ _ _); cbn; split; congruence.
Qed.

Lemma ch_eqb_sym (a b : ascii) : ch_eqb a b = ch_eqb b a.
Proof. apply Ascii.eqb_sym. Qed.

Lemma startswith_nil (s : text) : startswith s [] = true.
Proof. destruct s; reflexivity. Qed.

(** Replacing a single character is done character by character. *)
Lemma replace_single (o : ascii) (new s : text) :
  replace [o] new s
  = flat_map (fun c => if ch_eqb c o then new else [c]) s.
Proof.
  unfold replace. induction s as [|c s IH]; [reflexivity|].
  cbn [replace_from startswith flat_map length Nat.sub].
  rewrite startswith_nil, andb_true_r.
  unfold ch_eqb at 1. rewrite (Ascii.eqb_sym o c). fold (ch_eqb c o).
  destruct (ch_eqb c o); rewrite IH; reflexivity.
Qed.

Lemma header_quote_escaped (val : text) :
  replace [DQUOTE] [BSLASH; DQUOTE] (replace [BSLASH] [BSLASH; BSLASH] val)
  = flat_map escaped val.
Proof.
  rewrite !replace_single. induction val as [|c val IH]; [reflexivity|].
  cbn [flat_map]. rewrite flat_map_app, IH. f_equal. unfold escaped.
  destruct (ch_eqb c BSLASH) eqn:E1.
  - reflexivity.
  - cbn [flat_map]. rewrite app_nil_r. reflexivity.
Qed.

(** Undoing the doubled backslashes leaves the escaped quotes. *)
Lemma unescape_backslashes (val : text) :
  replace [BSLASH; BSLASH] [BSLASH] (flat_map escaped val)
  = flat_map (fun c => if ch_eqb c DQUOTE then [BSLASH; DQUOTE] else [c]) val.
Proof.
  unfold replace. induction val as [|c val IH]; [reflexivity|].
  cbn [flat_map]. unfold escaped at 1.
  destruct (ch_eqb c BSLASH) eqn:E1.
  - apply ch_eqb_eq in E1. subst c.
    cbn [app replace_from startswith length Nat.sub ch_eqb].
    rewrite startswith_nil, IH. reflexivity.
  - destruct (ch_eqb c DQUOTE) eqn:E2.
    + cbn [app replace_from startswith].
      change (ch_eqb BSLASH BSLASH) with true.
      change (ch_eqb BSLASH DQUOTE) with false.
      change (ch_eqb DQUOTE BSLASH) with false. cbn [andb].
      rewrite IH. reflexivity.
    + cbn [app replace_from startswith].
      unfold ch_eqb at 1. rewrite (Ascii.eqb_sym BSLASH c).
      fold (ch_eqb c BSLASH).
      rewrite E1. cbn [andb]. rewrite IH. reflexivity.
Qed.

(** Undoing the escaped quotes gives the value back. *)
Lemma unescape_quotes (val : text) :
  replace [BSLASH; DQUOTE] [DQUOTE]
    (flat_map (fun c => if ch_eqb c DQUOTE then [BSLASH; DQUOTE] else [c]) val)
  = val.
Proof.
  unfold replace. induction val as [|c val IH]; [reflexivity|].
  cbn [flat_map]. destruct (ch_eqb c DQUOTE) eqn:E2.
  - apply ch_eqb_eq in E2. subst c.
    cbn [app replace_from startswith length Nat.sub].
    rewrite startswith_nil, IH. reflexivity.
  - cbn [app replace_from].
    assert (Hno : startswith
                    (c :: flat_map
                            (fun c => if ch_eqb c DQUOTE
                                      then [BSLASH; DQUOTE] else [c]) val)
                    [BSLASH; DQUOTE] = false).
    { cbn [startswith]. destruct (ch_eqb BSLASH c) eqn:E1; [|reflexivity].
      cbn [andb]. destruct val as [|c' val']; [reflexivity|].
      cbn [flat_map]. destruct (ch_eqb c' DQUOTE) eqn:E3.
      - reflexivity.
      - cbn [app startswith]. rewrite (ch_eqb_sym DQUOTE c'), E3.
        reflexivity. }
    rewrite Hno, IH. reflexivity.
Qed.

(** The quoted value does not look like a Windows path. *)
Lemma escaped_no_path (val : text) :
  head val <> Some BSLASH ->
  val !! 1%nat <> Some ":"%char ->
  text_eqb (slice (flat_map escaped val) (Some 1) (Some 3)) [":"%char; BSLASH]
  || text_eqb (slice (flat_map escaped val) None (Some 2)) [BSLASH; BSLASH]
  = false.
Proof.
  intros H0 H1. apply orb_false_iff. split.
  - destruct (text_eqb _ _) eqn:E; [|reflexivity]. exfalso.
    apply text_eqb_eq, slice_1_3_inv in E as (a & rest & E).
    destruct val as [|c0 val]; [discriminate|]. cbn [flat_map] in E.
    unfold escaped at 1 in E.
    destruct (ch_eqb c0 BSLASH) eqn:E0.
    { apply ch_eqb_eq in E0. subst c0. apply H0. reflexivity. }
    destruct (ch_eqb c0 DQUOTE); [discriminate|].
    destruct val as [|c1 val]; [discriminate|].
    cbn [app flat_map] in E. unfold escaped at 1 in E.
    destruct (ch_eqb c1 BSLASH); [discriminate|].
    destruct (ch_eqb c1 DQUOTE); [discriminate|].
    injection E as _ -> _. apply H1. reflexivity.
  - destruct (text_eqb _ _) eqn:E; [|reflexivity]. exfalso.
    apply text_eqb_eq, slice_0_2_inv in E as (rest & E).
    destruct val as [|c0 val]; [discriminate|]. cbn [flat_map] in E.
    unfold escaped at 1 in E.
    destruct (ch_eqb c0 BSLASH) eqn:E0.
    { apply ch_eqb_eq in E0. subst c0. apply H0. reflexivity. }
    destruct (ch_eqb c0 DQUOTE); [discriminate|].
    injection E as -> _. discriminate.
Qed.

(** A value in double quotes, escaped as [header_quote] does it. *)
Lemma header_unquote_escaped (val : text) (filename : bool) :
  head val <> Some BSLASH ->
  val !! 1%nat <> Some ":"%char ->
  header_unquote (DQUOTE :: flat_map escaped val ++ [DQUOTE]) filename
  = Ok val.
Proof.
  intros H0 H1. unfold header_unquote.
  rewrite index_head. cbn [rbind].
  rewrite app_comm_cons, index_last. cbn [rbind].
  rewrite ch_eqb_refl. cbn [andb]. rewrite <- app_comm_cons.
  rewrite slice_strip_ends, (escaped_no_path val H0 H1). cbn [rbind].
  rewrite unescape_backslashes, unescape_quotes. reflexivity.
Qed.

(** A value without special characters is returned as it is. *)
Lemma header_unquote_token (val : text) (filename : bool) :
  val <> [] ->
  Forall (fun c => is_special c = false) val ->
  header_unquote val filename = Ok val.
Proof.
  intros Hne Es. unfold header_unquote.
  destruct (index_nonempty val 0 Hne (or_introl eq_refl)) as [a Ha].
  destruct (last val) as [b|] eqn:El;
    [|apply last_None in El; contradiction].
  rewrite Ha, (index_m1_last val b El). cbn [rbind].
  assert (Hb : ch_eqb b DQUOTE = false).
  { apply ch_eqb_neq. intros ->.
    apply last_Some in El as [l' ->].
    apply Forall_app in Es as [_ Es]. apply Forall_inv in Es.
    vm_compute in Es. discriminate. }
  rewrite Hb, andb_false_r. reflexivity.
Qed.

(** X14: [header_unquote] undoes [header_quote] on every value that is
    not empty, does not begin with a backslash and has no colon as its
    second character.  (The empty value makes [header_unquote] raise, and
    the other two are taken for Windows paths and cut.) *)
Theorem header_quote_unquote (val : text) (filename : bool) :
  val <> [] ->
  head val <> Some BSLASH ->
  val !! 1%nat <> Some ":"%char ->
  header_unquote (header_quote val) filename = Ok val.
Proof.
  intros Hne H0 H1. unfold header_quote.
  destruct (search _re_special val) as [m|] eqn:Es.
  - rewrite header_quote_escaped. cbn [app].
    apply header_unquote_escaped; assumption.
  - apply search_special in Es. apply header_unquote_token; assumption.
Qed.

Lemma header_quote_unquote_witness :
  header_unquote (header_quote (T "my " ++ [DQUOTE] ++ T "file\1.txt")) true
  = Ok (T "my " ++ [DQUOTE] ++ T "file\1.txt").
Proof.
  apply (header_quote_unquote (T "my " ++ [DQUOTE] ++ T "file\1.txt") true);
    discriminate.
Defined.

(** ** MultiDict *)

Section MultiDictProperties.

Context {K : Type} `{Countable K} {V : Type}.

Implicit Types (d : MultiDict.t K V) (k : K) (v : V).

Lemma multidict_append_lookup d k v :
  MultiDict.append d k v !! k
  = Some (match d !! k with Some l => l | None => [] end ++ [v]).
Proof. unfold MultiDict.append. apply lookup_insert_eq. Qed.

Lemma multidict_append_other d k k' v :
  k' <> k -> MultiDict.append d k v !! k' = d !! k'.
Proof.
  intros Hne. unfold MultiDict.append. apply lookup_insert_ne. congruence.
Qed.

Lemma multidict_getall_app (l : list V) v :
  match l ++ [v] with x :: r => x :: r | [] => [] end = l ++ [v].
Proof. destruct l; reflexivity. Qed.

(** X15: a value appended under a key is the last of the values of that
    key: [self[key]] and [get(key, default)] return it, [getall(key)]
    returns the values held before followed by it, and no other key is
    touched.  Setting an item is appending: nothing is overwritten. *)
Theorem multidict_append_get d k v (dflt : MultiDict.default_arg) :
  MultiDict.__getitem__ (MultiDict.append d k v) k = MultiDict.Returns v
  /\ MultiDict.get (MultiDict.__setitem__ d k v) k dflt (-1)
     = MultiDict.Returns v
  /\ MultiDict.getall (MultiDict.append d k v) k
     = MultiDict.getall d k ++ [v]
  /\ MultiDict.__contains__ (MultiDict.append d k v) k = true
  /\ forall k' i,
       k' <> k ->
       MultiDict.getall (MultiDict.append d k v) k' = MultiDict.getall d k'
       /\ MultiDict.get (MultiDict.append d k v) k' dflt i
          = MultiDict.get d k' dflt i.
Proof.
  assert (Hc : MultiDict.__contains__ (MultiDict.append d k v) k = true).
  { unfold MultiDict.__contains__. rewrite multidict_append_lookup.
    apply bool_decide_eq_true. eauto. }
  assert (Hlast : forall l : list V, MultiDict.lift (index (l ++ [v]) (-1))
                                     = MultiDict.Returns v).
  { intros l. rewrite index_last. reflexivity. }
  split; [|split; [|split; [|split; [exact Hc|]]]].
  - unfold MultiDict.__getitem__, MultiDict.get.
    rewrite multidict_append_lookup. apply Hlast.
  - unfold MultiDict.__setitem__, MultiDict.get. rewrite Hc.
    rewrite multidict_append_lookup. cbn [negb].
    destruct dflt; apply Hlast.
  - unfold MultiDict.getall. rewrite multidict_append_lookup.
    rewrite multidict_getall_app.
    destruct (d !! k) as [[|x l]|]; reflexivity.
  - intros k' i Hne. unfold MultiDict.getall, MultiDict.get,
      MultiDict.__contains__.
    rewrite (multidict_append_other d k k' v Hne). auto.
Qed.

(** X16: a key that is absent.  [self[key]] and [del self[key]] raise
    [KeyError]; [getall(key)] is empty; [get(key, default, index)] returns
    the default for the indices 0 and -1 and raises [IndexError] for every
    other index. *)
Theorem multidict_missing_key d k v (i : Z) :
  d !! k = None ->
  MultiDict.__getitem__ d k = MultiDict.Raises MultiDict.KeyError
  /\ MultiDict.__delitem__ d k = MultiDict.Raises MultiDict.KeyError
  /\ MultiDict.getall d k = []
  /\ MultiDict.__contains__ d k = false
  /\ MultiDict.get d k (MultiDict.Default v) i
     = if (i =? 0) || (i =? -1) then MultiDict.Returns v
       else MultiDict.Raises (MultiDict.Exn IndexError).
Proof.
  intros Hk.
  assert (Hc : MultiDict.__contains__ d k = false).
  { unfold MultiDict.__contains__. rewrite Hk.
    apply bool_decide_eq_false. intros [x Hx]. discriminate. }
  unfold MultiDict.__getitem__, MultiDict.__delitem__, MultiDict.getall,
    MultiDict.get.
  rewrite Hc, Hk. cbn [negb]. repeat split; try reflexivity.
  unfold index, zlen. cbn [length]. change (Z.of_nat 1) with 1.
  destruct (Z.eqb_spec i 0) as [-> |H0]; [reflexivity|].
  destruct (Z.eqb_spec i (-1)) as [-> |H1]; [reflexivity|].
  cbn [orb]. destruct (Z.ltb_spec i 0).
  - destruct (Z.ltb_spec (i + 1) 0); [reflexivity|lia].
  - destruct (Z.ltb_spec i 0); [lia|].
    destruct (Z.leb_spec 1 i); [reflexivity|lia].
Qed.

Lemma multidict_init_lookup (init : gmap K V) k :
  MultiDict.__init__ init !! k = (fun v => [v]) <$> (init !! k).
Proof.
  unfold MultiDict.__init__. revert k.
  apply (map_fold_weak_ind
           (fun (r : MultiDict.t K V) (m : gmap K V) =>
              forall k, r !! k = (fun v => [v]) <$> (m !! k))).
  - intros k. rewrite !lookup_empty. reflexivity.
  - intros i x m r Hi IH k. destruct (decide (k = i)) as [-> |Hne].
    + rewrite multidict_append_lookup, lookup_insert_eq, IH, Hi.
      reflexivity.
    + rewrite multidict_append_other, lookup_insert_ne by congruence.
      apply IH.
Qed.

(** X17: a [MultiDict] made from a dict holds, for every key of the dict,
    exactly the one value the dict has for it, and nothing else. *)
Theorem multidict_init_getall (init : gmap K V) k :
  MultiDict.getall (MultiDict.__init__ init) k
  = match init !! k with Some v => [v] | None => [] end
  /\ MultiDict.__len__ (MultiDict.__init__ init) = size init.
Proof.
  split.
  - unfold MultiDict.getall. rewrite multidict_init_lookup.
    destruct (init !! k); reflexivity.
  - unfold MultiDict.__len__.
    rewrite <- (size_dom (D := gset K) (MultiDict.__init__ init)).
    rewrite <- (size_dom (D := gset K) init). f_equal.
    apply set_eq. intros x. rewrite !elem_of_dom, multidict_init_lookup.
    rewrite fmap_is_Some. reflexivity.
Qed.

Lemma multidict_built_nonempty d :
  MultiDict.built d -> forall k l, d !! k = Some l -> l <> [].
Proof.
  induction 1 as [init|d key value _ IH|d key value _ IH|d key _ IH];
    intros k l Hl.
  - rewrite multidict_init_lookup in Hl.
    destruct (init !! k); [|discriminate]. injection Hl as <-. discriminate.
  - destruct (decide (k = key)) as [-> |Hne].
    + rewrite multidict_append_lookup in Hl. injection Hl as <-.
      intros E. apply app_eq_nil in E as [_ E]. discriminate.
    + rewrite multidict_append_other in Hl by assumption. eauto.
  - unfold MultiDict.replace in Hl.
    destruct (decide (k = key)) as [-> |Hne].
    + rewrite lookup_insert_eq in Hl. injection Hl as <-. discriminate.
    + rewrite lookup_insert_ne in Hl by congruence. eauto.
  - destruct (decide (k = key)) as [-> |Hne].
    + rewrite lookup_delete_eq in Hl. discriminate.
    + rewrite lookup_delete_ne in Hl by congruence. eauto.
Qed.

(** X18: in a [MultiDict] made by its methods no key has an empty list of
    values.  So for every key it contains [self[key]] returns a value, the
    last of [getall(key)], and raises nothing. *)
Theorem multidict_getitem_present d k :
  MultiDict.built d ->
  MultiDict.__contains__ d k = true ->
  exists v,
    MultiDict.__getitem__ d k = MultiDict.Returns v
    /\ last (MultiDict.getall d k) = Some v.
Proof.
  intros Hb Hc. unfold MultiDict.__contains__ in Hc.
  apply bool_decide_eq_true in Hc as [l Hl].
  pose proof (multidict_built_nonempty d Hb k l Hl) as Hne.
  destruct (last l) as [v|] eqn:El; [|apply last_None in El; contradiction].
  exists v. unfold MultiDict.__getitem__, MultiDict.get, MultiDict.getall.
  rewrite Hl, (index_m1_last l v El).
  split; [reflexivity|]. destruct l; [contradiction|exact El].
Qed.

End MultiDictProperties.

Lemma multidict_missing_key_witness :
  MultiDict.__getitem__ (∅ : MultiDict.t (list ascii) Z) (T "a")
  = MultiDict.Raises MultiDict.KeyError
  /\ MultiDict.__delitem__ (∅ : MultiDict.t (list ascii) Z) (T "a")
     = MultiDict.Raises MultiDict.KeyError
  /\ MultiDict.getall (∅ : MultiDict.t (list ascii) Z) (T "a") = []
  /\ MultiDict.__contains__ (∅ : MultiDict.t (list ascii) Z) (T "a")
     = false
  /\ MultiDict.get (∅ : MultiDict.t (list ascii) Z) (T "a")
       (MultiDict.Default 7) 1
     = MultiDict.Raises (MultiDict.Exn IndexError).
Proof.
  apply (multidict_missing_key (∅ : MultiDict.t (list ascii) Z)
           (T "a") 7 1).
  apply lookup_empty.
Defined.

Lemma multidict_getitem_present_witness :
  exists v,
    MultiDict.__getitem__
      (MultiDict.append (MultiDict.__init__ (∅ : gmap (list ascii) Z))
         (T "a") 7) (T "a")
    = MultiDict.Returns v
    /\ last (MultiDict.getall
               (MultiDict.append (MultiDict.__init__ (∅ : gmap (list ascii) Z))
                  (T "a") 7) (T "a")) = Some v.
Proof.
  apply (multidict_getitem_present
           (MultiDict.append (MultiDict.__init__ (∅ : gmap (list ascii) Z))
              (T "a") 7) (T "a")).
  - apply MultiDict.built_append, MultiDict.built_init.
  - vm_compute. reflexivity.
Defined.

(** ** The line reader on lines that fit the buffer *)

Lemma splitlines_other (c : ascii) :
  ch_eqb c LF = false -> ch_eqb c CR = false ->
  forall s,
    splitlines (c :: s)
    = match splitlines s with
      | [] => [[c]]
      | l :: ls => (c :: l) :: ls
      end.
Proof. intros Elf Ecr s. cbn [splitlines]. rewrite Elf, Ecr. reflexivity. Qed.

(** Why the last line of a chunk is held back: the lines of a text that
    goes on are the lines of its beginning but the last, followed by the
    lines of that last one and the rest. *)
Lemma splitlines_app_last (n : nat) :
  forall x,
    (length x <= n)%nat -> x <> [] ->
    exists init final,
      splitlines x = init ++ [final]
      /\ forall y, splitlines (x ++ y) = init ++ splitlines (final ++ y).
Proof.
  induction n as [|n IH]; intros x Hlen Hne.
  - destruct x; [contradiction|simpl in Hlen; lia].
  - destruct x as [|c x']; [contradiction|]. simpl in Hlen.
    assert (Hrec : forall (pre : bytes) (x1 : bytes),
              (length x1 <= n)%nat ->
              splitlines (c :: x') = pre :: splitlines x1 ->
              (forall y, splitlines ((c :: x') ++ y)
                         = pre :: splitlines (x1 ++ y)) ->
              (x1 = [] -> forall y, splitlines ((c :: x') ++ y)
                                    = splitlines (pre ++ y)) ->
              exists init final,
                splitlines (c :: x') = init ++ [final]
                /\ forall y, splitlines ((c :: x') ++ y)
                             = init ++ splitlines (final ++ y)).
    { intros pre x1 Hl1 E1 E2 E3. destruct x1 as [|d x1'].
      - exists [], pre. split; [exact E1|]. intros y. apply E3. reflexivity.
      - destruct (IH (d :: x1') Hl1 ltac:(discriminate))
          as (init & final & Hs & Happ).
        exists (pre :: init), final. split.
        + rewrite E1, Hs. reflexivity.
        + intros y. rewrite E2, Happ. reflexivity. }
    destruct (ch_eqb c LF) eqn:Elf.
    { apply (Hrec [c] x'); [lia| | |].
      - cbn [splitlines]. rewrite Elf. reflexivity.
      - intros y. cbn [app splitlines]. rewrite Elf. reflexivity.
      - intros -> y. reflexivity. }
    destruct (ch_eqb c CR) eqn:Ecr.
    { destruct x' as [|d x''].
      - exists [], [c]. split; [cbn [splitlines]; rewrite Elf, Ecr|];
          reflexivity.
      - destruct (ch_eqb d LF) eqn:Ed.
        + apply (Hrec [c; d] x''); [simpl in Hlen; lia| | |].
          * cbn [splitlines]. rewrite Elf, Ecr, Ed. reflexivity.
          * intros y. cbn [app splitlines]. rewrite Elf, Ecr, Ed.
            reflexivity.
          * intros -> y. reflexivity.
        + apply (Hrec [c] (d :: x'')); [lia| | |].
          * cbn [splitlines]. rewrite Elf, Ecr, Ed. reflexivity.
          * intros y. cbn [app splitlines]. rewrite Elf, Ecr, Ed.
            reflexivity.
          * discriminate. }
    pose proof (splitlines_other c Elf Ecr) as Hother.
    destruct x' as [|d x''].
    { exists [], [c]. split; [rewrite Hother|]; reflexivity. }
    destruct (IH (d :: x'') ltac:(lia) ltac:(discriminate))
      as (init & final & Hs & Happ).
    destruct init as [|l0 init].
    + exists [], (c :: final). split.
      * rewrite Hother, Hs. reflexivity.
      * intros y.
        change ((c :: d :: x'') ++ y) with (c :: ((d :: x'') ++ y)).
        change ((c :: final) ++ y) with (c :: (final ++ y)).
        rewrite !Hother, Happ. reflexivity.
    + exists ((c :: l0) :: init), final. split.
      * rewrite Hother, Hs. reflexivity.
      * intros y.
        change ((c :: d :: x'') ++ y) with (c :: ((d :: x'') ++ y)).
        rewrite !Hother, Happ. reflexivity.
Qed.

Lemma lines_of_lines (out : list (bytes * bytes)) (rest : list line_event) :
  lines_of (map (fun l => LLine (fst l) (snd l)) out ++ rest)
  = out ++ lines_of rest.
Proof.
  induction out as [|[l nl] out IH]; [reflexivity|].
  cbn [map app lines_of fst snd]. rewrite IH. reflexivity.
Qed.

(** A limit on the bytes to read is the end of the stream by another
    name. *)
Lemma lineiter_loop_truncate (L : Z) (fuel : nat) :
  0 <= L ->
  forall stream maxread m buffer,
    0 <= maxread -> m < 0 ->
    MultipartParser.lineiter_loop fuel L stream maxread buffer
    = MultipartParser.lineiter_loop fuel L
        (take (Z.to_nat maxread) stream) m buffer.
Proof.
  intros HL. induction fuel as [|fuel IH];
    intros stream maxread m buffer Hmax Hm; [reflexivity|].
  cbn [MultipartParser.lineiter_loop].
  destruct (Z.ltb_spec maxread 0) as [|_]; [lia|].
  destruct (Z.ltb_spec m 0) as [_|]; [|lia].
  unfold stream_read.
  destruct (Z.ltb_spec (L `min` maxread) 0) as [|_]; [lia|].
  destruct (Z.ltb_spec L 0) as [|_]; [lia|].
  assert (Hdata : take (Z.to_nat L) (take (Z.to_nat maxread) stream)
                  = take (Z.to_nat (L `min` maxread)) stream).
  { rewrite take_take. f_equal. lia. }
  rewrite Hdata. set (data := take (Z.to_nat (L `min` maxread)) stream).
  f_equal.
  destruct (MultipartParser.chunk L buffer data) as [[out buffer']|e];
    [|reflexivity].
  f_equal. destruct data as [|c data'] eqn:Ed; [reflexivity|].
  cbn [is_empty]. rewrite <- Ed.
  assert (Hlen : length data
                 = (Z.to_nat (L `min` maxread) `min` length stream)%nat)
    by (subst data; apply length_take).
  rewrite (IH (drop (Z.to_nat (L `min` maxread)) stream)
             (maxread - zlen data) (m - zlen data) buffer').
  - f_equal. unfold zlen.
    destruct (Nat.min_spec (Z.to_nat (L `min` maxread)) (length stream))
      as [[Hlt E]|[Hge E]]; rewrite E in Hlen.
    + destruct (Z.le_gt_cases L maxread) as [Hle|Hgt].
      * rewrite Z.min_l by lia. rewrite take_drop_commute.
        do 2 f_equal. lia.
      * replace (Z.to_nat (maxread - Z.of_nat (length data))) with 0%nat
          by lia.
        rewrite take_0, drop_ge by (rewrite length_take; lia). reflexivity.
    + rewrite !drop_ge by (rewrite ?length_take; lia).
      rewrite take_nil. reflexivity.
  - unfold zlen. lia.
  - pose proof (zlen_nonneg data). lia.
Qed.

Lemma splitlines_single (b : bytes) :
  line_shaped b -> b <> [] -> splitlines b = [b].
Proof.
  intros Hb Hne.
  destruct (splitlines_buffer b [] Hb Hne) as (pre & rest & E & Hd).
  rewrite app_nil_r in E. symmetry in Hd.
  apply app_eq_nil in Hd as [-> Hrest]. rewrite app_nil_r in E.
  destruct rest as [|r rest]; [exact E|]. exfalso.
  cbn [concat] in Hrest. apply app_eq_nil in Hrest as [-> _].
  apply (splitlines_line_nonempty (length b) b [] (le_n _));
    [|reflexivity].
  rewrite E. set_solver.
Qed.

(** One round of the reader on lines that fit: the lines of the chunk but
    the last are yielded as they are, the last is held back. *)
Lemma chunk_fitting (L : Z) (buffer data rest : bytes) :
  line_shaped buffer ->
  data <> [] ->
  Forall (fun l => zlen l <= L) (splitlines (buffer ++ data ++ rest)) ->
  exists init final,
    MultipartParser.chunk L buffer data
    = Ok (map MultipartParser.emit init, final)
    /\ line_shaped final /\ final <> []
    /\ splitlines (buffer ++ data ++ rest)
       = init ++ splitlines (final ++ rest).
Proof.
  intros Hb Hd Hall.
  assert (Hx : buffer ++ data <> [])
    by (intros E; apply app_eq_nil in E as [_ E]; contradiction).
  destruct (splitlines_app_last (length (buffer ++ data)) (buffer ++ data)
              (le_n _) Hx) as (init & final & Hs & Happ).
  specialize (Happ rest). rewrite <- app_assoc in Happ.
  assert (Hfinal : line_shaped final /\ final <> []).
  { assert (Hin : final ∈ splitlines (buffer ++ data))
      by (rewrite Hs; set_solver).
    split; [apply (splitlines_line_shaped _ _ Hin)|].
    apply (splitlines_line_nonempty _ _ _ (le_n _) Hin). }
  destruct Hfinal as [Hfs Hfne].
  exists init, final. split; [|auto].
  rewrite Happ in Hall. apply Forall_app in Hall as [Hinit Hrest].
  destruct (splitlines_buffer final rest Hfs Hfne) as (pre & more & E & _).
  rewrite E in Hrest. apply Forall_cons in Hrest as [Hlast _].
  assert (Hlen : zlen final <= L).
  { rewrite zlen_app in Hlast. pose proof (zlen_nonneg pre). lia. }
  unfold MultipartParser.chunk. rewrite Hs.
  assert (Hsplit : MultipartParser.split_first L (init ++ [final])
                   = Ok (init ++ [final])).
  { destruct init as [|l0 init'].
    - destruct (split_first_cases L final []) as [[_ E1]|[Hgt _]];
        [exact E1|lia].
    - apply Forall_cons in Hinit as [H0 _].
      destruct (split_first_cases L l0 (init' ++ [final]))
        as [[_ E1]|[Hgt _]]; [exact E1|lia]. }
  rewrite Hsplit. cbn [rbind].
  destruct data as [|c data']; [contradiction|]. cbn [is_empty negb].
  rewrite index_last. cbn [rbind]. rewrite slice_init. reflexivity.
Qed.

Lemma lineiter_loop_fitting (L : Z) (fuel : nat) :
  0 < L ->
  forall stream m buffer,
    m < 0 ->
    (length stream < fuel)%nat ->
    line_shaped buffer ->
    (buffer = [] -> stream <> []) ->
    Forall (fun l => zlen l <= L) (splitlines (buffer ++ stream)) ->
    lines_of (MultipartParser.lineiter_loop fuel L stream m buffer)
    = map MultipartParser.emit (splitlines (buffer ++ stream)).
Proof.
  intros HL. induction fuel as [|fuel IH];
    intros stream m buffer Hm Hfuel Hb Hne Hall; [lia|].
  cbn [MultipartParser.lineiter_loop].
  destruct (Z.ltb_spec m 0) as [_|]; [|lia].
  unfold stream_read. destruct (Z.ltb_spec L 0) as [|_]; [lia|].
  pose proof (take_drop (Z.to_nat L) stream) as Hstream.
  set (data := take (Z.to_nat L) stream) in *.
  set (rest := drop (Z.to_nat L) stream) in *.
  destruct data as [|c data'] eqn:Ed.
  - (* the end of the stream: the line held back is the last one *)
    assert (stream = []) as ->.
    { subst data. apply take_nil_inv in Ed as [Ed|Ed]; [lia|exact Ed]. }
    assert (Hbne : buffer <> []) by (intros E; apply (Hne E); reflexivity).
    rewrite app_nil_r in Hall |- *.
    rewrite (splitlines_single buffer Hb Hbne) in Hall |- *.
    apply Forall_inv in Hall.
    unfold MultipartParser.chunk. rewrite app_nil_r.
    rewrite (splitlines_single buffer Hb Hbne).
    destruct (split_first_cases L buffer []) as [[_ E1]|[Hgt _]]; [|lia].
    rewrite E1. cbn [rbind is_empty negb lines_of].
    rewrite lines_of_lines, app_nil_r. reflexivity.
  - rewrite <- Ed in *.
    assert (Hd : data <> []) by (rewrite Ed; discriminate).
    rewrite <- Hstream in Hall |- *.
    destruct (chunk_fitting L buffer data rest Hb Hd Hall)
      as (init & final & Hc & Hfs & Hfne & Hs).
    rewrite Hc. cbn [lines_of]. rewrite lines_of_lines.
    replace (is_empty data) with false by (rewrite Ed; reflexivity).
    rewrite Hs in Hall |- *. apply Forall_app in Hall as [_ Hall].
    rewrite map_app. f_equal.
    assert (length data > 0)%nat by (rewrite Ed; cbn; lia).
    assert (length stream = (length data + length rest)%nat)
      by (rewrite <- Hstream, length_app; reflexivity).
    pose proof (zlen_nonneg data).
    apply IH; auto; lia.
Qed.

(** X19: when every line of the data to read, its ending included, fits
    the buffer, [_lineiter] yields exactly the lines [splitlines] makes of
    the data, each split into its content and its ending, for every such
    buffer size, and so wherever the ends of the buffers fall in the
    lines.  The data to read are the stream, or its first
    [content_length] bytes; the stream is a file in memory, whose [read]
    returns as many bytes as it is asked for, or those that are left. *)
Theorem lineiter_fitting_lines (self : MultipartParser.t) :
  let data :=
    if MultipartParser.content_length self <? 0
    then MultipartParser.stream self
    else take (Z.to_nat (MultipartParser.content_length self))
           (MultipartParser.stream self) in
  0 < MultipartParser.buffer_size self ->
  data <> [] ->
  Forall (fun l => zlen l <= MultipartParser.buffer_size self)
    (splitlines data) ->
  lines_of (MultipartParser._lineiter self)
  = map MultipartParser.emit (splitlines data).
Proof.
  intros data HL Hne Hall. unfold MultipartParser._lineiter.
  subst data.
  destruct (Z.ltb_spec (MultipartParser.content_length self) 0) as [Hneg|Hpos].
  - apply lineiter_loop_fitting;
      [exact HL|lia|lia|apply line_shaped_nil|intros _; exact Hne
      |exact Hall].
  - assert (H0 : 0 <= MultipartParser.buffer_size self) by lia.
    rewrite (lineiter_loop_truncate _ _ H0 _ _ (-1) _ Hpos eq_refl).
    rewrite (lineiter_loop_fuel _ _
               (S (length (take (Z.to_nat (MultipartParser.content_length self))
                             (MultipartParser.stream self))))).
    + apply lineiter_loop_fitting;
        [exact HL|lia|lia|apply line_shaped_nil|intros _; exact Hne
        |exact Hall].
    + rewrite length_take. lia.
    + lia.
Qed.

Lemma lineiter_fitting_lines_witness :
  head (MultipartParser._lineiter fitting_parser)
  = Some (LRead (T "--B" ++ CRLF
                 ++ T "Content-Disposition: form-data; name="))
  /\ lines_of (MultipartParser._lineiter fitting_parser)
     = map MultipartParser.emit (splitlines scenario_stream).
Proof.
  split; [vm_compute; reflexivity|].
  apply (lineiter_fitting_lines fitting_parser).
  - reflexivity.
  - discriminate.
  - match goal with
    | |- Forall ?P ?l => let v := eval vm_compute in l in change (Forall P v)
    end.
    repeat (apply Forall_cons_2; [vm_compute; discriminate|]).
    apply Forall_nil_2.
Defined.

(** ** The matcher on the headers the encoder writes *)

(** A repetition whose body takes exactly one character of a run, and
    nothing at its end, takes the whole run. *)
Lemma star_iter_greedy
    (m : mstate -> (mstate -> option mstate) -> option mstate)
    (q : ascii -> bool) :
  (forall c s pos caps K,
     q c = true ->
     m (MState pos (c :: s) caps) K = K (MState (S pos) s caps)) ->
  forall w rest caps k res pos n,
    Forall (fun c => q c = true) w ->
    (forall K, m (MState (pos + length w) rest caps) K = None) ->
    (length (w ++ rest) <= n)%nat ->
    k (MState (pos + length w) rest caps) = Some res ->
    star_iter m k n (MState pos (w ++ rest) caps) = Some res.
Proof.
  intros Hstep w rest caps k res.
  induction w as [|c w IH]; intros pos n Hw Hstop Hn Hk.
  - cbn [length] in Hstop, Hk. rewrite Nat.add_0_r in Hstop, Hk.
    cbn [app]. destruct n as [|n']; cbn [star_iter]; [exact Hk|].
    rewrite Hstop. exact Hk.
  - apply Forall_cons in Hw as [Hc Hw].
    destruct n as [|n']; [cbn in Hn; lia|].
    cbn [star_iter app]. rewrite (Hstep _ _ _ _ _ Hc).
    cbn [m_rest length].
    destruct (Nat.ltb_spec (length (w ++ rest)) (S (length (w ++ rest))))
      as [_|]; [|lia].
    rewrite (IH (S pos) n'); auto.
    + intros K. rewrite <- (Hstop K). f_equal. f_equal. cbn [length]. lia.
    + cbn in Hn. lia.
    + rewrite <- Hk. f_equal. f_equal. cbn [length]. lia.
Qed.

Lemma rmatch_chr_step (p : ascii -> bool) (c : ascii) (s : text)
    (pos : nat) (caps : list (nat * text)) (K : mstate -> option mstate) :
  p c = true ->
  rmatch (Chr p) (MState pos (c :: s) caps) K = K (MState (S pos) s caps).
Proof. intros Hc. cbn [rmatch m_rest m_pos m_caps]. rewrite Hc. reflexivity. Qed.

Lemma rmatch_chr_stop (p : ascii -> bool) (s : text)
    (pos : nat) (caps : list (nat * text)) (K : mstate -> option mstate) :
  match s with [] => True | c :: _ => p c = false end ->
  rmatch (Chr p) (MState pos s caps) K = None.
Proof.
  intros H. cbn [rmatch m_rest]. destruct s as [|c s]; [reflexivity|].
  rewrite H. reflexivity.
Qed.

(** [p*] takes the longest run of characters of the class. *)
Lemma rmatch_star_chr (p : ascii -> bool) (w rest : text) (pos : nat)
    (caps : list (nat * text)) (k : mstate -> option mstate)
    (res : mstate) :
  Forall (fun c => p c = true) w ->
  match rest with [] => True | c :: _ => p c = false end ->
  k (MState (pos + length w) rest caps) = Some res ->
  rmatch (Star (Chr p)) (MState pos (w ++ rest) caps) k = Some res.
Proof.
  intros Hw Hstop Hk. cbn [rmatch m_rest].
  apply (star_iter_greedy (rmatch (Chr p)) p); auto.
  - intros. apply rmatch_chr_step. assumption.
  - intros K. apply rmatch_chr_stop. assumption.
Qed.

(** [p+] *)
Lemma rmatch_plus_chr (p : ascii -> bool) (c : ascii) (w rest : text)
    (pos : nat) (caps : list (nat * text)) (k : mstate -> option mstate)
    (res : mstate) :
  p c = true ->
  Forall (fun c => p c = true) w ->
  match rest with [] => True | c :: _ => p c = false end ->
  k (MState (S pos + length w) rest caps) = Some res ->
  rmatch (Plus (Chr p)) (MState pos (c :: w ++ rest) caps) k = Some res.
Proof.
  intros Hc Hw Hstop Hk. unfold Plus. cbn [rmatch m_rest m_pos m_caps].
  rewrite Hc. apply (rmatch_star_chr p w rest (S pos) caps k res); auto.
Qed.

(** A quoted string of plain characters. *)
Lemma rmatch_qstr (w post : text) (pos : nat) (caps : list (nat * text))
    (k : mstate -> option mstate) (res : mstate) :
  Forall (fun c => plain c = true) w ->
  k (MState (S (S pos + length w)) post caps) = Some res ->
  rmatch _qstr (MState pos (DQUOTE :: w ++ DQUOTE :: post) caps) k
  = Some res.
Proof.
  intros Hw Hk. unfold _qstr.
  cbn [rmatch m_rest m_pos m_caps]. change (ch_eqb DQUOTE DQUOTE) with true.
  cbv iota.
  apply (star_iter_greedy _ plain) with (res := res);
    [|exact Hw| |apply le_n|].
  - intros c s p caps' K Hc. unfold plain in Hc.
    apply andb_true_iff in Hc as [H1 H2].
    apply negb_true_iff in H1.
    cbn [rmatch m_rest m_pos m_caps].
    rewrite (ch_eqb_sym BSLASH c), H1, H2. reflexivity.
  - intros K. cbn [rmatch m_rest m_pos m_caps].
    change (ch_eqb BSLASH DQUOTE) with false.
    change (ch_eqb DQUOTE DQUOTE) with true. reflexivity.
  - cbn [rmatch m_rest m_pos m_caps].
    change (ch_eqb DQUOTE DQUOTE) with true. exact Hk.
Qed.

Lemma rmatch_cat (r1 r2 : regex) (st : mstate)
    (k : mstate -> option mstate) :
  rmatch (Cat r1 r2) st k = rmatch r1 st (fun st1 => rmatch r2 st1 k).
Proof. reflexivity. Qed.

Lemma rmatch_grp (n : nat) (r : regex) (st : mstate)
    (k : mstate -> option mstate) :
  rmatch (Grp n r) st k = rmatch r st (fun st1 => k (close_group n st st1)).
Proof. reflexivity. Qed.

Lemma rmatch_alt_right (r1 r2 : regex) (st : mstate)
    (k : mstate -> option mstate) :
  rmatch r1 st k = None -> rmatch (Alt r1 r2) st k = rmatch r2 st k.
Proof. intros H. cbn [rmatch]. rewrite H. reflexivity. Qed.

Lemma rmatch_alt_left (r1 r2 : regex) (st : mstate)
    (k : mstate -> option mstate) (res : mstate) :
  rmatch r1 st k = Some res -> rmatch (Alt r1 r2) st k = Some res.
Proof. intros H. cbn [rmatch]. rewrite H. reflexivity. Qed.

Lemma quoted_option_app (key value post : text) :
  quoted_option key value ++ post
  = SPACE :: key ++ "="%char :: DQUOTE :: value ++ DQUOTE :: post.
Proof.
  unfold quoted_option. cbn [app]. f_equal. rewrite <- app_assoc.
  cbn [app]. do 3 f_equal. rewrite <- app_assoc. reflexivity.
Qed.

(** The pattern of an option from its white space on, on an option the
    encoder writes. *)
Lemma rmatch_option_body (c0 : ascii) (key value post : text) (pos : nat) :
  Forall (fun c => not_special c = true) (c0 :: key) ->
  is_space c0 = false ->
  Forall (fun c => plain c = true) value ->
  rmatch
    (Cat (Star (Chr is_space))
       (Cat (Grp 1 (Plus (Chr not_special)))
          (Cat (Star (Chr is_space))
             (Cat (Chr (ch_eqb "="%char))
                (Cat (Star (Chr is_space)) (Grp 2 _value))))))
    (MState pos (quoted_option (c0 :: key) value ++ post) []) Some
  = Some (MState (pos + length (quoted_option (c0 :: key) value)) post
            [(2%nat, DQUOTE :: value ++ [DQUOTE]); (1%nat, c0 :: key)]).
Proof.
  intros Hkey Hc0 Hval. apply Forall_cons in Hkey as [Hk0 Hkey].
  rewrite quoted_option_app.
  set (after_key := "="%char :: DQUOTE :: value ++ DQUOTE :: post).
  change (SPACE :: (c0 :: key) ++ after_key)
    with ([SPACE] ++ c0 :: key ++ after_key).
  rewrite rmatch_cat.
  apply rmatch_star_chr; [repeat constructor|exact Hc0|].
  rewrite rmatch_cat, rmatch_grp.
  apply rmatch_plus_chr; [exact Hk0|exact Hkey|reflexivity|].
  unfold close_group. cbn [m_pos m_rest m_caps].
  rewrite rmatch_cat.
  apply (rmatch_star_chr is_space [] after_key); [constructor|reflexivity|].
  subst after_key.
  rewrite rmatch_cat, rmatch_chr_step by reflexivity.
  rewrite rmatch_cat.
  apply (rmatch_star_chr is_space [] (DQUOTE :: value ++ DQUOTE :: post));
    [constructor|reflexivity|].
  rewrite rmatch_grp. unfold _value.
  rewrite rmatch_alt_right.
  2:{ unfold Plus. rewrite rmatch_cat. apply rmatch_chr_stop. reflexivity. }
  apply rmatch_qstr; [exact Hval|].
  unfold close_group. cbn [m_pos m_rest m_caps length].
  f_equal. f_equal.
  - unfold quoted_option. cbn [length]. rewrite !length_app. cbn [length].
    rewrite length_app. cbn [length]. lia.
  - f_equal.
    + f_equal.
      replace (DQUOTE :: value ++ DQUOTE :: post)
        with ((DQUOTE :: value ++ [DQUOTE]) ++ post)
        by (cbn [app]; rewrite <- app_assoc; reflexivity).
      apply take_app_length'. cbn [length]. rewrite length_app.
      cbn [length]. lia.
    + f_equal. f_equal.
      match goal with
      | |- take _ (c0 :: key ++ ?x) = _ =>
          change (c0 :: key ++ x) with ((c0 :: key) ++ x)
      end.
      apply take_app_length'. cbn [length]. lia.
Qed.

(** ** [finditer] and [parse_options_header] on such headers *)

Lemma finditer_skip (r : regex) (w s : text) :
  forall pos,
    finditer_from r pos (length w) (w ++ s)
    = finditer_from r (pos + length w) 0 s.
Proof.
  induction w as [|c w IH]; intros pos.
  - cbn [length app]. rewrite Nat.add_0_r. reflexivity.
  - cbn [length app finditer_from pred]. rewrite IH. f_equal. lia.
Qed.

Lemma finditer_from_match (r : regex) (pos : nat) (w s : text)
    (st : mstate) :
  w <> [] ->
  rmatch r (MState pos (w ++ s) []) Some = Some st ->
  m_pos st = (pos + length w)%nat ->
  finditer_from r pos 0 (w ++ s)
  = m_caps st :: finditer_from r (pos + length w) 0 s.
Proof.
  intros Hw Hm Hpos. destruct w as [|c w]; [contradiction|].
  cbn [app finditer_from] in *. rewrite Hm, Hpos. f_equal.
  replace (pos + length (c :: w) - pos - 1)%nat with (length w)
    by (cbn [length]; lia).
  rewrite finditer_skip. f_equal. cbn [length]. lia.
Qed.

Lemma finditer_option_end (pos : nat) :
  (0 < pos)%nat -> finditer_from _option pos 0 [] = [].
Proof.
  intros H. destruct pos as [|p]; [lia|]. reflexivity.
Qed.

Lemma quoted_option_nonempty (key value : text) : quoted_option key value <> [].
Proof. discriminate. Qed.

(** The first option of a tail. *)
Lemma rmatch_option_first (c0 : ascii) (key value post : text) :
  Forall (fun c => not_special c = true) (c0 :: key) ->
  is_space c0 = false ->
  Forall (fun c => plain c = true) value ->
  rmatch _option (MState 0 (quoted_option (c0 :: key) value ++ post) []) Some
  = Some (MState (length (quoted_option (c0 :: key) value)) post
            [(2%nat, DQUOTE :: value ++ [DQUOTE]); (1%nat, c0 :: key)]).
Proof.
  intros Hkey Hc0 Hval. unfold _option. rewrite rmatch_cat.
  rewrite rmatch_alt_right by reflexivity.
  cbn [rmatch m_pos Nat.eqb].
  apply (rmatch_option_body c0 key value post 0 Hkey Hc0 Hval).
Qed.

(** A further option, after a semicolon. *)
Lemma rmatch_option_next (c0 : ascii) (key value post : text) (pos : nat) :
  Forall (fun c => not_special c = true) (c0 :: key) ->
  is_space c0 = false ->
  Forall (fun c => plain c = true) value ->
  rmatch _option
    (MState pos (";"%char :: quoted_option (c0 :: key) value ++ post) [])
    Some
  = Some (MState (pos + length (";"%char :: quoted_option (c0 :: key) value))
            post
            [(2%nat, DQUOTE :: value ++ [DQUOTE]); (1%nat, c0 :: key)]).
Proof.
  intros Hkey Hc0 Hval. unfold _option. rewrite rmatch_cat.
  apply rmatch_alt_left. rewrite rmatch_chr_step by reflexivity.
  rewrite (rmatch_option_body c0 key value post (S pos) Hkey Hc0 Hval).
  do 2 f_equal. cbn [length]. lia.
Qed.

Lemma header_unquote_plain (value : text) (filename : bool) :
  Forall (fun c => plain c = true) value ->
  header_unquote (DQUOTE :: value ++ [DQUOTE]) filename = Ok value.
Proof.
  intros Hval.
  assert (Hno : BSLASH ∉ value).
  { intros Hin. rewrite Forall_forall in Hval. specialize (Hval _ Hin).
    vm_compute in Hval. discriminate. }
  unfold header_unquote. rewrite index_head. cbn [rbind].
  rewrite app_comm_cons, index_last. cbn [rbind].
  rewrite ch_eqb_refl. cbn [andb]. rewrite <- app_comm_cons.
  rewrite slice_strip_ends.
  assert (Hp : text_eqb (slice value (Some 1) (Some 3)) [":"%char; BSLASH]
               || text_eqb (slice value None (Some 2)) [BSLASH; BSLASH]
               = false).
  { apply orb_false_iff. split.
    - destruct (text_eqb _ _) eqn:E; [|reflexivity]. exfalso.
      apply text_eqb_eq, slice_1_3_inv in E as (a & rest & ->).
      apply Hno. set_solver.
    - destruct (text_eqb _ _) eqn:E; [|reflexivity]. exfalso.
      apply text_eqb_eq, slice_0_2_inv in E as (rest & ->).
      apply Hno. set_solver. }
  rewrite Hp. cbn [rbind].
  rewrite (replace_absent BSLASH [BSLASH] [BSLASH] value Hno).
  rewrite (replace_absent BSLASH [DQUOTE] [DQUOTE] value Hno). reflexivity.
Qed.

(** The disposition the encoder writes for a field, parsed. *)
Lemma parse_disposition_field (name : text) :
  Forall (fun c => plain c = true) name ->
  parse_options_header
    (T "form-data; name=" ++ [DQUOTE] ++ name ++ [DQUOTE]) None
  = Ok (T "form-data", {[ T "name" := name ]}).
Proof.
  intros Hname. unfold parse_options_header.
  change (T "form-data; name=" ++ [DQUOTE] ++ name ++ [DQUOTE])
    with (T "form-data;" ++ quoted_option (T "name") name).
  cbn [T list_ascii_of_string app contains_ch existsb ch_eqb Ascii.eqb
       Bool.eqb orb negb split1].
  change (default ∅ None) with (∅ : gmap (list ascii) (list ascii)).
  unfold finditer.
  rewrite <- (app_nil_r (quoted_option _ name)).
  rewrite (finditer_from_match _option 0 _ []
             (MState (length (quoted_option (T "name") name)) []
                [(2%nat, DQUOTE :: name ++ [DQUOTE]); (1%nat, T "name")])).
  - rewrite finditer_option_end
      by (unfold quoted_option; cbn [length Nat.add]; lia).
    cbn [m_caps record_options foldl rbind]. unfold record_option.
    cbn [group Nat.eqb]. rewrite header_unquote_plain by exact Hname.
    reflexivity.
  - apply quoted_option_nonempty.
  - apply (rmatch_option_first "n"%char (T "ame") name []);
      [repeat constructor|reflexivity|exact Hname].
  - reflexivity.
Qed.

(** The disposition the encoder writes for a file, parsed. *)
Lemma parse_disposition_file (name filename : text) :
  Forall (fun c => plain c = true) name ->
  Forall (fun c => plain c = true) filename ->
  parse_options_header
    (T "form-data; name=" ++ [DQUOTE] ++ name ++ [DQUOTE]
       ++ T "; filename=" ++ [DQUOTE] ++ filename ++ [DQUOTE]) None
  = Ok (T "form-data",
        <[T "filename" := filename]> {[ T "name" := name ]}).
Proof.
  intros Hname Hfile. unfold parse_options_header.
  replace (T "form-data; name=" ++ [DQUOTE] ++ name ++ [DQUOTE]
             ++ T "; filename=" ++ [DQUOTE] ++ filename ++ [DQUOTE])
    with (T "form-data;"
            ++ quoted_option (T "name") name
            ++ (";"%char :: quoted_option (T "filename") filename) ++ []).
  2:{ unfold quoted_option. cbn [T list_ascii_of_string app].
      rewrite <- !app_assoc, app_nil_r. reflexivity. }
  cbn [T list_ascii_of_string app contains_ch existsb ch_eqb Ascii.eqb
       Bool.eqb orb negb split1].
  change (default ∅ None) with (∅ : gmap (list ascii) (list ascii)).
  unfold finditer.
  set (second := ";"%char
                 :: quoted_option
                      ["f"; "i"; "l"; "e"; "n"; "a"; "m"; "e"]%char filename).
  rewrite (finditer_from_match _option 0 _ (second ++ [])
             (MState (length (quoted_option (T "name") name)) (second ++ [])
                [(2%nat, DQUOTE :: name ++ [DQUOTE]); (1%nat, T "name")])).
  - rewrite (finditer_from_match _option _ second []
               (MState (0 + length (quoted_option (T "name") name)
                        + length second) []
                  [(2%nat, DQUOTE :: filename ++ [DQUOTE]);
                   (1%nat, T "filename")])).
    + rewrite finditer_option_end
        by (unfold quoted_option; cbn [length Nat.add]; lia).
      cbn [m_caps record_options foldl rbind]. unfold record_option.
      cbn [group Nat.eqb].
      rewrite !header_unquote_plain by assumption.
      reflexivity.
    + discriminate.
    + apply (rmatch_option_next "f"%char (T "ilename") filename []);
        [repeat constructor|reflexivity|exact Hfile].
    + reflexivity.
  - apply quoted_option_nonempty.
  - apply (rmatch_option_first "n"%char (T "ame") name (second ++ []));
      [repeat constructor|reflexivity|exact Hname].
  - reflexivity.
Qed.

(** ** A part of the encoder, fed to a part of the decoder *)

Lemma parse_disposition (name : text) (filename : option text) :
  Forall (fun c => plain c = true) name ->
  (forall f, filename = Some f -> Forall (fun c => plain c = true) f) ->
  parse_options_header (disposition_value name filename) None
  = Ok (T "form-data", disposition_options name filename).
Proof.
  intros Hname Hfile. destruct filename as [f|].
  - apply parse_disposition_file; auto.
  - apply parse_disposition_field; auto.
Qed.

Lemma disposition_options_lookup (name : text) (filename : option text) :
  disposition_options name filename !! T "name" = Some name
  /\ disposition_options name filename !! T "filename" = filename.
Proof.
  destruct filename as [f|]; unfold disposition_options.
  - rewrite lookup_insert_ne by discriminate.
    rewrite lookup_singleton_eq, lookup_insert_eq. auto.
  - rewrite lookup_singleton_eq, lookup_singleton_ne by discriminate. auto.
Qed.

Lemma lstrip_head (c : ascii) (s : text) :
  is_uspace c = false -> lstrip (c :: s) = c :: s.
Proof. intros H. cbn [lstrip]. rewrite H. reflexivity. Qed.

(** A text that neither begins nor ends with white space is stripped
    already. *)
Lemma strip_id (c d : ascii) (s : text) :
  is_uspace c = false -> is_uspace d = false ->
  strip (c :: s ++ [d]) = c :: s ++ [d].
Proof.
  intros Hc Hd. unfold strip. rewrite (lstrip_head c _ Hc).
  rewrite app_comm_cons, rev_app_distr. cbn [rev app].
  rewrite (lstrip_head d _ Hd).
  cbn [rev]. rewrite rev_app_distr, rev_involutive. reflexivity.
Qed.

Lemma disposition_value_shape (name : text) (filename : option text) :
  exists s, disposition_value name filename = "f"%char :: s ++ [DQUOTE].
Proof.
  destruct filename as [f|]; unfold disposition_value.
  - exists (T "orm-data; name=" ++ [DQUOTE] ++ name ++ [DQUOTE]
              ++ T "; filename=" ++ [DQUOTE] ++ f).
    cbn [T list_ascii_of_string app]; do 17 f_equal;
      rewrite <- ?app_assoc; reflexivity.
  - exists (T "orm-data; name=" ++ [DQUOTE] ++ name).
    cbn [T list_ascii_of_string app]; do 17 f_equal;
      rewrite <- ?app_assoc; reflexivity.
Qed.

Lemma strip_lspace (c : ascii) (s : text) :
  is_uspace c = true -> strip (c :: s) = strip s.
Proof. intros H. unfold strip. cbn [lstrip]. rewrite H. reflexivity. Qed.

Lemma contains_ch_app (c : ascii) (a b : text) :
  contains_ch c (a ++ b) = contains_ch c a || contains_ch c b.
Proof. apply existsb_app. Qed.

Lemma split1_app (c : ascii) (a b : text) :
  contains_ch c a = false -> split1 c (a ++ c :: b) = (a, Some b).
Proof.
  induction a as [|x a IH]; intros H; cbn [app split1].
  - rewrite ch_eqb_refl. reflexivity.
  - cbn [contains_ch existsb] in H. apply orb_false_iff in H as [H1 H2].
    rewrite (ch_eqb_sym x c), H1, (IH H2). reflexivity.
Qed.

Lemma feed_disposition_line (p : MultipartPart.t) (name : text)
    (filename : option text) :
  MultipartPart.file p = MultipartPart.NoFile ->
  MultipartPart.headerlist p = [] ->
  MultipartPart.charset p = T "latin1" ->
  MultipartPart.feed p (disposition_line name filename) CRLF
  = (MultipartPart.set_headerlist p
       [(Part.CONTENT_DISPOSITION, disposition_value name filename)], None).
Proof.
  intros Hf Hh Hcs. unfold MultipartPart.feed. rewrite Hf.
  unfold MultipartPart.write_header. rewrite Hcs, decode_latin1.
  set (dv := disposition_value name filename).
  set (line := disposition_line name filename).
  destruct (disposition_value_shape name filename) as [s Hs]. fold dv in Hs.
  assert (Hline : line = "C"%char :: (T "ontent-Disposition: f" ++ s)
                                      ++ [DQUOTE]).
  { subst line. unfold disposition_line. fold dv. rewrite Hs.
    cbn [Part.CONTENT_DISPOSITION T list_ascii_of_string app].
    rewrite <- ?app_assoc. reflexivity. }
  assert (Hsplit : line = T "Content-Disposition" ++ ":"%char :: SPACE :: dv)
    by reflexivity.
  assert (H1 : strip line = line)
    by (rewrite Hline; apply strip_id; reflexivity).
  assert (H2 : contains_ch ":"%char line = true).
  { rewrite Hsplit, contains_ch_app.
    change (contains_ch ":"%char (":"%char :: SPACE :: dv)) with true.
    apply orb_true_r. }
  assert (H3 : split1 ":"%char line
               = (T "Content-Disposition", Some (SPACE :: dv)))
    by (rewrite Hsplit; apply split1_app; reflexivity).
  assert (H5 : strip (SPACE :: dv) = dv).
  { rewrite strip_lspace by reflexivity. rewrite Hs.
    apply strip_id; reflexivity. }
  change (is_empty CRLF) with false. cbv iota.
  rewrite H1, H2, H3, H5, Hh. clear H1 H2 H3 Hsplit. rewrite Hline.
  cbn [is_empty].
  change (contains_ch "C"%char [SPACE; TAB]) with false.
  cbn [andb negb].
  change (strip (T "Content-Disposition")) with Part.CONTENT_DISPOSITION.
  reflexivity.
Qed.

Lemma feed_blank_line (p : MultipartPart.t) (name : text)
    (filename : option text) :
  MultipartPart.file p = MultipartPart.NoFile ->
  MultipartPart.headerlist p
  = [(Part.CONTENT_DISPOSITION, disposition_value name filename)] ->
  MultipartPart.charset p = T "latin1" ->
  Forall (fun c => plain c = true) name ->
  (forall f, filename = Some f -> Forall (fun c => plain c = true) f) ->
  exists p',
    MultipartPart.feed p [] CRLF = (p', None)
    /\ MultipartPart.file p' = MultipartPart.BytesIO new_file
    /\ MultipartPart.size p' = MultipartPart.size p
    /\ MultipartPart._buf p' = MultipartPart._buf p
    /\ MultipartPart.name p' = Some name
    /\ MultipartPart.filename p' = filename
    /\ MultipartPart.content_length p' = Some (-1)
    /\ MultipartPart.memfile_limit p' = MultipartPart.memfile_limit p
    /\ MultipartPart.buffer_size p' = MultipartPart.buffer_size p.
Proof.
  intros Hf Hh Hcs Hname Hfile. unfold MultipartPart.feed. rewrite Hf.
  unfold MultipartPart.write_header. rewrite Hcs, decode_latin1.
  change (is_empty CRLF) with false.
  change (is_empty (strip [])) with true. cbv iota.
  destruct p as [hl hs fl sz bf dp nm fn ct cs op cl ml bs].
  cbn [MultipartPart.file MultipartPart.headerlist] in Hf, Hh.
  subst hl fl. unfold MultipartPart.finish_header.
  cbn [MultipartPart.set_file MultipartPart.headerlist MultipartPart.headers
       MultipartPart.file MultipartPart.size MultipartPart._buf
       MultipartPart.disposition MultipartPart.name MultipartPart.filename
       MultipartPart.content_type MultipartPart.charset MultipartPart.options
       MultipartPart.content_length MultipartPart.memfile_limit
       MultipartPart.buffer_size].
  assert (Hcd : headers_get
                  [(Part.CONTENT_DISPOSITION, disposition_value name filename)]
                  (T "Content-Disposition") []
                = disposition_value name filename) by reflexivity.
  assert (Hct : headers_get
                  [(Part.CONTENT_DISPOSITION, disposition_value name filename)]
                  (T "Content-Type") [] = []) by reflexivity.
  assert (Hcl : headers_get
                  [(Part.CONTENT_DISPOSITION, disposition_value name filename)]
                  (T "Content-Length") (T "-1") = T "-1") by reflexivity.
  rewrite Hcd, Hct, Hcl.
  assert (He : is_empty (disposition_value name filename) = false).
  { destruct (disposition_value_shape name filename) as [s ->].
    reflexivity. }
  rewrite He.
  rewrite (parse_disposition name filename Hname Hfile).
  change (parse_options_header [] None)
    with (@Ok (list ascii * gmap (list ascii) (list ascii)) ([], ∅)).
  cbv iota beta.
  rewrite lookup_empty.
  change (py_int (T "-1")) with (@Ok Z (-1)). cbv iota.
  destruct (disposition_options_lookup name filename) as [H1 H2].
  eexists. split; [reflexivity|].
  cbn [MultipartPart.file MultipartPart.size MultipartPart._buf
       MultipartPart.name MultipartPart.filename
       MultipartPart.content_length MultipartPart.memfile_limit
       MultipartPart.buffer_size].
  repeat split; auto.
Qed.

Lemma feed_value_line (p : MultipartPart.t) (value nl : bytes) :
  MultipartPart.file p = MultipartPart.BytesIO new_file ->
  MultipartPart.size p = 0 ->
  MultipartPart._buf p = [] ->
  MultipartPart.content_length p = Some (-1) ->
  MultipartPart.buffer_size p <> 0 ->
  nl <> [] ->
  exists p',
    MultipartPart.feed p value nl = (p', None)
    /\ MultipartPart.size p' = zlen value
    /\ MultipartPart.sink_file (MultipartPart.file p')
       = Some (File value (length value))
    /\ MultipartPart.name p' = MultipartPart.name p
    /\ MultipartPart.filename p' = MultipartPart.filename p.
Proof.
  intros Hf Hs Hb Hcl Hbs Hnl.
  assert (Hp : p = body_part true [] p).
  { destruct p as [hl hs fl sz bf dp nm fn ct cs op cl ml bs].
    cbn in Hf, Hs. subst fl sz. reflexivity. }
  rewrite Hp, feed_body_part,
    (write_body_eq true [] p (-1) value nl Hcl Hbs).
  replace (is_empty value && is_empty nl) with false
    by (destruct nl; [contradiction|]; apply eq_sym, andb_false_r).
  cbv zeta. rewrite Hb. cbn [app andb].
  change (-1 >? 0) with false. cbv iota.
  set (q := MultipartPart.set_body p MultipartPart.NoFile 0 nl).
  assert (Hq : forall mem,
            MultipartPart.size (body_part mem value q) = zlen value
            /\ MultipartPart.sink_file
                 (MultipartPart.file (body_part mem value q))
               = Some (File value (length value))
            /\ MultipartPart.name (body_part mem value q)
               = MultipartPart.name (body_part true [] p)
            /\ MultipartPart.filename (body_part mem value q)
               = MultipartPart.filename (body_part true [] p)).
  { intros mem. destruct mem; cbn; auto. }
  destruct (zlen value >? MultipartPart.memfile_limit p);
    eexists; (split; [reflexivity|apply Hq]).
Qed.

(** ** The main loop on the lines of an encoded form *)

Lemma text_eqb_neq (a b : list ascii) : a <> b -> text_eqb a b = false.
Proof.
  intros H. destruct (text_eqb a b) eqn:E; [|reflexivity].
  apply text_eqb_eq in E. contradiction.
Qed.

(** A line that is not a boundary, fed without an exception and within
    the limits: the loop goes on. *)
Lemma iterparse_loop_feed (self : MultipartParser.t)
    (v : MultipartParser.locals) (line nl : bytes)
    (rest : list line_event) (p' : MultipartPart.t) :
  line <> MultipartParser.terminator self ->
  line <> MultipartParser.separator self ->
  MultipartPart.feed (MultipartParser.part v) line nl = (p', None) ->
  (if MultipartPart.is_buffered p'
   then MultipartPart.size p' + MultipartParser.mem_used v
        <= MultipartParser.mem_limit self
   else MultipartPart.size p' + MultipartParser.disk_used v
        <= MultipartParser.disk_limit self) ->
  MultipartParser.iterparse_loop self v (LLine line nl :: rest)
  = MultipartParser.iterparse_loop self
      (MultipartParser.Locals (MultipartParser.mem_used v)
         (MultipartParser.disk_used v) (is_empty nl) p' line) rest.
Proof.
  intros Ht Hs Hf Hlim. cbn [MultipartParser.iterparse_loop].
  rewrite (text_eqb_neq _ _ Ht), (text_eqb_neq _ _ Hs). cbn [andb].
  rewrite Hf. destruct (MultipartPart.is_buffered p').
  - destruct (Z.gtb_spec (MultipartPart.size p' + MultipartParser.mem_used v)
                (MultipartParser.mem_limit self)); [lia|reflexivity].
  - destruct (Z.gtb_spec (MultipartPart.size p' + MultipartParser.disk_used v)
                (MultipartParser.disk_limit self)); [lia|reflexivity].
Qed.

Lemma separator_not_terminator (self : MultipartParser.t) :
  MultipartParser.separator self <> MultipartParser.terminator self.
Proof.
  unfold MultipartParser.separator, MultipartParser.terminator.
  intros E. apply (f_equal length) in E.
  rewrite !length_app in E. cbn [T list_ascii_of_string length] in E. lia.
Qed.

Lemma seal_summary (p : MultipartPart.t) (f : fileobj) :
  MultipartPart.sink_file (MultipartPart.file p) = Some f ->
  exists q,
    MultipartPart.seal p = Ok q
    /\ part_summary q
       = (MultipartPart.name p, MultipartPart.filename p, f_data f).
Proof.
  destruct p as [hl hs fl sz bf dp nm fn ct cs op cl ml bs].
  unfold MultipartPart.seal, part_summary, body_data. cbn.
  destruct fl as [|g|g]; cbn; intros [= <-]; eexists;
    (split; [reflexivity|reflexivity]).
Qed.

Lemma disposition_line_not_boundary (name : text) (filename : option text)
    (x : text) :
  disposition_line name filename <> T "--" ++ x.
Proof. discriminate. Qed.

(** The three lines of a part, seen by the main loop. *)
Lemma iterparse_loop_part (self : MultipartParser.t)
    (name : text) (filename : option text) (value : bytes)
    (mem disk : Z) (l0 : bytes) (rest : list line_event) :
  MultipartParser.buffer_size self <> 0 ->
  MultipartParser.charset self = T "latin1" ->
  Forall (fun c => plain c = true) name ->
  (forall f, filename = Some f -> Forall (fun c => plain c = true) f) ->
  value <> MultipartParser.separator self ->
  value <> MultipartParser.terminator self ->
  0 <= mem -> 0 <= disk ->
  mem + zlen value <= MultipartParser.mem_limit self ->
  disk + zlen value <= MultipartParser.disk_limit self ->
  exists p q,
    MultipartParser.iterparse_loop self
      (MultipartParser.Locals mem disk false
         (MultipartParser.new_part self) l0)
      (as_events (part_lines (name, filename, value)) ++ rest)
    = MultipartParser.iterparse_loop self
        (MultipartParser.Locals mem disk false p value) rest
    /\ MultipartPart.size p = zlen value
    /\ MultipartPart.seal p = Ok q
    /\ part_summary q = (Some name, filename, value).
Proof.
  intros Hbs Hcs Hname Hfile Hsep Hterm Hmem Hdisk Hm Hd.
  pose proof (zlen_nonneg value) as Hv.
  unfold part_lines, as_events. cbn [fst snd map app].
  set (p1 := MultipartPart.set_headerlist (MultipartParser.new_part self)
               [(Part.CONTENT_DISPOSITION, disposition_value name filename)]).
  rewrite (iterparse_loop_feed self _ _ _ _ p1).
  2, 3: apply disposition_line_not_boundary.
  2: apply feed_disposition_line; [reflexivity|reflexivity|exact Hcs].
  2: cbn; lia.
  cbn [MultipartParser.mem_used MultipartParser.disk_used].
  destruct (feed_blank_line p1 name filename eq_refl eq_refl Hcs Hname Hfile)
    as (p2 & Hfeed2 & Hfile2 & Hsize2 & Hbuf2 & Hname2 & Hfn2 & Hcl2
        & Hml2 & Hbs2).
  rewrite (iterparse_loop_feed self _ _ _ _ p2).
  2, 3: discriminate.
  2: exact Hfeed2.
  2:{ unfold MultipartPart.is_buffered. rewrite Hfile2, Hsize2.
      cbn. lia. }
  cbn [MultipartParser.mem_used MultipartParser.disk_used].
  destruct (feed_value_line p2 value CRLF Hfile2) as
    (p3 & Hfeed3 & Hsize3 & Hsink3 & Hname3 & Hfn3).
  { rewrite Hsize2. reflexivity. }
  { rewrite Hbuf2. reflexivity. }
  { exact Hcl2. }
  { rewrite Hbs2. exact Hbs. }
  { discriminate. }
  rewrite (iterparse_loop_feed self _ _ _ _ p3).
  2: exact Hterm.
  2: exact Hsep.
  2: exact Hfeed3.
  2:{ rewrite Hsize3.
      cbn [MultipartParser.mem_used MultipartParser.disk_used].
      destruct (MultipartPart.is_buffered p3); lia. }
  cbn [MultipartParser.mem_used MultipartParser.disk_used].
  destruct (seal_summary p3 _ Hsink3) as (q & Hseal & Hsum).
  rewrite Hname3, Hfn3, Hname2, Hfn2 in Hsum. cbn [f_data] in Hsum.
  exists p3, q. auto.
Qed.

Lemma total_size_cons (f : list ascii * option (list ascii) * list ascii)
    (fs : form) :
  total_size (f :: fs) = zlen (snd f) + total_size fs.
Proof. reflexivity. Qed.

Lemma total_size_nonneg (fs : form) : 0 <= total_size fs.
Proof.
  induction fs as [|f fs IH]; [reflexivity|].
  rewrite total_size_cons. pose proof (zlen_nonneg (snd f)). lia.
Qed.

(** The parts of a form come out of the main loop as they went in. *)
Lemma iterparse_loop_form (self : MultipartParser.t) :
  MultipartParser.buffer_size self <> 0 ->
  MultipartParser.charset self = T "latin1" ->
  MultipartParser.mem_limit self <= MultipartParser.disk_limit self ->
  forall fs f mem disk l0,
    Forall (encodable (MultipartParser.separator self)
              (MultipartParser.terminator self)
              (MultipartParser.buffer_size self)) (f :: fs) ->
    0 <= mem -> 0 <= disk ->
    mem + disk + total_size (f :: fs) <= MultipartParser.mem_limit self ->
    let events :=
      MultipartParser.iterparse_loop self
        (MultipartParser.Locals mem disk false
           (MultipartParser.new_part self) l0)
        (as_events
           (part_lines f
              ++ tail_lines (MultipartParser.separator self)
                   (MultipartParser.terminator self) fs)) in
    raise_of events = None
    /\ map part_summary (yields events) = map field_summary (f :: fs).
Proof.
  intros Hbs Hcs Hlimits. induction fs as [|g fs IH];
    intros [[name filename] value] mem disk l0 Hall Hmem Hdisk Htotal;
    apply Forall_cons in Hall
      as [((Hname & _ & _) & Hfile & _ & _ & Hsep & Hterm & _ & _) Hall];
    cbn [fst snd] in *; cbv zeta;
    rewrite total_size_cons in Htotal; cbn [snd] in Htotal;
    pose proof (zlen_nonneg value) as Hv;
    unfold as_events; rewrite map_app;
    fold (as_events (part_lines (name, filename, value))).
  - destruct (iterparse_loop_part self name filename value mem disk l0
                (map (fun l => LLine (fst l) (snd l))
                   (tail_lines (MultipartParser.separator self)
                      (MultipartParser.terminator self) []))
                Hbs Hcs Hname (fun f E => proj1 (Hfile f E)) Hsep Hterm
                Hmem Hdisk)
      as (p & q & -> & Hsize & Hseal & Hsum).
    { change (total_size []) with 0 in Htotal. lia. }
    { change (total_size []) with 0 in Htotal. lia. }
    cbn [tail_lines map fst snd MultipartParser.iterparse_loop
         MultipartParser.is_tail MultipartParser.part].
    rewrite text_eqb_refl. cbn [andb negb]. rewrite Hseal.
    cbn [raise_of yields map]. rewrite Hsum. auto.
  - rewrite total_size_cons in Htotal.
    pose proof (zlen_nonneg (snd g)) as Hg.
    pose proof (total_size_nonneg fs) as Hfs'.
    destruct (iterparse_loop_part self name filename value mem disk l0
                (map (fun l => LLine (fst l) (snd l))
                   (tail_lines (MultipartParser.separator self)
                      (MultipartParser.terminator self) (g :: fs)))
                Hbs Hcs Hname (fun f E => proj1 (Hfile f E)) Hsep Hterm
                Hmem Hdisk)
      as (p & q & -> & Hsize & Hseal & Hsum); [lia|lia|].
    cbn [tail_lines map fst snd].
    cbn [MultipartParser.iterparse_loop MultipartParser.is_tail
         MultipartParser.part MultipartParser.mem_used
         MultipartParser.disk_used].
    rewrite (text_eqb_neq _ _ (separator_not_terminator self)).
    rewrite text_eqb_refl. cbn [andb negb]. rewrite Hseal, Hsize.
    destruct (MultipartPart.is_buffered p);
      cbn [raise_of yields map]; rewrite Hsum;
      match goal with
      | |- context [MultipartParser.iterparse_loop self
                      (MultipartParser.Locals ?m ?d _ _ ?l) _] =>
          destruct (IH g m d l Hall) as [H1 H2];
            [lia|lia|rewrite total_size_cons; lia|]
      end;
      unfold as_events in H1, H2; cbv zeta in H1, H2;
      rewrite H1, H2; auto.
Qed.

(** The reads of the line reader do not matter to what the parser yields
    and raises. *)
Lemma iterparse_loop_lines (self : MultipartParser.t)
    (events : list line_event) :
  ~ raises events ->
  forall v,
    yields (MultipartParser.iterparse_loop self v events)
    = yields (MultipartParser.iterparse_loop self v
                (as_events (lines_of events)))
    /\ raise_of (MultipartParser.iterparse_loop self v events)
       = raise_of (MultipartParser.iterparse_loop self v
                     (as_events (lines_of events))).
Proof.
  induction events as [|[d|line nl|e] events IH]; intros Hnr v.
  - auto.
  - cbn [MultipartParser.iterparse_loop lines_of yields raise_of].
    apply IH. intros [e He]. apply Hnr. exists e.
    apply list_elem_of_further. exact He.
  - assert (Hnr' : ~ raises events).
    { intros [e He]. apply Hnr. exists e.
      apply list_elem_of_further. exact He. }
    cbn [lines_of as_events map fst snd MultipartParser.iterparse_loop].
    fold (as_events (lines_of events)).
    repeat match goal with
           | |- context [if ?c then _ else _] => destruct c
           | |- context [match MultipartPart.seal ?p with _ => _ end] =>
               destruct (MultipartPart.seal p)
           | |- context [match MultipartPart.feed ?p ?l ?n with _ => _ end] =>
               destruct (MultipartPart.feed p l n) as [? [?|]]
           end;
      cbn [yields raise_of]; auto;
      match goal with
      | |- context [MultipartParser.iterparse_loop self ?v' events] =>
          destruct (IH Hnr' v') as [H1 H2]; rewrite H1, H2; auto
      end.
  - exfalso. apply Hnr. exists e. apply list_elem_of_here.
Qed.

Lemma iterparse_start_lines (self : MultipartParser.t)
    (events : list line_event) :
  ~ raises events ->
  forall line,
    yields (MultipartParser.iterparse_start self line events)
    = yields (MultipartParser.iterparse_start self line
                (as_events (lines_of events)))
    /\ raise_of (MultipartParser.iterparse_start self line events)
       = raise_of (MultipartParser.iterparse_start self line
                     (as_events (lines_of events))).
Proof.
  induction events as [|[d|line' nl|e] events IH]; intros Hnr line.
  - auto.
  - cbn [MultipartParser.iterparse_start lines_of yields raise_of].
    apply IH. intros [e He]. apply Hnr. exists e.
    apply list_elem_of_further. exact He.
  - assert (Hnr' : ~ raises events).
    { intros [e He]. apply Hnr. exists e.
      apply list_elem_of_further. exact He. }
    cbn [lines_of as_events map fst snd MultipartParser.iterparse_start].
    fold (as_events (lines_of events)).
    destruct (negb (is_empty line')); [|apply IH; exact Hnr'].
    destruct (negb _); [auto|]. apply iterparse_loop_lines. exact Hnr'.
  - exfalso. apply Hnr. exists e. apply list_elem_of_here.
Qed.

Lemma drain_raise_of (events : list MultipartParser.event) :
  forall self,
    MultipartParser.raised (MultipartParser.drain self events)
    = raise_of events.
Proof.
  induction events as [|[d|q|e] events IH]; intros self;
    cbn [MultipartParser.drain MultipartParser.raised raise_of]; auto.
Qed.

(** ** The lines of an encoded form *)

Lemma splitlines_crlf_line (l rest : bytes) :
  (CR ∉ l) -> (LF ∉ l) ->
  splitlines (l ++ CRLF ++ rest) = (l ++ CRLF) :: splitlines rest.
Proof.
  induction l as [|c l IH]; intros Hcr Hlf.
  - reflexivity.
  - apply not_elem_of_cons in Hcr as [Hc1 Hcr].
    apply not_elem_of_cons in Hlf as [Hc2 Hlf].
    cbn [app]. rewrite splitlines_other.
    + change (l ++ CR :: LF :: rest) with (l ++ CRLF ++ rest).
      rewrite (IH Hcr Hlf). reflexivity.
    + apply ch_eqb_neq. congruence.
    + apply ch_eqb_neq. congruence.
Qed.

Lemma splitlines_crlf_lines (ls : list bytes) :
  Forall (fun l => (CR ∉ l) /\ (LF ∉ l)) ls ->
  splitlines (concat (map (fun l => l ++ CRLF) ls))
  = map (fun l => l ++ CRLF) ls.
Proof.
  induction 1 as [|l ls [Hcr Hlf] _ IH]; [reflexivity|].
  cbn [map concat]. rewrite <- app_assoc.
  rewrite (splitlines_crlf_line l _ Hcr Hlf), IH. reflexivity.
Qed.

Lemma join_crlf (ls : list text) :
  Multipart.join Part.CRLF (ls ++ [[]])
  = concat (map (fun l => l ++ CRLF) ls).
Proof.
  induction ls as [|l ls IH]; [reflexivity|].
  cbn [app map concat]. rewrite <- IH, <- app_assoc.
  destruct ls; reflexivity.
Qed.

Lemma emit_crlf_lines (ls : list bytes) :
  Forall (fun l => (CR ∉ l) /\ (LF ∉ l)) ls ->
  map MultipartParser.emit (map (fun l => l ++ CRLF) ls)
  = map (fun l => (l, CRLF)) ls.
Proof.
  induction 1 as [|l ls [Hcr Hlf] _ IH]; [reflexivity|].
  cbn [map]. rewrite IH, (emit_shaped l CRLF Hcr Hlf); [reflexivity|].
  unfold is_eol. auto.
Qed.

Lemma add_all_parts (fs : form) :
  forall m,
    Multipart.parts (foldl add_part m fs)
    = Multipart.parts m
      ++ map (fun f => Part.__init__ (fst (fst f)) (snd (fst f)) (snd f) ∅)
           fs.
Proof.
  induction fs as [|[[name filename] value] fs IH]; intros m.
  - cbn. rewrite app_nil_r. reflexivity.
  - cbn [foldl map fst snd]. rewrite IH.
    destruct filename; cbn [add_part Multipart.field Multipart.file
                            Multipart.parts];
      rewrite <- app_assoc; reflexivity.
Qed.

Lemma part_get_lines (name : text) (filename : option text) (value : text) :
  Part.get (Part.__init__ name filename value ∅)
  = [encoder_separator; disposition_line name filename; []; value].
Proof.
  unfold Part.get, Part.__init__.
  cbn [Part._headers Part._body].
  rewrite insert_empty, map_to_list_singleton.
  destruct filename; reflexivity.
Qed.

Lemma multipart_get_body (fs : form) :
  snd (Multipart.get (add_all fs))
  = concat (map (fun l => l ++ CRLF)
              (form_lines encoder_separator encoder_terminator fs)).
Proof.
  unfold Multipart.get, add_all. cbn [snd]. rewrite add_all_parts.
  cbn [Multipart.parts Multipart.__init__ app].
  change [T "--" ++ Part.BOUNDARY ++ T "--"; []]
    with ([encoder_terminator] ++ [[]]).
  rewrite app_assoc, join_crlf. do 2 f_equal.
  induction fs as [|[[name filename] value] fs IH]; [reflexivity|].
  cbn [map concat fst snd form_lines]. rewrite part_get_lines.
  cbn [app]. rewrite <- IH. reflexivity.
Qed.

Lemma form_lines_tail (separator terminator : bytes) (fs : form) :
  map (fun l => (l, CRLF)) (form_lines separator terminator fs)
  = tail_lines separator terminator fs.
Proof.
  induction fs as [|f fs IH]; [reflexivity|].
  cbn [form_lines tail_lines map part_lines app]. rewrite IH. reflexivity.
Qed.

Lemma not_elem_of_contains (c : ascii) (s : text) :
  contains_ch c s = false -> c ∉ s.
Proof.
  intros H Hin. apply contains_ch_elem in Hin. congruence.
Qed.

Lemma disposition_line_no_break (name : text) (filename : option text) :
  quotable name ->
  (forall f, filename = Some f -> quotable f) ->
  (CR ∉ disposition_line name filename)
  /\ (LF ∉ disposition_line name filename).
Proof.
  intros (_ & Hcr & Hlf) Hfile.
  unfold disposition_line, disposition_value, Part.CONTENT_DISPOSITION.
  destruct filename as [f|].
  - destruct (Hfile f eq_refl) as (_ & Hfcr & Hflf).
    split; rewrite ?not_elem_of_app; repeat split; auto;
      apply not_elem_of_contains; reflexivity.
  - split; rewrite ?not_elem_of_app; repeat split; auto;
      apply not_elem_of_contains; reflexivity.
Qed.

Lemma form_lines_ok (L : Z) (fs : form) :
  22 <= L ->
  Forall (encodable encoder_separator encoder_terminator L) fs ->
  Forall (fun l => (CR ∉ l) /\ (LF ∉ l))
    (form_lines encoder_separator encoder_terminator fs)
  /\ Forall (fun l => zlen l <= L)
       (map (fun l => l ++ CRLF)
          (form_lines encoder_separator encoder_terminator fs)).
Proof.
  intros HL. induction 1 as [|[[name filename] value] fs Hf _ [IH1 IH2]].
  - split; repeat constructor;
      try (apply not_elem_of_contains; reflexivity).
    change (zlen (encoder_terminator ++ CRLF)) with 22. exact HL.
  - destruct Hf as (Hname & Hfile & Hcr & Hlf & _ & _ & Hlen1 & Hlen2).
    cbn [fst snd] in *.
    destruct (disposition_line_no_break name filename Hname Hfile)
      as [Hdcr Hdlf].
    cbn [form_lines fst snd map]. split.
    + repeat apply Forall_cons_2; auto;
        split; try (apply not_elem_of_contains; reflexivity).
    + repeat apply Forall_cons_2; auto; rewrite ?zlen_app;
        change (zlen CRLF) with 2; try lia.
      * change (zlen encoder_separator) with 18. lia.
      * change (zlen (@nil ascii)) with 0. lia.
Qed.

Lemma quotable_check (s : text) : quotable_b s = true -> quotable s.
Proof.
  unfold quotable_b, quotable. intros H.
  apply andb_true_iff in H as [H H3]. apply andb_true_iff in H as [H1 H2].
  apply negb_true_iff in H2, H3. split; [|split].
  - apply Forall_forall. intros c Hc.
    rewrite forallb_forall in H1. apply H1, list_elem_of_In, Hc.
  - apply not_elem_of_contains, H2.
  - apply not_elem_of_contains, H3.
Qed.

Lemma encodable_check (separator terminator : bytes) (L : Z)
    (f : list ascii * option (list ascii) * list ascii) :
  encodable_b separator terminator L f = true ->
  encodable separator terminator L f.
Proof.
  unfold encodable_b, encodable. intros H.
  repeat match type of H with
         | _ && _ = true =>
             let H' := fresh "H" in apply andb_true_iff in H as [H H']
         end.
  repeat match goal with
         | H : negb _ = true |- _ => apply negb_true_iff in H
         end.
  split; [apply quotable_check; assumption|].
  split.
  { intros filename E. rewrite E in *. apply quotable_check. assumption. }
  split; [apply not_elem_of_contains; assumption|].
  split; [apply not_elem_of_contains; assumption|].
  split.
  { intros E. rewrite E, text_eqb_refl in *. discriminate. }
  split.
  { intros E. rewrite E, text_eqb_refl in *. discriminate. }
  split; apply Z.leb_le; assumption.
Qed.

(** X20: the decoder reads back what the encoder writes.  Take a form of
    at least one part whose names and file names have no backslash, double
    quote or line break, whose values are single lines other than the
    boundary lines, whose lines fit the buffer of the parser and whose
    values together are no larger than its [mem_limit].  A fresh parser
    over the body [Multipart.get()] returns for the form, with the
    boundary of the encoder, the charset latin1 (the default of the
    constructor, under which the names are decoded byte by byte), no limit
    on the bytes to read, a buffer of 22 bytes at least and a [mem_limit]
    that is at most its [disk_limit] (as the constructor makes it), parses
    the body without an exception into as many parts, in the same order,
    each with the name, the file name and the value of its part of the
    form.  The content type returned with the body declares the boundary
    the body uses. *)
Theorem encode_decode_round_trip (fs : form) (self : MultipartParser.t) :
  MultipartParser.stream self = snd (Multipart.get (add_all fs)) ->
  MultipartParser.boundary self = Part.BOUNDARY ->
  MultipartParser.charset self = T "latin1" ->
  MultipartParser.content_length self < 0 ->
  MultipartParser._part_iter self = None ->
  MultipartParser._done self = [] ->
  22 <= MultipartParser.buffer_size self ->
  MultipartParser.mem_limit self <= MultipartParser.disk_limit self ->
  fs <> [] ->
  Forall (encodable encoder_separator encoder_terminator
            (MultipartParser.buffer_size self)) fs ->
  total_size fs <= MultipartParser.mem_limit self ->
  parse_options_header (fst (Multipart.get (add_all fs))) None
  = Ok (T "multipart/form-data", {[ T "boundary" := Part.BOUNDARY ]})
  /\ exists ps,
       MultipartParser.parts self = Ok ps
       /\ map part_summary ps = map field_summary fs.
Proof.
  intros Hstream Hboundary Hcs Hcl Hiter Hdone HL Hlimits Hne Hall Htotal.
  split; [vm_compute; reflexivity|].
  set (body := snd (Multipart.get (add_all fs))) in *.
  assert (Hsep : MultipartParser.separator self = encoder_separator)
    by (unfold MultipartParser.separator; rewrite Hboundary; reflexivity).
  assert (Hterm : MultipartParser.terminator self = encoder_terminator)
    by (unfold MultipartParser.terminator; rewrite Hboundary; reflexivity).
  destruct (form_lines_ok _ fs HL Hall) as [Hbreaks Hfit].
  assert (Hbody : body = concat (map (fun l => l ++ CRLF)
                    (form_lines encoder_separator encoder_terminator fs)))
    by apply multipart_get_body.
  assert (Hsplit : splitlines body
                   = map (fun l => l ++ CRLF)
                       (form_lines encoder_separator encoder_terminator fs))
    by (rewrite Hbody; apply splitlines_crlf_lines; exact Hbreaks).
  assert (Hbne : body <> []).
  { intros E. rewrite E in Hsplit. destruct fs; discriminate. }
  assert (Hnr : ~ raises (MultipartParser._lineiter self)).
  { intros Hr. apply lineiter_loop_raises in Hr as [_ Hr].
    apply (lineiter_first_read self); [lia|congruence|lia|exact Hr]. }
  assert (Hlines : lines_of (MultipartParser._lineiter self)
                   = tail_lines encoder_separator encoder_terminator fs).
  { unfold MultipartParser._lineiter. rewrite Hstream.
    change (_bempty) with (@nil ascii).
    rewrite lineiter_loop_fitting;
      [|lia|exact Hcl|lia|apply line_shaped_nil|intros _; exact Hbne
       |cbn [app]; rewrite Hsplit; exact Hfit].
    cbn [app].
    rewrite Hsplit, (emit_crlf_lines _ Hbreaks). apply form_lines_tail. }
  destruct fs as [|f fs]; [contradiction|].
  destruct (iterparse_start_lines self (MultipartParser._lineiter self) Hnr [])
    as [Hy Hr].
  rewrite Hlines in Hy, Hr.
  cbn [tail_lines as_events map fst snd MultipartParser.iterparse_start]
    in Hy, Hr.
  change (negb (is_empty encoder_separator)) with true in Hy, Hr.
  rewrite Hsep, text_eqb_refl in Hy, Hr. cbn [negb] in Hy, Hr.
  rewrite <- Hsep, <- Hterm in Hall.
  destruct (iterparse_loop_form self ltac:(lia) Hcs Hlimits
              fs f 0 0 encoder_separator Hall ltac:(lia) ltac:(lia)
              ltac:(exact Htotal)) as [Hraise Hsum].
  cbv zeta in Hraise, Hsum. unfold as_events in Hraise, Hsum.
  rewrite Hsep, Hterm in Hraise, Hsum.
  rewrite Hraise in Hr. rewrite <- Hy in Hsum.
  exists (yields (MultipartParser._iterparse self)).
  split; [|exact Hsum].
  unfold MultipartParser.parts, MultipartParser.iterate.
  rewrite Hiter, Hdone.
  cbn [MultipartParser.raised MultipartParser.yielded app].
  rewrite drain_raise_of, drain_yielded.
  unfold MultipartParser._iterparse. rewrite Hr. reflexivity.
Qed.

Lemma encode_decode_round_trip_witness :
  parse_options_header (fst (Multipart.get (add_all demo_form))) None
  = Ok (T "multipart/form-data", {[ T "boundary" := Part.BOUNDARY ]})
  /\ exists ps,
    MultipartParser.parts
      (MultipartParser.Make (snd (Multipart.get (add_all demo_form)))
         Part.BOUNDARY (-1) (2 ^ 30) (2 ^ 18) (2 ^ 20) (2 ^ 16) (T "latin1")
         [] None)
    = Ok ps
    /\ map part_summary ps
       = [(Some (T "a"), None, T "hello");
          (Some (T "upload"), Some (T "x.txt"), T "some data")].
Proof.
  apply (encode_decode_round_trip demo_form
           (MultipartParser.Make (snd (Multipart.get (add_all demo_form)))
              Part.BOUNDARY (-1) (2 ^ 30) (2 ^ 18) (2 ^ 20) (2 ^ 16)
              (T "latin1") [] None)).
  - reflexivity.
  - reflexivity.
  - reflexivity.
  - reflexivity.
  - reflexivity.
  - reflexivity.
  - cbn. lia.
  - cbn. lia.
  - discriminate.
  - repeat apply Forall_cons_2; [| |apply Forall_nil_2];
      apply encodable_check; vm_compute; reflexivity.
  - vm_compute. discriminate.
Defined.

(** ** The first boundary *)

Lemma separator_nonempty (self : MultipartParser.t) :
  [] <> MultipartParser.separator self.
Proof. discriminate. Qed.

Lemma iterparse_start_no_boundary (self : MultipartParser.t)
    (lines : list (bytes * bytes)) :
  forall line0,
    line0 <> MultipartParser.separator self ->
    (forall line nl,
       first_content lines = Some (line, nl) ->
       line <> MultipartParser.separator self) ->
    MultipartParser.iterparse_start self line0 (as_events lines)
    = [MultipartParser.Raised (MultipartError StreamDoesNotStart)].
Proof.
  induction lines as [|[line nl] lines IH]; intros line0 H0 Hfirst.
  - cbn [as_events map MultipartParser.iterparse_start].
    rewrite (text_eqb_neq _ _ H0). reflexivity.
  - cbn [as_events map fst snd MultipartParser.iterparse_start].
    fold (as_events lines).
    unfold first_content in Hfirst. cbn [List.find fst] in Hfirst.
    destruct (negb (is_empty line)) eqn:E.
    + rewrite (text_eqb_neq _ _ (Hfirst line nl eq_refl)). reflexivity.
    + apply negb_false_iff, is_empty_nil in E. subst line.
      apply IH; [apply separator_nonempty|exact Hfirst].
Qed.

(** X21: the stream must start with the boundary.  When the first line
    of some content that the line reader yields is not the separator, two
    dashes and the boundary, or when no line has any content, the parser
    raises the error of the module that the stream does not start with the
    boundary, whatever follows.  Blank lines before that line are passed
    over. *)
Theorem stream_must_start_with_boundary (self : MultipartParser.t) :
  MultipartParser._part_iter self = None ->
  0 < MultipartParser.buffer_size self ->
  MultipartParser.stream self <> [] ->
  MultipartParser.content_length self <> 0 ->
  (forall line nl,
     first_content (lines_of (MultipartParser._lineiter self))
     = Some (line, nl) ->
     line <> MultipartParser.separator self) ->
  MultipartParser.parts self = Raise (MultipartError StreamDoesNotStart).
Proof.
  intros Hiter HL Hs Hc Hfirst.
  assert (Hnr : ~ raises (MultipartParser._lineiter self)).
  { intros Hr. apply lineiter_loop_raises in Hr as [_ Hr].
    apply (lineiter_first_read self HL Hs Hc). exact Hr. }
  destruct (iterparse_start_lines self _ Hnr []) as [_ Hr].
  rewrite (iterparse_start_no_boundary self _ [] (separator_nonempty self)
             Hfirst) in Hr.
  unfold MultipartParser.parts, MultipartParser.iterate. rewrite Hiter.
  cbn [MultipartParser.raised]. rewrite drain_raise_of.
  unfold MultipartParser._iterparse. rewrite Hr. reflexivity.
Qed.

Lemma stream_must_start_with_boundary_witness :
  MultipartParser.parts lines_parser
  = Raise (MultipartError StreamDoesNotStart).
Proof.
  apply (stream_must_start_with_boundary lines_parser).
  - reflexivity.
  - reflexivity.
  - discriminate.
  - discriminate.
  - intros line nl H. vm_compute in H. injection H as <- _. discriminate.
Defined.

(** ** [header_quote] against the pattern of an option *)

(** A repetition whose body takes, one after the other, the pieces of a
    text and nothing at its end, takes the whole text. *)
Lemma star_iter_pieces
    (m : mstate -> (mstate -> option mstate) -> option mstate)
    (ok : text -> Prop) :
  (forall w s pos caps K res,
     ok w ->
     K (MState (pos + length w) s caps) = Some res ->
     m (MState pos (w ++ s) caps) K = Some res) ->
  (forall w, ok w -> w <> []) ->
  forall ws rest caps k res pos n,
    Forall ok ws ->
    (forall K, m (MState (pos + length (concat ws)) rest caps) K = None) ->
    (length (concat ws ++ rest) <= n)%nat ->
    k (MState (pos + length (concat ws)) rest caps) = Some res ->
    star_iter m k n (MState pos (concat ws ++ rest) caps) = Some res.
Proof.
  intros Hstep Hne ws rest caps k res.
  induction ws as [|w ws IH]; intros pos n Hws Hstop Hn Hk.
  - cbn [concat length] in Hstop, Hk. rewrite Nat.add_0_r in Hstop, Hk.
    cbn [concat app]. destruct n as [|n']; cbn [star_iter]; [exact Hk|].
    rewrite Hstop. exact Hk.
  - apply Forall_cons in Hws as [Hw Hws].
    pose proof (Hne w Hw) as Hwne.
    assert (Hlen : (0 < length w)%nat)
      by (destruct w; [contradiction|cbn; lia]).
    cbn [concat] in *. rewrite length_app in Hstop, Hk.
    rewrite <- app_assoc in Hn |- *.
    destruct n as [|n']; [rewrite length_app in Hn; lia|].
    cbn [star_iter].
    rewrite (Hstep w (concat ws ++ rest) pos caps _ res Hw); [reflexivity|].
    cbn [m_rest].
    destruct (Nat.ltb_spec (length (concat ws ++ rest))
                (length (w ++ concat ws ++ rest))) as [_|Hge];
      [|rewrite length_app in Hge; lia].
    apply IH; auto.
    + intros K. rewrite <- (Hstop K). do 2 f_equal. lia.
    + rewrite length_app in Hn. lia.
    + rewrite <- Hk. do 2 f_equal. lia.
Qed.

(** The pieces [header_quote] makes of the characters of a value. *)
Lemma rmatch_qstr_escaped (v post : text) (pos : nat)
    (caps : list (nat * text)) (k : mstate -> option mstate)
    (res : mstate) :
  k (MState (S (S pos + length (flat_map escaped v))) post caps) = Some res ->
  rmatch _qstr
    (MState pos (DQUOTE :: flat_map escaped v ++ DQUOTE :: post) caps) k
  = Some res.
Proof.
  intros Hk. unfold _qstr.
  rewrite rmatch_cat, rmatch_chr_step by reflexivity. rewrite rmatch_cat.
  change (rmatch (Star ?r) ?st ?K)
    with (star_iter (rmatch r) K (length (m_rest st)) st).
  cbn [m_rest].
  rewrite flat_map_concat_map in Hk |- *.
  apply star_iter_pieces
    with (ok := fun w => exists c, w = escaped c) (res := res).
  - intros w s p caps' K res' [c ->] HK.
    unfold escaped in *.
    destruct (ch_eqb c BSLASH) eqn:E1.
    + cbn [app length] in *.
      apply rmatch_alt_left. rewrite rmatch_cat.
      rewrite rmatch_chr_step by reflexivity.
      rewrite rmatch_chr_step by reflexivity.
      rewrite <- HK. do 2 f_equal. lia.
    + destruct (ch_eqb c DQUOTE) eqn:E2.
      * cbn [app length] in *.
        apply rmatch_alt_left. rewrite rmatch_cat.
        rewrite rmatch_chr_step by reflexivity.
        rewrite rmatch_chr_step by reflexivity.
        rewrite <- HK. do 2 f_equal. lia.
      * cbn [app length] in *.
        rewrite rmatch_alt_right.
        2:{ rewrite rmatch_cat. apply rmatch_chr_stop.
            rewrite ch_eqb_sym. exact E1. }
        rewrite rmatch_chr_step by (rewrite E2; reflexivity).
        rewrite <- HK. do 2 f_equal. lia.
  - intros w [c ->]. unfold escaped.
    destruct (ch_eqb c BSLASH); [discriminate|].
    destruct (ch_eqb c DQUOTE); discriminate.
  - apply Forall_forall. intros w Hw.
    apply list_elem_of_fmap in Hw as (c & -> & _). eauto.
  - intros K. rewrite rmatch_alt_right.
    + apply rmatch_chr_stop. reflexivity.
    + rewrite rmatch_cat. apply rmatch_chr_stop. reflexivity.
  - apply le_n.
  - rewrite rmatch_chr_step by reflexivity. exact Hk.
Qed.

Lemma option_text_app (key written post : text) :
  option_text key written ++ post
  = SPACE :: key ++ "="%char :: written ++ post.
Proof.
  unfold option_text. cbn [app]. f_equal. rewrite <- app_assoc. reflexivity.
Qed.

(** The pattern of an option after its separator, on an option whose
    value the pattern of values takes. *)
Lemma rmatch_option_text_body (c0 : ascii) (key written post : text)
    (pos : nat) :
  Forall (fun c => not_special c = true) (c0 :: key) ->
  is_space c0 = false ->
  match written with c :: _ => is_space c = false | [] => False end ->
  (forall p caps k res,
     k (MState (p + length written) post caps) = Some res ->
     rmatch _value (MState p (written ++ post) caps) k = Some res) ->
  rmatch
    (Cat (Star (Chr is_space))
       (Cat (Grp 1 (Plus (Chr not_special)))
          (Cat (Star (Chr is_space))
             (Cat (Chr (ch_eqb "="%char))
                (Cat (Star (Chr is_space)) (Grp 2 _value))))))
    (MState pos (option_text (c0 :: key) written ++ post) []) Some
  = Some (MState (pos + length (option_text (c0 :: key) written)) post
            [(2%nat, written); (1%nat, c0 :: key)]).
Proof.
  intros Hkey Hc0 Hw Hval. apply Forall_cons in Hkey as [Hk0 Hkey].
  rewrite option_text_app.
  set (after_key := "="%char :: written ++ post).
  change (SPACE :: (c0 :: key) ++ after_key)
    with ([SPACE] ++ c0 :: key ++ after_key).
  rewrite rmatch_cat.
  apply rmatch_star_chr; [repeat constructor|exact Hc0|].
  rewrite rmatch_cat, rmatch_grp.
  apply rmatch_plus_chr; [exact Hk0|exact Hkey|reflexivity|].
  unfold close_group. cbn [m_pos m_rest m_caps].
  rewrite rmatch_cat.
  apply (rmatch_star_chr is_space [] after_key); [constructor|reflexivity|].
  subst after_key.
  rewrite rmatch_cat, rmatch_chr_step by reflexivity.
  rewrite rmatch_cat.
  apply (rmatch_star_chr is_space [] (written ++ post));
    [constructor|destruct written; [contradiction|exact Hw]|].
  rewrite rmatch_grp. apply Hval.
  unfold close_group. cbn [m_pos m_rest m_caps length].
  f_equal. f_equal.
  - unfold option_text. cbn [length]. rewrite !length_app. cbn [length]. lia.
  - f_equal.
    + f_equal. apply take_app_length'. lia.
    + f_equal. f_equal.
      match goal with
      | |- take _ (c0 :: key ++ ?x) = _ =>
          change (c0 :: key ++ x) with ((c0 :: key) ++ x)
      end.
      apply take_app_length'. cbn [length]. lia.
Qed.

(** The same at the start of a tail. *)
Lemma rmatch_option_text (c0 : ascii) (key written post : text) :
  Forall (fun c => not_special c = true) (c0 :: key) ->
  is_space c0 = false ->
  match written with c :: _ => is_space c = false | [] => False end ->
  (forall p caps k res,
     k (MState (p + length written) post caps) = Some res ->
     rmatch _value (MState p (written ++ post) caps) k = Some res) ->
  rmatch _option (MState 0 (option_text (c0 :: key) written ++ post) []) Some
  = Some (MState (length (option_text (c0 :: key) written)) post
            [(2%nat, written); (1%nat, c0 :: key)]).
Proof.
  intros Hkey Hc0 Hw Hval. unfold _option. rewrite rmatch_cat.
  rewrite rmatch_alt_right by reflexivity.
  cbn [rmatch m_pos Nat.eqb].
  apply (rmatch_option_text_body c0 key written post 0 Hkey Hc0 Hw Hval).
Qed.

(** The pattern of values takes a whole token that ends the text. *)
Lemma rmatch_value_token (val : text) (p : nat) (caps : list (nat * text))
    (k : mstate -> option mstate) (res : mstate) :
  val <> [] ->
  Forall (fun c => is_special c = false) val ->
  k (MState (p + length val) [] caps) = Some res ->
  rmatch _value (MState p (val ++ []) caps) k = Some res.
Proof.
  intros Hne Hval Hk. destruct val as [|c val]; [contradiction|].
  apply Forall_cons in Hval as [Hc Hval].
  unfold _value. apply rmatch_alt_left. cbn [app].
  apply rmatch_plus_chr.
  - unfold not_special. rewrite Hc. reflexivity.
  - eapply Forall_impl; [exact Hval|]. intros a Ha.
    unfold not_special. rewrite Ha. reflexivity.
  - exact I.
  - replace (S p + length val)%nat with (p + length (c :: val))%nat
      by (cbn [length]; lia).
    exact Hk.
Qed.

(** The pattern of values takes a value in double quotes, escaped as
    [header_quote] does it. *)
Lemma rmatch_value_escaped (val post : text) (p : nat)
    (caps : list (nat * text)) (k : mstate -> option mstate) (res : mstate) :
  k (MState (p + length (DQUOTE :: flat_map escaped val ++ [DQUOTE])) post
       caps) = Some res ->
  rmatch _value
    (MState p ((DQUOTE :: flat_map escaped val ++ [DQUOTE]) ++ post) caps) k
  = Some res.
Proof.
  intros Hk. unfold _value.
  rewrite rmatch_alt_right.
  2:{ unfold Plus. rewrite rmatch_cat. apply rmatch_chr_stop. reflexivity. }
  cbn [app]. rewrite <- app_assoc. cbn [app].
  apply rmatch_qstr_escaped.
  replace (S (S p + length (flat_map escaped val)))
    with (p + length (DQUOTE :: flat_map escaped val ++ [DQUOTE]))%nat
    by (cbn [length]; rewrite length_app; cbn [length]; lia).
  exact Hk.
Qed.

(** White space of a pattern is white space of [isspace] too. *)
Lemma is_space_uspace (c : ascii) : is_uspace c = false -> is_space c = false.
Proof.
  destruct c as [[] [] [] [] [] [] [] []]; vm_compute; intros H;
    first [reflexivity | discriminate H].
Qed.

(** X22: an option written with [header_quote] is read back by
    [parse_options_header].  A header made of a type without semicolon, a
    semicolon, a blank, a key of characters outside the special ones (the
    first no white space), an equals sign and the quoted value gives the
    type as it stands and the one option, the key in lower case with the
    value; for every value that is not empty, does not begin with a
    backslash, has no colon as its second character, and does not begin
    with a white space other than blank and tab. *)
Theorem quoted_option_parsed (ctype : text) (c0 : ascii) (key val : text) :
  contains_ch ";"%char ctype = false ->
  Forall (fun c => not_special c = true) (c0 :: key) ->
  is_uspace c0 = false ->
  val <> [] ->
  head val <> Some BSLASH ->
  val !! 1%nat <> Some ":"%char ->
  (forall c, head val = Some c -> is_uspace c = true -> is_special c = true) ->
  parse_options_header
    (ctype ++ ";"%char :: option_text (c0 :: key) (header_quote val)) None
  = Ok (ctype, {[ lower (c0 :: key) := val ]}).
Proof.
  intros Hct Hkey Hc0 Hne H0 H1 Hsp. apply is_space_uspace in Hc0.
  assert (Hw : (forall b, header_unquote (header_quote val) b = Ok val)
               /\ match header_quote val with
                  | c :: _ => is_space c = false
                  | [] => False
                  end
               /\ forall p caps k res,
                    k (MState (p + length (header_quote val)) [] caps)
                    = Some res ->
                    rmatch _value (MState p (header_quote val ++ []) caps) k
                    = Some res).
  { unfold header_quote.
    destruct (search _re_special val) as [m|] eqn:Es.
    - rewrite header_quote_escaped. cbn [app]. split; [|split].
      + intros b. apply header_unquote_escaped; assumption.
      + reflexivity.
      + intros p caps k res. apply (rmatch_value_escaped val [] p caps k res).
    - apply search_special in Es. split; [|split].
      + intros b. apply header_unquote_token; assumption.
      + destruct val as [|c val]; [contradiction|].
        apply Forall_cons in Es as [Hc _]. apply is_space_uspace.
        destruct (is_uspace c) eqn:E; [|reflexivity].
        rewrite (Hsp c eq_refl E) in Hc. discriminate.
      + intros p caps k res. apply rmatch_value_token; assumption. }
  destruct Hw as (Hun & Hhead & Hval).
  generalize dependent (header_quote val). intros written Hun Hhead Hval.
  unfold parse_options_header.
  rewrite contains_ch_app. cbn [contains_ch existsb].
  rewrite ch_eqb_refl, orb_true_r. cbn [negb orb].
  rewrite (split1_app _ _ _ Hct).
  change (default ∅ None) with (∅ : gmap (list ascii) (list ascii)).
  unfold finditer.
  rewrite <- (app_nil_r (option_text _ written)).
  rewrite (finditer_from_match _option 0 _ []
             (MState (length (option_text (c0 :: key) written)) []
                [(2%nat, written); (1%nat, c0 :: key)])).
  - rewrite finditer_option_end
      by (unfold option_text; cbn [length Nat.add]; lia).
    cbn [m_caps record_options foldl rbind]. unfold record_option.
    cbn [group Nat.eqb]. rewrite Hun. reflexivity.
  - discriminate.
  - apply rmatch_option_text; assumption.
  - reflexivity.
Qed.

Lemma quoted_option_parsed_witness :
  parse_options_header
    (T "form-data" ++ ";"%char
       :: option_text (T "Name") (header_quote (T "a b"))) None
  = Ok (T "form-data", {[ T "name" := T "a b" ]}).
Proof.
  apply (quoted_option_parsed (T "form-data") "N"%char (T "ame") (T "a b")).
  - reflexivity.
  - repeat constructor.
  - reflexivity.
  - discriminate.
  - discriminate.
  - discriminate.
  - intros c [= <-]. vm_compute. discriminate.
Defined.

(** ** C6: [parse_options_header] *)

(** *** The pattern of an option on a well-formed pair *)















(** *** Where the pattern finds nothing *)







(** *** The matches in a tail of well-formed fragments *)



(** *** The options recorded *)







